(** * path-to-power: command validation, character state and movement

    A shallow embedding of the gameplay engine's command manager
    (tokenising, unquoting, rule validation, dispatch), of the character
    object (targeting, inventory, equipment, damage), of the cooldown
    manager and of the character manager's [move], followed by the
    properties the specification states about them. *)

From Stdlib Require Import ZArith Lia Ascii String Bool List.
From stdpp Require Import base strings functions gmap.
From stdpp Require Import list.

Local Open Scope string_scope.
Local Open Scope list_scope.
Local Open Scope Z_scope.

(** ** JavaScript string primitives used by the source *)
Module JS.

Definition quote : ascii := ascii_of_nat 34.
Definition space : ascii := " "%char.

(** [s.length] *)
Definition len (s : string) : Z := Z.of_nat (String.length s).

(** [s[i]]: [None] renders [undefined] (index out of range). *)
Definition at_ (s : string) (i : Z) : option ascii :=
  if i <? 0 then None else String.get (Z.to_nat i) s.

Definition clamp (n i : Z) : Z := Z.max 0 (Z.min i n).

(** [s.substring(a, b)]: both ends clamped to [0, length], swapped when
    [a > b]. *)
Definition substring (s : string) (a b : Z) : string :=
  let a' := clamp (len s) a in
  let b' := clamp (len s) b in
  let lo := Z.min a' b' in
  let hi := Z.max a' b' in
  String.substring (Z.to_nat lo) (Z.to_nat (hi - lo)) s.

Definition lower_char (c : ascii) : ascii :=
  let n := nat_of_ascii c in
  if ((65 <=? n) && (n <=? 90))%nat then ascii_of_nat (n + 32) else c.

(** [s.toLowerCase()] on the ASCII range. *)
Fixpoint toLowerCase (s : string) : string :=
  match s with
  | EmptyString => EmptyString
  | String c r => String (lower_char c) (toLowerCase r)
  end.

(** White space as [trim] and [parseInt] see it (ASCII range). *)
Definition is_space (c : ascii) : bool :=
  let n := nat_of_ascii c in
  ((n =? 32) || ((9 <=? n) && (n <=? 13)))%nat.

Fixpoint trimStart (s : string) : string :=
  match s with
  | String c r => if is_space c then trimStart r else s
  | EmptyString => EmptyString
  end.

(** Drops trailing white space; the result is all of [s] up to its last
    character that is not white space. *)
Fixpoint trimEnd (s : string) : string :=
  match s with
  | EmptyString => EmptyString
  | String c r =>
      match trimEnd r with
      | EmptyString => if is_space c then EmptyString else String c EmptyString
      | r' => String c r'
      end
  end.

Definition trim (s : string) : string := trimEnd (trimStart s).

(** [s.includes(c)] for a single character. *)
Fixpoint includes_char (c : ascii) (s : string) : bool :=
  match s with
  | EmptyString => false
  | String d r => if Ascii.eqb d c then true else includes_char c r
  end.

(** [s.indexOf(p) === 0] *)
Definition startsWith (p s : string) : bool := String.prefix p s.

(** [s.split(sep)] for a one-character separator. *)
Fixpoint split_aux (sep : ascii) (cur : string) (s : string) : list string :=
  match s with
  | EmptyString => [cur]
  | String c r =>
      if Ascii.eqb c sep then cur :: split_aux sep EmptyString r
      else split_aux sep (cur +:+ String c EmptyString) r
  end.

Definition split (sep : ascii) (s : string) : list string :=
  split_aux sep EmptyString s.

(** [l.join(sep)] *)
Fixpoint join (sep : string) (l : list string) : string :=
  match l with
  | [] => EmptyString
  | [a] => a
  | a :: r => a +:+ sep +:+ join sep r
  end.

(** [l.slice(a, b)] with JavaScript's treatment of negative and
    oversized indices. *)
Definition rel_index (n i : Z) : Z :=
  if i <? 0 then Z.max (n + i) 0 else Z.min i n.

Definition slice {A} (l : list A) (a b : Z) : list A :=
  let n := Z.of_nat (length l) in
  let a' := rel_index n a in
  let b' := rel_index n b in
  take (Z.to_nat (b' - a')) (drop (Z.to_nat a') l).

(** [l.slice(a)] *)
Definition slice_from {A} (l : list A) (a : Z) : list A :=
  drop (Z.to_nat (rel_index (Z.of_nat (length l)) a)) l.

Definition is_digit (c : ascii) : bool :=
  let n := nat_of_ascii c in ((48 <=? n) && (n <=? 57))%nat.

Fixpoint digits (acc : option Z) (s : string) : option Z :=
  match s with
  | String c r =>
      if is_digit c
      then digits (Some (10 * default 0 acc + Z.of_nat (nat_of_ascii c - 48))) r
      else acc
  | EmptyString => acc
  end.

(** [parseInt(s, 10)]: leading white space, an optional sign, then the
    longest run of decimal digits; [None] renders [NaN]. *)
Definition parseInt (s : string) : option Z :=
  match trimStart s with
  | String "-" r => Z.opp <$> digits None r
  | String "+" r => digits None r
  | r => digits None r
  end.

(** [Number.isSafeInteger(z)] for a whole number: sums and differences of
    such numbers that are such numbers again are exact. *)
Definition isSafeInteger (z : Z) : bool :=
  (- (2 ^ 53 - 1) <=? z) && (z <=? 2 ^ 53 - 1).

End JS.

(** ** Cooldowns *)
Module Cooldown.

(** Modelled from the spec: the cooldown object (cooldown/object.js is not
    part of the sources): an action key, the remaining ticks, whether its
    timer was started, and the flag [remove] that marks an expired entry
    for the reaper. *)
Record t := mk {
  action : string;
  ticks : Z;
  started : bool;
  remove : bool
}.

(** Modelled from the spec: [new Cooldown(action, duration, autostart)]. *)
Definition new (action : string) (duration : Z) (autostart : bool) : t :=
  mk action duration autostart false.

(** Modelled from the spec: [cooldown.start()]. *)
Definition start (c : t) : t :=
  mk (action c) (ticks c) true (remove c).

(** [CooldownManager.cleanup]:
    [character.cooldowns = character.cooldowns.filter((obj) => obj.remove)] *)
Definition cleanup (cooldowns : list t) : list t :=
  List.filter (fun obj => remove obj) cooldowns.

(** [CooldownManager.ticksLeft] *)
Definition ticksLeft (cooldowns : list t) (act : string) : Z :=
  match List.find (fun cd => String.eqb (action cd) act && (0 <? ticks cd)) cooldowns with
  | None => 0
  | Some cd => if ticks cd =? 0 then 0 else Z.max 0 (ticks cd)
  end.

(** [CooldownManager.add(character, action)] with the duration left to the
    configured default: [playerCooldowns] is the table
    [Game.config.game.playerCooldowns]; an entry that is absent or 0 is
    falsy and nothing is added.  Returns the new list and the new cooldown
    (if any). *)
Definition add (playerCooldowns : string -> option Z)
    (cooldowns : list t) (act : string) (duration : option Z) (autostart : bool)
    : list t * option t :=
  let truthy (d : option Z) := match d with Some v => negb (v =? 0) | None => false end in
  let duration :=
    if truthy duration then duration
    else if truthy (playerCooldowns act) then playerCooldowns act
    else duration in
  match duration with
  | Some d =>
      if d =? 0 then (cooldowns, None)
      else let c := new act d autostart in ((cooldowns ++ [c])%list, Some c)
  | None => (cooldowns, None)
  end.

End Cooldown.

(** ** Items *)
Module Item.

Record Stats := mkStats {
  stackable : bool;
  equipable : bool;
  stats_durability : Z;   (* [stats.durability]: the quantity of a stack *)
  damage_reduction : Z
}.

(** The fields of an item object that the character code reads or writes.
    [slot] and [equipped_slot] are two distinct properties in the source:
    [equip], [unEquip] and [getEquippedSync] use [equipped_slot], [dropItem]
    reads [slot]. *)
Record t := mk {
  id : string;
  name : string;
  subtype : string;
  slot : option string;
  equipped_slot : option string;
  durability : Z;
  stats : Stats
}.

(** JavaScript truthiness of a property holding a string, [null] or
    [undefined]. *)
Definition truthy (o : option string) : bool :=
  match o with
  | Some v => negb (String.eqb v "")
  | None => false
  end.

Definition with_equipped_slot (v : option string) (i : t) : t :=
  mk (id i) (name i) (subtype i) (slot i) v (durability i) (stats i).

Definition with_durability (v : Z) (i : t) : t :=
  mk (id i) (name i) (subtype i) (slot i) (equipped_slot i) v (stats i).

Definition with_stats_durability (v : Z) (i : t) : t :=
  mk (id i) (name i) (subtype i) (slot i) (equipped_slot i) (durability i)
     (mkStats (stackable (stats i)) (equipable (stats i)) v
              (damage_reduction (stats i))).

(** Modelled from the spec: [item.addDurability(amount)],
    [item.setDurability(amount)] and [item.removeDurability(amount)]
    (item/object.js is not part of the sources) change the quantity of the
    stack, the property [stats.durability] that [giveItem] and [dropItem]
    read. *)
Definition addDurability (amount : Z) (i : t) : t :=
  with_stats_durability (stats_durability (stats i) + amount) i.

Definition setDurability (amount : Z) (i : t) : t :=
  with_stats_durability amount i.

Definition removeDurability (amount : Z) (i : t) : t :=
  with_stats_durability (stats_durability (stats i) - amount) i.

End Item.

(** ** Characters *)
Module Character.

(** Characters are objects shared by reference (the registry, [target] and
    the [targetedBy] arrays all point to them): a reference is a [handle]
    into a store. *)
Definition handle := nat.

Record Stats := mkStats {
  health : Z;
  health_max : Z;
  money : Z;
  bank : Z;
  exp : Z;
  inventorySize : Z
}.

Record Location := mkLocation {
  map : string;
  x : Z;
  y : Z
}.

Record t := mk {
  user_id : string;
  name : string;
  location : Location;
  stats : Stats;
  inventory : list Item.t;
  cooldowns : list Cooldown.t;
  target : option handle;
  targetedBy : list handle;
  hidden : bool
}.

Definition with_inventory (v : list Item.t) (c : t) : t :=
  mk (user_id c) (name c) (location c) (stats c) v (cooldowns c)
     (target c) (targetedBy c) (hidden c).

Definition with_cooldowns (v : list Cooldown.t) (c : t) : t :=
  mk (user_id c) (name c) (location c) (stats c) (inventory c) v
     (target c) (targetedBy c) (hidden c).

Definition with_target (v : option handle) (c : t) : t :=
  mk (user_id c) (name c) (location c) (stats c) (inventory c) (cooldowns c)
     v (targetedBy c) (hidden c).

Definition with_targetedBy (v : list handle) (c : t) : t :=
  mk (user_id c) (name c) (location c) (stats c) (inventory c) (cooldowns c)
     (target c) v (hidden c).

Definition with_location (v : Location) (c : t) : t :=
  mk (user_id c) (name c) v (stats c) (inventory c) (cooldowns c)
     (target c) (targetedBy c) (hidden c).

Definition with_health (v : Z) (c : t) : t :=
  mk (user_id c) (name c) (location c)
     (mkStats v (health_max (stats c)) (money (stats c)) (bank (stats c))
              (exp (stats c)) (inventorySize (stats c)))
     (inventory c) (cooldowns c) (target c) (targetedBy c) (hidden c).

(** Calls a character method makes on the game's managers. *)
Inductive Call :=
| UpdateClient (user : string)          (* characterManager.updateClient *)
| ItemManagerRemove (user : string) (arg : Z).   (* itemManager.remove *)

(** The outcome of a method that can throw a [TypeError]. *)
Inductive Outcome (A : Type) :=
| Returns (a : A)
| Throws.
Arguments Returns {A} a.
Arguments Throws {A}.

(** [array[i]] for a numeric index. *)
Definition index {A} (l : list A) (i : Z) : option A :=
  if i <? 0 then None else l !! Z.to_nat i.

(** [array.splice(i, 1)] for an index in range. *)
Definition splice1 {A} (l : list A) (i : Z) : list A :=
  delete (Z.to_nat i) l.

(** [getLocationId()]: the room key of the character's cell; the template
    string [map_y_x] is kept as its three components. *)
Definition getLocationId (c : t) : string * Z * Z :=
  (map (location c), y (location c), x (location c)).

(** [updateLocation(map, x, y)] *)
Definition updateLocation (m : string) (x' y' : Z) (c : t) : t :=
  with_location
    (mkLocation (if String.eqb m "" then map (location c) else m) x' y') c.

(** [getEquippedSync(slot)] for a slot name: the first inventory item whose
    [equipped_slot] is that slot, with its position. *)
Definition getEquippedSync (c : t) (slot : string) : option (nat * Item.t) :=
  list_find (fun obj => Item.equipped_slot obj = Some slot) (inventory c).

(** A promise callback that [unEquip] or [equip] has registered and that
    has not run yet.  The items it writes to are the objects that the call
    found; they are named here by their position in the inventory, which
    [equip] and [unEquip] never change. *)
Inductive Callback :=
| UnEquipThen (item : nat)
    (* getEquipped(slot).then: item.equipped_slot = null *)
| EquipThen (equippedItem item : nat) (slot : string)
    (* getEquipped(slot).then: delete equippedItem.equipped_slot;
       item.equipped_slot = slot *)
| EquipCatch (item : nat) (slot : string).
    (* getEquipped(slot) rejected, catch: item.equipped_slot = slot *)

(** The body of a callback, run on the character as it is by then. *)
Definition run_callback (c : t) (cb : Callback) : t * list Call :=
  match cb with
  | UnEquipThen j =>
      (with_inventory (alter (Item.with_equipped_slot None) j (inventory c)) c,
       [UpdateClient (user_id c)])
  | EquipThen j i slot =>
      (with_inventory
         (alter (Item.with_equipped_slot (Some slot)) i
                (alter (Item.with_equipped_slot None) j (inventory c))) c,
       [UpdateClient (user_id c)])
  | EquipCatch i slot =>
      (with_inventory
         (alter (Item.with_equipped_slot (Some slot)) i (inventory c)) c,
       [UpdateClient (user_id c)])
  end.

(** What a call of [unEquip(slot)] does before it returns: the executor of
    [getEquipped(slot)] looks the item up at once; the write waits in the
    callback ([None]: nothing is registered that writes). *)
Definition unEquip_call (c : t) (slot : option string) : option Callback :=
  if negb (Item.truthy slot) then None
  else
    match getEquippedSync c (default "" slot) with
    | Some (j, _) => Some (UnEquipThen j)
    | None => None
    end.

(** [unEquip(slot)] with its callback run before anything else reads or
    writes the character. *)
Definition unEquip (c : t) (slot : option string) : t * list Call :=
  match unEquip_call c slot with
  | Some cb => run_callback c cb
  | None => (c, [])
  end.

(** The slot an item subtype is equipped into ([switch (item.subtype)]). *)
Definition slot_of_subtype (subtype : string) : option string :=
  if String.eqb subtype "ranged" then Some "ranged"
  else if String.eqb subtype "melee" then Some "melee"
  else if String.eqb subtype "body" then Some "armor"
  else if String.eqb subtype "ammo" then Some "ammo"
  else None.

(** What a call of [equip(inventoryIndex)] does before it returns: it
    picks the item and its slot and, in the executor of
    [getEquipped(slot)], looks up what the slot holds at that moment; both
    writes wait in the callback. *)
Definition equip_call (c : t) (inventoryIndex : Z) : option Callback :=
  match index (inventory c) inventoryIndex with
  | None => None
  | Some item =>
      if negb (Item.equipable (Item.stats item)) then None
      else
        match slot_of_subtype (Item.subtype item) with
        | None => None
        | Some slot =>
            Some (match getEquippedSync c slot with
                  | Some (j, _) => EquipThen j (Z.to_nat inventoryIndex) slot
                  | None => EquipCatch (Z.to_nat inventoryIndex) slot
                  end)
        end
  end.

(** [equip(inventoryIndex)] with its callback run before anything else
    reads or writes the character. *)
Definition equip (c : t) (inventoryIndex : Z) : t * list Call :=
  match equip_call c inventoryIndex with
  | Some cb => run_callback c cb
  | None => (c, [])
  end.

(** Calls of [equip] and [unEquip] made one after the other before any
    promise callback has run (in one handler, say).  The calls write
    nothing, so each of them reads the character as it was.  A callback
    given to [then] runs one step after the call; one given to the [catch]
    chained after it runs a step later still, since the rejection first
    passes through the promise that [then] returned.  So the
    [then]-callbacks run first, in the order of the calls, and the
    [catch]-callbacks after them. *)
Inductive EquipmentCall :=
| CallEquip (inventoryIndex : Z)
| CallUnEquip (slot : option string).

Definition callback_of (c : t) (call : EquipmentCall) : option Callback :=
  match call with
  | CallEquip inventoryIndex => equip_call c inventoryIndex
  | CallUnEquip slot => unEquip_call c slot
  end.

Definition is_catch (cb : Callback) : bool :=
  match cb with
  | EquipCatch _ _ => true
  | _ => false
  end.

Definition equipment_turn (c : t) (calls : list EquipmentCall) : t :=
  let callbacks := omap (callback_of c) calls in
  fold_left (fun c cb => (run_callback c cb).1)
    (List.filter (fun cb => negb (is_catch cb)) callbacks
       ++ List.filter is_catch callbacks) c.

(** [takeItem(inventoryIndex, amount, itemList)]; [itemList] is the table
    of item templates by id. *)
Definition takeItem (itemList : string -> option Item.t)
    (c : t) (inventoryIndex amount : Z) : Outcome (t * option Item.t) :=
  match index (inventory c) inventoryIndex with
  | None => Throws
  | Some selectedItem =>
      match itemList (Item.id selectedItem) with
      | None => Throws
      | Some item =>
          if negb (Item.stackable (Item.stats item)) then
            Returns (with_inventory (splice1 (inventory c) inventoryIndex) c,
                     Some selectedItem)
          else if Item.durability selectedItem <? amount then
            Returns (c, None)
          else
            let takenItem := Item.with_durability amount selectedItem in
            let left := Item.durability selectedItem - amount in
            let inv :=
              alter (Item.with_durability left) (Z.to_nat inventoryIndex)
                    (inventory c) in
            Returns
              (with_inventory
                 (if left <=? 0 then splice1 inv inventoryIndex else inv) c,
               Some takenItem)
      end
  end.

(** The first argument of [dropItem]: an inventory index or an item name. *)
Inductive Selector :=
| ByIndex (i : Z)
| ByName (s : string).

Section WithItemManager.

(** [Game.itemManager.add(id, {durability})] builds a new item object
    from the template [id] (item/manager.js is not part of the sources). *)
Variable itemManager_add : string -> option Z -> Item.t.

(** [dropItem(item, amount, isFleeing)]; [amount] is an integer, which
    [parseInt(amount, 10)] returns as it is.  [rnd] is the value of
    [Math.floor(Math.random() * durability)] used when fleeing.  The
    continuation of the [unEquip] call only writes [equipped_slot] of the
    object that [getEquipped] found when [unEquip] was called, and
    [dropItem] never reads that property, so it is run with the call. *)
Definition dropItem (c : t) (item : Selector) (amount : Z)
    (isFleeing : bool) (rnd : Z) : Outcome (t * option Item.t * list Call) :=
  let itemIndex : Z :=
    match item with
    | ByIndex i => i
    | ByName s =>
        match JS.parseInt s with
        | Some i => i
        | None =>
            match list_find
                    (fun obj => JS.startsWith (JS.toLowerCase s)
                                  (JS.toLowerCase (Item.name obj)) = true)
                    (inventory c) with
            | Some (j, _) => Z.of_nat j
            | None => -1
            end
        end
    end in
  if itemIndex =? -1 then Returns (c, None, [])
  else
    match index (inventory c) itemIndex with
    | None => Throws
    | Some inventoryItem =>
        let '(c1, calls) :=
          if isFleeing && Item.truthy (Item.slot inventoryItem)
          then unEquip c (Item.slot inventoryItem)
          else (c, []) in
        if Item.truthy (Item.slot inventoryItem) && negb isFleeing
        then Returns (c1, None, calls)
        else
          match index (inventory c1) itemIndex with
          | None => Throws
          | Some inventoryItem =>
              if negb (Item.stackable (Item.stats inventoryItem)) then
                Returns (with_inventory (splice1 (inventory c1) itemIndex) c1,
                         Some inventoryItem, calls)
              else
                let durability := Item.stats_durability (Item.stats inventoryItem) in
                if durability <? amount then Returns (c1, None, calls)
                else
                  let amount := if isFleeing then rnd + 1 else amount in
                  if durability - amount <=? 0 then
                    Returns (with_inventory (splice1 (inventory c1) itemIndex) c1,
                             Some inventoryItem, calls)
                  else
                    Returns
                      (with_inventory
                         (alter (Item.removeDurability amount)
                                (Z.to_nat itemIndex) (inventory c1)) c1,
                       Some (itemManager_add (Item.id inventoryItem) (Some amount)),
                       calls)
          end
    end.

(** [giveItem(itemObj, amount)]; an omitted ([null]) amount is 0, which
    the source treats alike.  The method calls itself for every further
    instance of a non-stackable item; [fuel] bounds the depth of these
    calls. *)
Fixpoint giveItem (fuel : nat) (c : t) (itemObj : Item.t) (amount : Z)
    : option t :=
  match fuel with
  | O => None
  | S fuel =>
      if Item.stackable (Item.stats itemObj) then
        let amount :=
          if amount =? 0 then Item.stats_durability (Item.stats itemObj)
          else amount in
        match list_find (fun obj => Item.id obj = Item.id itemObj)
                        (inventory c) with
        | Some (j, _) =>
            Some (with_inventory
                    (alter (Item.addDurability amount) j (inventory c)) c)
        | None =>
            Some (with_inventory
                    (inventory c ++ [Item.setDurability amount itemObj])%list c)
        end
      else
        let c1 := with_inventory (inventory c ++ [itemObj])%list c in
        if amount =? 0 then Some c1
        else
          (* for (let i = amount - 1; i > 0; i--) *)
          Nat.iter (Z.to_nat (amount - 1))
            (fun acc =>
               match acc with
               | Some c' => giveItem fuel c' (itemManager_add (Item.id itemObj) None) 1
               | None => None
               end)
            (Some c1)
  end.

End WithItemManager.

(** [inventorySpaceLeft()] *)
Definition inventorySpaceLeft (c : t) : Z :=
  inventorySize (stats c) - Z.of_nat (length (inventory c)).

(** [hasRoomForItem(itemObj, amount)] *)
Definition hasRoomForItem (c : t) (itemObj : Item.t) (amount : Z) : bool :=
  if Item.stackable (Item.stats itemObj) then
    match list_find (fun obj => Item.id obj = Item.id itemObj) (inventory c) with
    | None => if inventorySpaceLeft c <=? 0 then false else true
    | Some _ => true
    end
  else
    let amount := if amount =? 0 then 1 else amount in
    if inventorySpaceLeft c - amount <? 0 then false else true.

(** The object [dealDamage] returns. *)
Record DamageReport := mkReport {
  damageBlocked : Z;
  damageDealt : Z;
  healthLeft : Z;
  durabilityLeft : Z;
  armorRuined : bool
}.

(** [dealDamage(damage, ignoreArmor)]: the character after the call, the
    returned object and the calls made on the item manager.  The source
    hands the number [armor] to [itemManager.remove]. *)
Definition dealDamage (c : t) (damage : Z) (ignoreArmor : bool)
    : t * DamageReport * list Call :=
  let health := health (stats c) in
  let armorItem := getEquippedSync c "armor" in
  let '(armor, durability) :=
    match armorItem with
    | Some (_, it) =>
        if negb ignoreArmor
        then (Item.damage_reduction (Item.stats it), Item.durability it)
        else (0, 0)
    | None => (0, 0)
    end in
  let damageBlocked := Z.min (Z.min damage armor) durability in
  let damageDealt := Z.max 0 (damage - damageBlocked) in
  let healthLeft := Z.max 0 (health - damageDealt) in
  let durabilityLeft := Z.max 0 (durability - damage) in
  let c1 :=
    match armorItem with
    | Some (j, _) =>
        if negb ignoreArmor
        then with_inventory
               (alter (Item.with_durability durabilityLeft) j (inventory c)) c
        else c
    | None => c
    end in
  let c2 := with_health healthLeft c1 in
  let armorRuined := (durabilityLeft =? 0) && negb (durability =? 0) in
  (c2,
   mkReport damageBlocked damageDealt healthLeft durabilityLeft armorRuined,
   if armorRuined then [ItemManagerRemove (user_id c) armor] else []).

(** *** Targeting, on the store of character objects *)

Abbreviation Store := (handle -> t).

(** [isTargetedBy(user_id)] *)
Definition isTargetedBy (s : Store) (self : handle) (uid : string) : bool :=
  match list_find (fun user => user_id (s user) = uid) (targetedBy (s self)) with
  | Some _ => true
  | None => false
  end.

(** [gridLock(character)]: [self] is the object the method is called on. *)
Definition gridLock (s : Store) (self character : handle) : Store :=
  match list_find (fun obj => user_id (s obj) = user_id (s character))
                  (targetedBy (s self)) with
  | None =>
      <[self := with_targetedBy (targetedBy (s self) ++ [character])%list (s self)]> s
  | Some _ => s
  end.

(** [gridRelease(user_id)] *)
Definition gridRelease (s : Store) (self : handle) (uid : string) : Store :=
  match list_find (fun obj => user_id (s obj) = uid) (targetedBy (s self)) with
  | None => s
  | Some (playerIndex, _) =>
      <[self := with_targetedBy (delete playerIndex (targetedBy (s self))) (s self)]> s
  end.

(** [releaseTarget()]: the promise executor runs with the call. *)
Definition releaseTarget (s : Store) (self : handle) : Store :=
  let s1 :=
    match target (s self) with
    | Some tgt => gridRelease s tgt (user_id (s self))
    | None => s
    end in
  <[self := with_target None (s1 self)]> s1.

(** [this.target = target] *)
Definition assignTarget (s : Store) (self tgt : handle) : Store :=
  <[self := with_target (Some tgt) (s self)]> s.

(** The callback that [setTarget(target)] gives to
    [releaseTarget().then]: [this.target = target; this.target.gridLock(this)].
    It runs after the code that called [setTarget] has finished. *)
Definition setTarget_then (s : Store) (self tgt : handle) : Store :=
  gridLock (assignTarget s self tgt) tgt self.

(** [setTarget(target)] with its callback run before any other call is
    made: [releaseTarget()], which runs with the call, then the callback. *)
Definition setTarget (s : Store) (self tgt : handle) : Store :=
  setTarget_then (releaseTarget s self) self tgt.

(** Calls [self.setTarget(tgt)] made one after the other before any promise
    callback has run: every call runs its [releaseTarget()] at once, and
    the callbacks follow in the order of the calls. *)
Definition setTarget_turn (s : Store) (calls : list (handle * handle)) : Store :=
  let released := fold_left (fun s call => releaseTarget s call.1) calls s in
  fold_left (fun s call => setTarget_then s call.1 call.2) calls released.

(** The invariant of the targeting relation over the live registry
    [registry] (the character manager's list of characters): user ids
    identify live characters; a [targetedBy] array holds live characters,
    each at most once; and whoever is in a character's [targetedBy] array
    targets that character. *)
Record gridlock_inv (registry : list handle) (s : Store) : Prop := {
  inv_ids : forall a b, a ∈ registry -> b ∈ registry ->
              user_id (s a) = user_id (s b) -> a = b;
  inv_live : forall c a, c ∈ registry -> a ∈ targetedBy (s c) -> a ∈ registry;
  inv_nodup : forall c, c ∈ registry -> NoDup (targetedBy (s c));
  inv_outbound : forall c a, c ∈ registry -> a ∈ targetedBy (s c) ->
                   target (s a) = Some c
}.

(** *** Further methods of the character *)

Definition with_stats (v : Stats) (c : t) : t :=
  mk (user_id c) (name c) (location c) v (inventory c) (cooldowns c)
     (target c) (targetedBy c) (hidden c).

(** [updateExp(amount)], on whole numbers (which [Math.round] returns as
    they are). *)
Definition updateExp (amount : Z) (c : t) : t :=
  with_stats
    (mkStats (health (stats c)) (health_max (stats c)) (money (stats c))
             (bank (stats c)) (Z.max 0 (exp (stats c) + amount))
             (inventorySize (stats c))) c.

(** [updateHealth(amount)], on whole numbers. *)
Definition updateHealth (amount : Z) (c : t) : t :=
  let newHealth := Z.max 0 (health (stats c) + amount) in
  let newHealth :=
    if health_max (stats c) <? newHealth then health_max (stats c) else newHealth in
  with_health newHealth c.



(** [dropRandomItem()]; [pick] is the value of
    [Math.floor(Math.random() * this.inventory.length)] and [rnd] the
    random value [dropItem] uses. *)
Definition dropRandomItem (itemManager_add : string -> option Z -> Item.t)
    (c : t) (pick rnd : Z) : Outcome (t * option Item.t * list Call) :=
  if (length (inventory c) =? 0)%nat then Returns (c, None, [])
  else
    match index (inventory c) pick with
    | None => Returns (c, None, [])
    | Some item =>
        dropItem itemManager_add c (ByName (JS.toLowerCase (Item.name item))) 1 true rnd
    end.

(** The sum of the [durability] counters of an inventory. *)
Definition quantity (inv : list Item.t) : Z :=
  foldr (fun it acc => Item.durability it + acc) 0 inv.

(** Every equipment slot holds at most one item of the inventory. *)
Definition one_per_slot (inv : list Item.t) : Prop :=
  forall (i j : nat) (a b : Item.t) (sl : string),
    inv !! i = Some a -> inv !! j = Some b ->
    Item.equipped_slot a = Some sl -> Item.equipped_slot b = Some sl -> i = j.

End Character.

(** ** Sequences of inventory operations *)
Module Inventory.
Import Character.

(** One call on a character's inventory. *)
Inductive Op :=
| GiveItem (itemObj : Item.t) (amount : Z)
| Equip (inventoryIndex : Z)
| UnEquip (slot : option string)
| DropItem (item : Selector) (amount : Z) (isFleeing : bool) (rnd : Z)
| TakeItem (inventoryIndex : Z) (amount : Z).

Section WithCatalog.

Variable itemManager_add : string -> option Z -> Item.t.
Variable itemList : string -> option Item.t.

(** The character after a call; a call that throws does so before it
    writes anything and leaves the character as it was. *)
Definition step (c : t) (op : Op) : t :=
  match op with
  | GiveItem itemObj amount =>
      default c (giveItem itemManager_add 2 c itemObj amount)
  | Equip i => fst (equip c i)
  | UnEquip slot => fst (unEquip c slot)
  | DropItem item amount isFleeing rnd =>
      match dropItem itemManager_add c item amount isFleeing rnd with
      | Returns (c', _, _) => c'
      | Throws => c
      end
  | TakeItem i amount =>
      match takeItem itemList c i amount with
      | Returns (c', _) => c'
      | Throws => c
      end
  end.

(** The same, with [giveItem] called the way its callers are meant to:
    only after [hasRoomForItem] has said yes. *)
Definition step_checked (c : t) (op : Op) : t :=
  match op with
  | GiveItem itemObj amount =>
      if hasRoomForItem c itemObj amount then step c op else c
  | _ => step c op
  end.

Definition run (c : t) (ops : list Op) : t := fold_left step ops c.

Definition run_checked (c : t) (ops : list Op) : t :=
  fold_left step_checked ops c.

End WithCatalog.

(** An amount handed to [giveItem]: omitted (0) or positive. *)
Definition amount_ok (op : Op) : Prop :=
  match op with
  | GiveItem _ amount => 0 <= amount
  | _ => True
  end.

(** A bound on the number of entries one [giveItem] call adds. *)
Definition growth (c : t) (it : Item.t) (amount : Z) : nat :=
  if Item.stackable (Item.stats it) then
    match list_find (fun obj => Item.id obj = Item.id it) (inventory c) with
    | Some _ => 0%nat
    | None => 1%nat
    end
  else Z.to_nat (Z.max 1 amount).

(** The number of inventory entries of a template id. *)
Definition count_id (i : string) (inv : list Item.t) : nat :=
  length (filter (fun obj => Item.id obj = i) inv).

End Inventory.

(** ** Character manager *)
Module CharacterManager.
Import Character.

(** [getSync(user_id)] over the list of live characters. *)
Definition getSync (characters : list handle) (s : Store) (user_id : string)
    : option handle :=
  if String.eqb user_id "" then None
  else snd <$> list_find (fun obj => Character.user_id (s obj) = user_id) characters.

(** A room key, as [getLocationId] builds it. *)
Definition Room : Type := string * Z * Z.

(** What [move] sends out, in order. *)
Inductive Event :=
| EventToSocket (user : string) (type message : string)   (* Game.eventToSocket *)
| EventToRoom (room : Room) (type message : string) (ignore : list string)
| LeftGrid (room : Room) (user : string)       (* dispatchToRoom, LEFT_GRID *)
| JoinedGrid (room : Room) (name user : string)  (* dispatchToRoom, joinedGrid *)
| SocketLeave (room : Room)
| SocketJoin (room : Room)
| UpdateClient (user : string)
| MapUpdateClient (user : string)
| LogDebug (message : string)
| LogError (message : string).

(** Events that address a room or change the socket's room. *)
Definition is_room_event (e : Event) : bool :=
  match e with
  | EventToRoom _ _ _ _ | LeftGrid _ _ | JoinedGrid _ _ _
  | SocketLeave _ | SocketJoin _ => true
  | _ => false
  end.

(** The axis of a move request ([moveAction.grid]). *)
Inductive Grid := GridX | GridY.

Record MoveAction := mkMove {
  grid : Grid;
  direction : Z
}.

(** [newLocation[moveAction.grid] = newLocation[moveAction.grid] + moveAction.direction] *)
Definition destination (l : Location) (m : MoveAction) : Location :=
  match grid m with
  | GridX => mkLocation (map l) (x l + direction m) (y l)
  | GridY => mkLocation (map l) (x l) (y l + direction m)
  end.

Definition direction_names (m : MoveAction) : string * string :=
  match grid m with
  | GridY => if direction m =? 1 then ("South", "North") else ("North", "South")
  | GridX => if direction m =? 1 then ("East", "West") else ("West", "East")
  end.

Section WithGame.

(** [Game.config.game.playerCooldowns] *)
Variable playerCooldowns : string -> option Z.

(** [Game.mapManager.isValidLocation(map, x, y)] (map/manager.js is not
    part of the sources): the location the promise resolves with, [None]
    when it rejects. *)
Variable isValidLocation : string -> Z -> Z -> option Location.

(** [move(socket, moveAction)], run to completion.  [user] is
    [socket.user.user_id].  The cooldown that [add] pushed is the last
    entry of the list when [start] is called on it.  In the accepted
    branch the expression [.catch(Game.logger.error)] names an
    identifier the module does not define; evaluating it throws after
    [releaseTarget()] was called and its continuation registered, and
    the outer [catch] logs the debug line once the continuation has
    run. *)
Definition move (characters : list handle) (s : Store) (user : string)
    (moveAction : MoveAction) : Store * list Event :=
  match getSync characters s user with
  | None =>
      (s, [LogError ("Character " +:+ user
                       +:+ " was not found. It was likely never loaded.")])
  | Some h =>
      let character := s h in
      if negb (length (targetedBy character) =? 0)%nat then
        let list := JS.join ", " (List.map (fun obj => name (s obj)) (targetedBy character)) in
        (s, [EventToSocket user "warning"
               ("You can't move as the following players are aiming at you: " +:+ list)])
      else if hidden character then
        (s, [EventToSocket user "warning"
               "You can't move as long as you are hidden. type /unhide to come out of hiding."])
      else if negb (Cooldown.ticksLeft (cooldowns character) "move" =? 0) then
        (s, [])
      else
        let '(cds, newCooldown) :=
          Cooldown.add playerCooldowns (cooldowns character) "move" None false in
        let s1 := <[h := with_cooldowns cds character]> s in
        let newLocation := destination (location character) moveAction in
        match isValidLocation (map newLocation) (x newLocation) (y newLocation) with
        | None => (s1, [LogDebug ("Invalid move by character " +:+ user)])
        | Some newLocation =>
            let '(directionOut, directionIn) := direction_names moveAction in
            let s2 := releaseTarget s1 h in
            let old := getLocationId (s2 h) in
            let s3 :=
              <[h := updateLocation (map newLocation) (x newLocation) (y newLocation) (s2 h)]> s2 in
            let new := getLocationId (s3 h) in
            let s4 :=
              match newCooldown with
              | Some _ =>
                  <[h := with_cooldowns
                           (alter Cooldown.start (length (cooldowns character))
                                  (cooldowns (s3 h))) (s3 h)]> s3
              | None => s3
              end in
            (s4,
             [SocketLeave old;
              EventToRoom old "info"
                (name character +:+ " leaves to the " +:+ directionOut) [user_id character];
              LeftGrid old (user_id character);
              EventToRoom new "info"
                (name character +:+ " strolls in from the " +:+ directionIn) [user_id character];
              JoinedGrid new (name character) (user_id character);
              SocketJoin new;
              UpdateClient (user_id character);
              MapUpdateClient (user_id character);
              LogDebug ("Invalid move by character " +:+ user)])
        end
  end.

End WithGame.

(** *** Location lists and ranks *)

(** The test of the filter in [getLocationList]: the map and, when both
    co-ordinates are given, the cell. *)
Definition at_location (s : Store) (m : string) (gx gy : option Z) (obj : handle) : bool :=
  match gx, gy with
  | Some gx, Some gy =>
      String.eqb (map (location (s obj))) m
        && (y (location (s obj)) =? gy) && (x (location (s obj)) =? gx)
  | _, _ => String.eqb (map (location (s obj))) m
  end.

(** [getLocationList(map, x, y)]: the characters themselves. *)
Definition getLocationList (characters : list handle) (s : Store)
    (m : string) (gx gy : option Z) : list handle :=
  List.filter (at_location s m gx gy) characters.

(** [getLocationList(map, x, y, ignore, true)]: name and user id of those
    that are neither the ignored user nor hidden. *)
Definition getLocationList_toClient (characters : list handle) (s : Store)
    (m : string) (gx gy : option Z) (ignore : option string) : list (string * string) :=
  List.map (fun character => (name (s character), user_id (s character)))
    (List.filter
       (fun obj =>
          negb (match ignore with
                | Some i => String.eqb (user_id (s obj)) i
                | None => false
                end)
            && negb (hidden (s obj)))
       (getLocationList characters s m gx gy)).

(** An entry of data/levels.json (the file is not part of the sources):
    the experience a rank starts at, and its name. *)
Record Level := mkLevel {
  level_exp : Z;
  level_name : string
}.

(** The loop of [getRank] at index [i] with [n] rounds to go.  [Levels[-1]]
    is [undefined], and reading its [name] throws. *)
Fixpoint getRank_loop (Levels : list Level) (exp : Z) (i n : nat)
    : Outcome (option string) :=
  match n with
  | O => Returns None
  | S n' =>
      match Levels !! i with
      | Some level =>
          if exp <? level_exp level then
            match i with
            | O => Throws
            | S j =>
                match Levels !! j with
                | Some previous => Returns (Some (level_name previous))
                | None => Throws
                end
            end
          else getRank_loop Levels exp (S i) n'
      | None => Throws
      end
  end.

(** [getRank(exp)] over the list [Levels]; [Returns None] is [undefined]. *)
Definition getRank (Levels : list Level) (exp : Z) : Outcome (option string) :=
  getRank_loop Levels exp 0 (length Levels - 1).

End CharacterManager.

(** ** Command manager *)
Module CommandManager.

(** [parseParameters(paramString)]: the state of the loop is the list of
    finished parameters, [insideString] and the parameter being read. *)
Fixpoint parseParameters_loop (paramString : string)
    (params : list string) (insideString : bool) (param : string) : list string :=
  match paramString with
  | EmptyString =>
      if (String.length param =? 0)%nat then params else params ++ [param]
  | String char rest =>
      if Ascii.eqb char JS.space && negb insideString
      then parseParameters_loop rest (params ++ [param]) insideString EmptyString
      else
        parseParameters_loop rest params
          (if Ascii.eqb char JS.quote then negb insideString else insideString)
          (param +:+ String char EmptyString)
  end.

Definition parseParameters (paramString : string) : list string :=
  parseParameters_loop paramString [] false EmptyString.

(** [stripEncapsulation(param)] *)
Definition stripEncapsulation (param : string) : string :=
  let param :=
    if decide (JS.at_ param 0 = Some JS.quote)
    then JS.substring param 1 (JS.len param - 1)
    else param in
  if decide (JS.at_ param (JS.len param - 1) = Some JS.quote)
  then JS.substring param 0 (JS.len param - 2)
  else param.

(** A message parameter: the token as typed, or what a rule put in its
    place (a number, or an object found in a catalogue or registry). *)
Inductive Value :=
| Str (s : string)
| Num (z : Z)
| Obj (key : string).

(** One entry of a command's [params] list. *)
Record Param := mkParam {
  name : string;
  rules : string
}.

(** What one rule does: carry on with a value, reject with a message, or
    throw. *)
Inductive RuleOutcome :=
| Accept (value : Value)
| RejectWith (message : string)
| Raise.

(** How a [validate] promise ends: resolved with the parameters, rejected
    with a message, or never settled because the executor threw. *)
Inductive Validation :=
| Resolve (msgParams : list Value)
| Reject (message : string)
| Unsettled.

Definition directions : list string :=
  ["north"; "east"; "south"; "west"; "n"; "e"; "s"; "w"].

(** Rules whose outcome is computed outside this model: number parsing
    ([integer], [float], [min], [max]), the regular expression of
    [alphanum], and the look-ups in catalogues and registries. *)
Definition external_rules : list string :=
  ["integer"; "float"; "min"; "max"; "alphanum"; "faction"; "gamemap";
   "shop"; "item"; "player"; "target"; "npc"].

Definition includes (s : string) (l : list string) : bool :=
  existsb (String.eqb s) l.

Definition show_arg (a : option string) : string := default "null" a.

Section WithGame.

(** The outcome of an external rule [rule[0]] with modifier [rule[1]] for
    the parameter [name], the player and the current value. *)
Variable external : string -> option string -> string -> option Character.t ->
                    Value -> RuleOutcome.

(** One pass of the [switch (rule[0])] for the rule text [rule]. *)
Definition apply_rule (player : option Character.t) (param : Param)
    (rule : string) (msgParam : Value) : RuleOutcome :=
  let parts := JS.split ":" rule in
  let rule0 := default EmptyString (head parts) in
  let rule1 := parts !! 1%nat in
  if String.eqb rule0 "required" then Accept msgParam
  else if String.eqb rule0 "minlen" then
    match msgParam, rule1 ≫= JS.parseInt with
    | Str v, Some n =>
        if JS.len v <? n
        then RejectWith (name param +:+ " must be at least " +:+ show_arg rule1
                           +:+ " characters long.")
        else Accept msgParam
    | _, _ => Accept msgParam
    end
  else if String.eqb rule0 "maxlen" then
    match msgParam, rule1 ≫= JS.parseInt with
    | Str v, Some n =>
        if n <? JS.len v
        then RejectWith (name param +:+ " cannot be longer than " +:+ show_arg rule1
                           +:+ " characters.")
        else Accept msgParam
    | _, _ => Accept msgParam
    end
  else if String.eqb rule0 "direction" then
    match msgParam with
    | Str v =>
        if includes (JS.toLowerCase v) directions then Accept msgParam
        else RejectWith (name param +:+ " does not appear to be a valid direction.")
    | _ => Raise
    end
  else if includes rule0 external_rules then
    external rule0 rule1 (name param) player msgParam
  else Accept msgParam.

(** The inner loop over the rules of one parameter. *)
Fixpoint apply_rules (player : option Character.t) (param : Param)
    (rules : list string) (msgParam : Value) : RuleOutcome :=
  match rules with
  | [] => Accept msgParam
  | rule :: rest =>
      match apply_rule player param rule msgParam with
      | Accept value => apply_rules player param rest value
      | other => other
      end
  end.

Definition strip (v : Value) : Value :=
  match v with
  | Str s => Str (stripEncapsulation s)
  | other => other
  end.

Definition falsy (v : Value) : bool :=
  match v with
  | Str s => String.eqb s ""
  | Num z => z =? 0
  | Obj _ => false
  end.

(** The outer loop of [validate], from position [index] on, over the
    parameters [cmdParams] still to visit.  Reading a position the
    message does not have hands [undefined] to [stripEncapsulation],
    which throws. *)
Fixpoint validate_loop (player : option Character.t) (cmdParams : list Param)
    (index : nat) (msgParams : list Value) : Validation :=
  match cmdParams with
  | [] => Resolve msgParams
  | param :: rest =>
      match msgParams !! index with
      | None => Unsettled
      | Some v =>
          let msgParams := <[index := strip v]> msgParams in
          if (String.length (rules param) =? 0)%nat
          then validate_loop player rest (S index) msgParams
          else
            let rules := JS.split "|" (JS.toLowerCase (rules param)) in
            if falsy (strip v) && negb (includes "required" rules)
            then Resolve msgParams                                (* break *)
            else
              match apply_rules player param rules (strip v) with
              | Accept value =>
                  validate_loop player rest (S index) (<[index := value]> msgParams)
              | RejectWith message => Reject message
              | Raise => Unsettled
              end
      end
  end.

(** [validate(player, msgParams, cmdParams)] *)
Definition validate (player : option Character.t) (msgParams : list string)
    (cmdParams : option (list Param)) : Validation :=
  match cmdParams with
  | None => Resolve (Str <$> msgParams)
  | Some cmdParams =>
      let n := Z.of_nat (length cmdParams) in
      let msgParams :=
        JS.slice msgParams 0 (n - 1)
          ++ [JS.join " " (JS.slice_from msgParams (n - 1))] in
      validate_loop player cmdParams 0 (Str <$> msgParams)
  end.

(** A registered command; its handler is known by the call made on it. *)
Record Command := mkCommand {
  params : option (list Param);
  description : string
}.

Record Action := mkAction {
  type : string;
  payload : option string
}.

(** What [onDispatch] does towards the outside: an error event to the
    socket with a text of the game's, an error event whose text is the
    engine's message for a call of something that is no function, and
    the call of a command's handler. *)
Inductive Effect :=
| ErrorToSocket (user : string) (message : string)
| TypeErrorToSocket (user : string)
| Invoke (command : string) (user : string)
         (character : option Character.handle) (validParams : list Value).

(** The lower-case names that every object inherits: [this.commands] is
    an object literal, so [this.commands[command]] is truthy for them
    although nothing was registered; what it gives has no [params] and
    no [method]. *)
Definition inherited_keys : list string := ["constructor"; "__proto__"].

(** The action type of a game command (command/types.js is not part of
    the sources). *)
Variable GAME_COMMAND : string.

(** [onDispatch(socket, action)], run to completion, for a handler
    that returns; [user] is [socket.user.user_id], [commands] the table
    of registered commands (the own properties of [this.commands]; the
    keys that [register] writes start with a slash).  For an inherited
    name validation resolves at once, the call of the missing [method]
    throws, and the [catch] sends the engine's message.  What the
    [catch] does when a handler throws is in [onDispatch_with]. *)
Definition onDispatch (commands : gmap string Command)
    (characters : list Character.handle) (s : Character.Store)
    (user : string) (action : Action) : list Effect :=
  if negb (String.eqb (type action) GAME_COMMAND) then []
  else
    match payload action with
    | None => []
    | Some text =>
        if String.eqb text "" then []
        else
          let payload := JS.trim text in
          match JS.at_ payload 0 with
          | None => []
          | Some _ =>
              match parseParameters payload with
              | [] => []
              | first :: msgParams =>
                  let command := JS.toLowerCase first in
                  match commands !! command with
                  | None =>
                      if includes command inherited_keys
                      then [TypeErrorToSocket user]
                      else
                        [ErrorToSocket user
                           ("Command " +:+ command +:+ " is not a valid command.")]
                  | Some def =>
                      let character := CharacterManager.getSync characters s user in
                      match validate (s <$> character) msgParams (params def) with
                      | Resolve validParams => [Invoke command user character validParams]
                      | Reject error => [ErrorToSocket user error]
                      | Unsettled => []
                      end
                  end
              end
          end
    end.

(** What the call of a command's handler ends in: [None] when it
    returns, [Some text] when it throws an error that prints as [text]
    ([error.toString()]).  The handlers are not part of the sources. *)
Variable method : string -> string -> option Character.handle -> list Value ->
                  option string.

(** [onDispatch(socket, action)], run to completion.  The [catch] is
    chained after the [then] that calls the handler, so it also gets
    what the handler throws, and sends it to the socket. *)
Definition onDispatch_with (commands : gmap string Command)
    (characters : list Character.handle) (s : Character.Store)
    (user : string) (action : Action) : list Effect :=
  flat_map
    (fun e =>
       match e with
       | Invoke command u character validParams =>
           e :: match method command u character validParams with
                | Some error => [ErrorToSocket u error]
                | None => []
                end
       | _ => [e]
       end)
    (onDispatch commands characters s user action).

End WithGame.

(** *** Registering and listing commands *)

(** A command object as a manager's commands.js exports it, with the flag
    [isAlias] that [register] writes (an object not yet registered reads
    as not an alias). *)
Record CommandObject := mkObject {
  command : string;
  aliases : option (list string);
  object_params : option (list Param);
  object_description : option string;
  isAlias : bool
}.

Definition with_isAlias (v : bool) (o : CommandObject) : CommandObject :=
  mkObject (command o) (aliases o) (object_params o) (object_description o) v.

(** The key a name is registered under: [/name], unless the name starts
    with the slash already. *)
Definition commandKey (commandName : string) : string :=
  if decide (JS.at_ commandName 0 = Some "/"%char) then commandName
  else "/" +:+ commandName.

(** [register(commandName, commandObject, isAlias)]: the table afterwards
    and the names the logger was warned about. *)
Definition register (commands : gmap string CommandObject)
    (commandName : string) (commandObject : CommandObject) (isAlias : bool)
    : gmap string CommandObject * list string :=
  let commandName := commandKey commandName in
  match commands !! commandName with
  | Some _ => (commands, [commandName])
  | None => (<[commandName := with_isAlias isAlias commandObject]> commands, [])
  end.

(** [registerManager(commandsList)] *)
Definition registerManager (commands : gmap string CommandObject)
    (commandsList : list CommandObject) : gmap string CommandObject * list string :=
  fold_left
    (fun '(commands, warned) obj =>
       let '(commands, w) := register commands (command obj) obj false in
       fold_left
         (fun '(commands, warned) alias =>
            let '(commands, w) := register commands alias obj true in
            (commands, warned ++ w))
         (default [] (aliases obj)) (commands, warned ++ w))
    commandsList (commands, []).

(** [getList()]: for every key that is not an alias, the description and
    the alias names. *)
Definition getList (commands : gmap string CommandObject)
    : gmap string (string * list string) :=
  (fun c => (default "" (object_description c), default [] (aliases c)))
    <$> filter (fun kc => isAlias kc.2 = false) commands.

(** Entries that are not aliases sit under the key of their own command
    name and are objects of the list [l]. *)
Definition own_name (l : list CommandObject)
    (commands : gmap string CommandObject) : Prop :=
  forall k c, commands !! k = Some c -> isAlias c = false ->
    exists obj, obj ∈ l /\ k = commandKey (command obj) /\ c = with_isAlias false obj.

(** *** Finding a target at a location *)

(** What [findAtLocation] reads of the objects in the two lists: players
    come with [name_lowercase] and [hidden], NPCs with [name] and [type]
    ([None] where an object has no [type]). *)
Record Target := mkTarget {
  target_name : string;
  name_lowercase : string;
  target_type : option string;
  target_hidden : bool
}.

(** [!user.type] *)
Definition no_type (user : Target) : bool :=
  match target_type user with
  | Some t => String.eqb t ""
  | None => true
  end.

(** [`${npc.name} the ${npc.type}`.toLowerCase()] *)
Definition title (npc : Target) : string :=
  JS.toLowerCase
    (target_name npc +:+ " the " +:+ default "undefined" (target_type npc)).

Inductive FindResult :=
| Found (target : Target)
| Message (text : string)
| ReferenceError.

(** The players that [findAtLocation] keeps: those whose name is
    [findName], or else those whose name starts with it; never a hidden
    one. *)
Definition matching_characters (playersAtGrid : list Target) (findName : string)
    (ignorePlayers : bool) : list Target :=
  if ignorePlayers then []
  else
    let characters :=
      List.filter (fun user => String.eqb (name_lowercase user) findName
                                 && negb (target_hidden user)) playersAtGrid in
    if (length characters =? 0)%nat
    then List.filter (fun user => JS.startsWith findName (name_lowercase user)
                                    && negb (target_hidden user)) playersAtGrid
    else characters.

Definition matching_NPCs (NPCsAtGrid : list Target) (findName : string)
    (ignoreNPCs : bool) : list Target :=
  if ignoreNPCs then []
  else List.filter (fun npc => JS.startsWith findName (title npc)) NPCsAtGrid.

(** [matchingTargets.find(...)]: the callback's second branch reads the
    variable [npc], which is not bound there. *)
Fixpoint find_exact (findName : string) (matchingTargets : list Target) : FindResult :=
  match matchingTargets with
  | [] => Message "You must be more specific with who you want to target."
  | user :: rest =>
      if no_type user then
        if String.eqb (name_lowercase user) findName then Found user
        else find_exact findName rest
      else ReferenceError
  end.

(** [findAtLocation(findName, location, ignoreNPCs, ignorePlayers)];
    [playersAtGrid] and [NPCsAtGrid] are the lists the character and NPC
    managers return for the location. *)
Definition findAtLocation (playersAtGrid NPCsAtGrid : list Target)
    (findName : string) (ignoreNPCs ignorePlayers : bool) : FindResult :=
  let characters := matching_characters playersAtGrid findName ignorePlayers in
  let NPCs := matching_NPCs NPCsAtGrid findName ignoreNPCs in
  if (length characters =? 0)%nat && (length NPCs =? 0)%nat
  then Message "There are nobody around with that name."
  else
    let matchingTargets := characters ++ NPCs in
    if (1 <? length matchingTargets)%nat
    then find_exact findName matchingTargets
    else
      match matchingTargets with
      | target :: _ => Found target
      | [] => Message "There are nobody around with that name."  (* not reached *)
      end.

End CommandManager.

(** ** Socket manager: the disconnection timers *)

Module SocketManager.

(** The part of the manager that the timers use: [timers] maps a user id
    to the handle of the time-out set for it; [pending] lists the
    time-outs that were set and not cleared, each with the user its
    callback will emit [disconnect] for; [next] is the next handle
    [setTimeout] gives out.  A handle is truthy. *)
Record t := mk {
  timers : gmap string nat;
  pending : list (nat * string);
  next : nat
}.

Inductive Emit :=
| Disconnect (user_id : string).

(** [clearTimer(user_id)] *)
Definition clearTimer (m : t) (user_id : string) : t * bool :=
  match timers m !! user_id with
  | Some id =>
      (mk (delete user_id (timers m))
          (List.filter (fun p => negb (p.1 =? id)%nat) (pending m))
          (next m),
       true)
  | None => (m, false)
  end.

(** [onDisconnect(user, forced)]; [user] is the user id of the object
    passed, [None] for [null]. *)
Definition onDisconnect (m : t) (user : option string) (forced : bool)
    : t * list Emit :=
  match user with
  | None => (m, [])
  | Some user_id =>
      if forced then (m, [Disconnect user_id])
      else
        (mk (<[user_id := next m]> (timers m))
            (pending m ++ [(next m, user_id)])
            (S (next m)),
         [])
  end.

(** Handles given out so far are below [next]. *)
Definition fresh (m : t) : Prop :=
  forall p, p ∈ pending m -> (p.1 < next m)%nat.

End SocketManager.

(** ** Sample data *)
Module Examples.

Definition knife : Item.t :=
  Item.mk "knife" "Knife" "melee" None None 0 (Item.mkStats false true 0 0).

Definition vest : Item.t :=
  Item.mk "vest" "Kevlar Vest" "body" None None 5 (Item.mkStats false true 5 10).

Definition rounds : Item.t :=
  Item.mk "9mm" "9mm Rounds" "ammo" None None 20 (Item.mkStats true true 20 0).

(** A small template catalogue. *)
Definition itemList (id : string) : option Item.t :=
  if String.eqb id "knife" then Some knife
  else if String.eqb id "vest" then Some vest
  else if String.eqb id "9mm" then Some rounds
  else None.

(** A fresh instance of a template, with the given quantity if any. *)
Definition itemManager_add (id : string) (durability : option Z) : Item.t :=
  let template := default knife (itemList id) in
  match durability with
  | Some d => Item.with_stats_durability d template
  | None => template
  end.

Definition newcomer (user_id name : string) : Character.t :=
  Character.mk user_id name (Character.mkLocation "london" 1 1)
    (Character.mkStats 100 100 0 200 0 30) [] [] None [] false.

Definition alice : Character.t := newcomer "1001" "Alice".
Definition bob : Character.t := newcomer "1002" "Bob".

(** Alice wearing the vest. *)
Definition alice_armored : Character.t :=
  Character.with_inventory [Item.with_equipped_slot (Some "armor") vest] alice.

(** Alice with room for one item, which she already carries. *)
Definition alice_full : Character.t :=
  Character.mk "1001" "Alice" (Character.mkLocation "london" 1 1)
    (Character.mkStats 100 100 0 200 0 1) [knife] [] None [] false.

(** Alice carrying a knife. *)
Definition alice_knife : Character.t :=
  Character.with_inventory [knife] alice.

Definition carol : Character.t := newcomer "1003" "Carol".

(** Three characters: handle 0 is Alice, handle 1 Bob, every other handle
    Carol. *)
Definition trio : Character.Store :=
  fun h => match h with O => alice | S O => bob | _ => carol end.

(** Alice carrying two knives, none of them in use. *)
Definition alice_two_knives : Character.t :=
  Character.with_inventory [knife; knife] alice.

(** Alice carrying two knives, the first of them in use. *)
Definition alice_knife_in_hand : Character.t :=
  Character.with_inventory
    [Item.with_equipped_slot (Some "melee") knife; knife] alice.

(** Two live characters: handle 0 is Alice, every other handle Bob. *)
Definition registry : list Character.handle := [0%nat; 1%nat].

Definition store : Character.Store :=
  fun h => match h with O => alice | _ => bob end.

(** No external rule is in play: every such rule lets the value through. *)
Definition external (rule0 : string) (rule1 : option string) (name : string)
    (player : option Character.t) (v : CommandManager.Value)
    : CommandManager.RuleOutcome :=
  CommandManager.Accept v.

(** A command with an optional first parameter and a direction. *)
Definition walk_params : list CommandManager.Param :=
  [CommandManager.mkParam "Pace" "minlen:2"; CommandManager.mkParam "Direction" "direction"].

(** The token made of two double quotes. *)
Definition empty_quoted : string := String JS.quote (String JS.quote "").

(** Command objects of a manager: [say] with the alias [s], and a second
    command that claims the name [/s] for itself. *)
Definition say : CommandManager.CommandObject :=
  CommandManager.mkObject "/say" (Some ["s"]) None (Some "Speak to the room") false.

Definition shout : CommandManager.CommandObject :=
  CommandManager.mkObject "s" None None None false.

(** Two guards and a hidden player at one location. *)
Definition guard : CommandManager.Target :=
  CommandManager.mkTarget "Guard" "" (Some "police") false.

Definition lurker : CommandManager.Target :=
  CommandManager.mkTarget "Lurker" "lurker" None true.

Definition commands : gmap string CommandManager.Command :=
  {[ "/help" := CommandManager.mkCommand None "Lists the commands";
     "/walk" := CommandManager.mkCommand (Some walk_params) "Walk somewhere" ]}.

Definition playerCooldowns (action : string) : option Z :=
  if String.eqb action "move" then Some 2 else None.

(** A map with the single row y = 1 and the cells x = 0 .. 2. *)
Definition isValidLocation (map : string) (x y : Z) : option Character.Location :=
  if String.eqb map "london" && (y =? 1) && (0 <=? x) && (x <=? 2)
  then Some (Character.mkLocation map x y) else None.

End Examples.



(** ** The specification's wording, for comparison with the code *)
Module Spec.

(** What the specification says [dealDamage] reports for a character with
    [health] hit for [amount], whose armour in use (equipped and not
    ignored), if any, has the given rating and durability:
    blocked = min(amount, rating, durability), otherwise 0;
    dealt = max(0, amount - blocked); health = max(0, health - dealt);
    the durability goes down by the full amount; the armour is ruined
    exactly when a positive durability reached 0. *)
Definition dealDamage (health amount : Z) (armor : option (Z * Z))
    : Character.DamageReport :=
  let blocked :=
    match armor with
    | Some (rating, durability) => Z.min amount (Z.min rating durability)
    | None => 0
    end in
  let dealt := Z.max 0 (amount - blocked) in
  let durability := match armor with Some (_, d) => d | None => 0 end in
  let durabilityLeft := Z.max 0 (durability - amount) in
  Character.mkReport blocked dealt (Z.max 0 (health - dealt)) durabilityLeft
    ((0 <? durability) && (durabilityLeft =? 0)).

(** The armour in use: the item equipped in the armor slot, unless armour
    is ignored; its position, rating and durability. *)
Definition armorInUse (c : Character.t) (ignoreArmor : bool)
    : option (nat * Item.t) :=
  if ignoreArmor then None else Character.getEquippedSync c "armor".

Definition rating_durability (a : option (nat * Item.t)) : option (Z * Z) :=
  match a with
  | Some (_, it) => Some (Item.damage_reduction (Item.stats it), Item.durability it)
  | None => None
  end.

(** What the specification says the reaper leaves: the entries not flagged
    for removal. *)
Definition cleanup (cooldowns : list Cooldown.t) : list Cooldown.t :=
  List.filter (fun obj => negb (Cooldown.remove obj)) cooldowns.

End Spec.
(* ================================================================== *)
(** * Properties *)


Section StringFacts.

Lemma substring_app_prefix (a b : string) :
  String.substring 0 (String.length a) (a +:+ b) = a.
Proof. induction a as [|c a IH]; simpl; [by destruct b | by rewrite IH]. Qed.

Lemma string_length_app (a b : string) :
  String.length (a +:+ b) = (String.length a + String.length b)%nat.
Proof. induction a; simpl; auto. Qed.

Lemma get_app_r (a b : string) (n : nat) :
  String.get (String.length a + n) (a +:+ b) = String.get n b.
Proof. induction a; simpl; auto. Qed.

Lemma get_includes (c : ascii) (s : string) (n : nat) :
  JS.includes_char c s = false -> String.get n s <> Some c.
Proof.
  revert n. induction s as [|d s IH]; intros n H; simpl in *; [done|].
  destruct (Ascii.eqb_spec d c) as [->|Hne]; [done|].
  destruct n; [congruence | by apply IH].
Qed.

Lemma split_last_two (s : string) :
  (2 <= String.length s)%nat ->
  exists body c d, s = body +:+ String c (String d "").
Proof.
  induction s as [|a s IH]; simpl; [lia|]. intros Hlen.
  destruct s as [|b s]; [simpl in Hlen; lia|].
  destruct s as [|e s].
  - by exists "", a, b.
  - destruct IH as (body & c & d & Heq); [simpl; lia|].
    exists (String a body), c, d. simpl. by rewrite Heq.
Qed.

End StringFacts.

(** C10: a token wrapped in one pair of double quotes is returned with both
    quotes removed and its interior untouched; a token that ends with a
    double quote but does not start with one loses its final two characters. *)
Theorem C10_stripEncapsulation :
  (forall interior : string,
      JS.includes_char JS.quote interior = false ->
      CommandManager.stripEncapsulation
        (String JS.quote (interior +:+ String JS.quote "")) = interior)
  /\ (forall tok : string,
      JS.at_ tok (JS.len tok - 1) = Some JS.quote ->
      JS.at_ tok 0 <> Some JS.quote ->
      exists c, tok = CommandManager.stripEncapsulation tok
                        +:+ String c (String JS.quote "")).
Proof.
  split.
  - intros interior Hq. unfold CommandManager.stripEncapsulation.
    assert (Hsub : JS.substring (String JS.quote (interior +:+ String JS.quote ""))
                     1 (JS.len (String JS.quote (interior +:+ String JS.quote "")) - 1)
                   = interior).
    { unfold JS.substring, JS.len, JS.clamp. simpl String.length.
      rewrite string_length_app. simpl String.length.
      replace (Z.to_nat _) with 1%nat by lia.
      match goal with |- String.substring 1 ?k _ = _ =>
        replace k with (String.length interior) by lia end.
      simpl. apply substring_app_prefix. }
    destruct (decide (JS.at_ (String JS.quote _) 0 = _)) as [_|Hn];
      [|by destruct Hn].
    rewrite Hsub. destruct (decide _) as [Hlast|_]; [|done].
    exfalso. revert Hlast. unfold JS.at_.
    destruct (_ <? 0); [done|]. by apply get_includes.
  - intros tok Hlast Hfirst. unfold CommandManager.stripEncapsulation.
    destruct (decide (JS.at_ tok 0 = _)) as [|_]; [done|].
    destruct (decide _) as [_|]; [|done].
    assert (Hlen : (2 <= String.length tok)%nat).
    { unfold JS.at_, JS.len in *. destruct tok as [|a [|b tok]]; simpl in *.
      - done.
      - exfalso. apply Hfirst. exact Hlast.
      - lia. }
    destruct (split_last_two tok Hlen) as (body & c & d & ->).
    exists c.
    assert (d = JS.quote) as ->.
    { unfold JS.at_, JS.len in Hlast. rewrite string_length_app in Hlast. simpl in Hlast.
      destruct (_ <? 0) eqn:E; [done|].
      replace (Z.to_nat _) with (String.length body + 1)%nat in Hlast by lia.
      rewrite get_app_r in Hlast. simpl in Hlast. congruence. }
    f_equal. unfold JS.substring, JS.len, JS.clamp. rewrite string_length_app. simpl String.length.
    replace (Z.to_nat (Z.min _ _)) with 0%nat by lia.
    match goal with |- _ = String.substring 0 ?k _ =>
      replace k with (String.length body) by lia end.
    by rewrite substring_app_prefix.
Qed.

Lemma C10_stripEncapsulation_witness :
  CommandManager.stripEncapsulation (String JS.quote ("go north" +:+ String JS.quote "")) = "go north"
  /\ exists c, String "a" (String "b" (String "c" (String JS.quote "")))
               = CommandManager.stripEncapsulation
                   (String "a" (String "b" (String "c" (String JS.quote ""))))
                 +:+ String c (String JS.quote "").
Proof.
  destruct C10_stripEncapsulation as [H1 H2]. split.
  - apply H1. reflexivity.
  - apply H2; [reflexivity | discriminate].
Defined.

(** ** Targeting *)
Section Gridlock.
Import Character.

Lemma delete_elem_of_NoDup {A} (l : list A) (i : nat) (a x : A) :
  NoDup l -> l !! i = Some a -> x ∈ delete i l <-> x ∈ l /\ x <> a.
Proof.
  intros Hnd Hi. rewrite delete_take_drop.
  pose proof (take_drop_middle l i a Hi) as Hl.
  assert (Hmem : x ∈ l <-> x ∈ take i l ++ a :: drop (S i) l) by (by rewrite Hl).
  rewrite <- Hl in Hnd. rewrite Hmem. clear Hmem Hl.
  apply NoDup_app in Hnd as (_ & Hdisj & [Hnotin _]%NoDup_cons).
  rewrite !elem_of_app, elem_of_cons. split.
  - intros [H|H]; (split; [tauto|]); intros ->.
    + apply (Hdisj a H). left.
    + done.
  - tauto.
Qed.

Lemma gridRelease_other s tgt uid h :
  h <> tgt -> gridRelease s tgt uid h = s h.
Proof.
  intros Hne. unfold gridRelease.
  destruct (list_find _ _) as [[i x]|]; [|done].
  by rewrite fn_lookup_insert_ne.
Qed.

Lemma gridRelease_user_id s tgt uid h :
  user_id (gridRelease s tgt uid h) = user_id (s h).
Proof.
  unfold gridRelease. destruct (list_find _ _) as [[i x]|]; [|done].
  destruct (decide (tgt = h)) as [->|Hne].
  - by rewrite fn_lookup_insert.
  - by rewrite fn_lookup_insert_ne.
Qed.

Lemma gridRelease_target s tgt uid h :
  target (gridRelease s tgt uid h) = target (s h).
Proof.
  unfold gridRelease. destruct (list_find _ _) as [[i x]|]; [|done].
  destruct (decide (tgt = h)) as [->|Hne].
  - by rewrite fn_lookup_insert.
  - by rewrite fn_lookup_insert_ne.
Qed.

(** With user ids identifying the members of [tgt]'s array, and no member
    twice, [gridRelease] removes exactly the caller. *)
Lemma gridRelease_elem_of s tgt a x :
  (forall b, b ∈ targetedBy (s tgt) -> user_id (s b) = user_id (s a) -> b = a) ->
  NoDup (targetedBy (s tgt)) ->
  x ∈ targetedBy (gridRelease s tgt (user_id (s a)) tgt)
  <-> x ∈ targetedBy (s tgt) /\ x <> a.
Proof.
  intros Hid Hnd. unfold gridRelease.
  destruct (list_find _ _) as [[i b]|] eqn:Hfind.
  - rewrite fn_lookup_insert. simpl.
    apply list_find_Some in Hfind as (Hi & Hb & _).
    assert (b = a) as -> by (apply Hid; [by eapply list_elem_of_lookup_2|done]).
    by apply delete_elem_of_NoDup.
  - split; [|tauto]. intros Hx. split; [done|]. intros ->.
    eapply list_find_None in Hfind. eapply Forall_forall in Hfind; [|exact Hx].
    by apply Hfind.
Qed.

Lemma gridRelease_NoDup s tgt uid :
  NoDup (targetedBy (s tgt)) -> NoDup (targetedBy (gridRelease s tgt uid tgt)).
Proof.
  intros Hnd. unfold gridRelease.
  destruct (list_find _ _) as [[i b]|]; [|done].
  rewrite fn_lookup_insert. simpl.
  eapply sublist_NoDup; [done|apply sublist_delete].
Qed.

Lemma releaseTarget_user_id s a h :
  user_id (releaseTarget s a h) = user_id (s h).
Proof.
  unfold releaseTarget.
  destruct (decide (a = h)) as [->|Hne];
    [rewrite fn_lookup_insert|rewrite fn_lookup_insert_ne by done];
    simpl; destruct (target (s _)); by rewrite ?gridRelease_user_id.
Qed.

Lemma releaseTarget_target_self s a : target (releaseTarget s a a) = None.
Proof. unfold releaseTarget. by rewrite fn_lookup_insert. Qed.

Lemma releaseTarget_target_other s a h :
  h <> a -> target (releaseTarget s a h) = target (s h).
Proof.
  intros Hne. unfold releaseTarget. rewrite fn_lookup_insert_ne by done.
  destruct (target (s a)); by rewrite ?gridRelease_target.
Qed.

Lemma releaseTarget_targetedBy s a h :
  targetedBy (releaseTarget s a h)
  = targetedBy (match target (s a) with
                | Some tgt => gridRelease s tgt (user_id (s a)) h
                | None => s h
                end).
Proof.
  unfold releaseTarget.
  destruct (decide (a = h)) as [->|Hne];
    [rewrite fn_lookup_insert|rewrite fn_lookup_insert_ne by done];
    simpl; by destruct (target (s _)).
Qed.

(** After [releaseTarget], the caller is in no live character's array,
    and the arrays are otherwise as before. *)
Lemma releaseTarget_elem_of registry s a c x :
  gridlock_inv registry s -> a ∈ registry -> c ∈ registry ->
  x ∈ targetedBy (releaseTarget s a c) <-> x ∈ targetedBy (s c) /\ x <> a.
Proof.
  intros Hinv Ha Hc. rewrite releaseTarget_targetedBy.
  destruct (target (s a)) as [tgt|] eqn:Htgt.
  - destruct (decide (c = tgt)) as [->|Hne].
    + apply gridRelease_elem_of; [|by eapply inv_nodup].
      intros b Hb Hid. eapply inv_ids; eauto. by eapply inv_live.
    + rewrite gridRelease_other by done. split; [|tauto].
      intros Hx. split; [done|]. intros ->.
      pose proof (inv_outbound _ _ Hinv c a Hc Hx). congruence.
  - split; [|tauto]. intros Hx. split; [done|]. intros ->.
    pose proof (inv_outbound _ _ Hinv c a Hc Hx). congruence.
Qed.

Lemma releaseTarget_NoDup registry s a c :
  gridlock_inv registry s -> c ∈ registry ->
  NoDup (targetedBy (releaseTarget s a c)).
Proof.
  intros Hinv Hc. rewrite releaseTarget_targetedBy.
  pose proof (inv_nodup _ _ Hinv c Hc) as Hnd.
  destruct (target (s a)) as [tgt|]; [|done].
  destruct (decide (c = tgt)) as [->|Hne].
  - by apply gridRelease_NoDup.
  - by rewrite gridRelease_other.
Qed.

Lemma releaseTarget_inv registry s a :
  gridlock_inv registry s -> a ∈ registry ->
  gridlock_inv registry (releaseTarget s a).
Proof.
  intros Hinv Ha. split.
  - intros x y Hx Hy. rewrite !releaseTarget_user_id. by eapply inv_ids.
  - intros c x Hc Hx%(releaseTarget_elem_of registry); [|done..].
    eapply inv_live; [done| |apply Hx]. done.
  - intros c Hc. by eapply releaseTarget_NoDup.
  - intros c x Hc Hx%(releaseTarget_elem_of registry); [|done..].
    destruct Hx as [Hx Hne]. rewrite releaseTarget_target_other by done.
    by eapply inv_outbound.
Qed.

Lemma gridLock_user_id s self ch h :
  user_id (gridLock s self ch h) = user_id (s h).
Proof.
  unfold gridLock. destruct (list_find _ _); [done|].
  destruct (decide (self = h)) as [->|Hne].
  - by rewrite fn_lookup_insert.
  - by rewrite fn_lookup_insert_ne.
Qed.

Lemma gridLock_target s self ch h :
  target (gridLock s self ch h) = target (s h).
Proof.
  unfold gridLock. destruct (list_find _ _); [done|].
  destruct (decide (self = h)) as [->|Hne].
  - by rewrite fn_lookup_insert.
  - by rewrite fn_lookup_insert_ne.
Qed.

Lemma gridLock_other s self ch h :
  h <> self -> gridLock s self ch h = s h.
Proof.
  intros Hne. unfold gridLock. destruct (list_find _ _); [done|].
  by rewrite fn_lookup_insert_ne.
Qed.

(** When no member of the array carries the caller's user id, [gridLock]
    appends the caller. *)
Lemma gridLock_fresh s self ch :
  (forall x, x ∈ targetedBy (s self) -> user_id (s x) <> user_id (s ch)) ->
  targetedBy (gridLock s self ch self) = targetedBy (s self) ++ [ch].
Proof.
  intros Hfresh. unfold gridLock.
  destruct (list_find _ _) as [[i x]|] eqn:Hfind.
  - apply list_find_Some in Hfind as (Hi & Hx & _).
    destruct (Hfresh x); [by eapply list_elem_of_lookup_2|done].
  - by rewrite fn_lookup_insert.
Qed.

Lemma assignTarget_user_id s a b h :
  user_id (assignTarget s a b h) = user_id (s h).
Proof.
  unfold assignTarget. destruct (decide (a = h)) as [->|Hne].
  - by rewrite fn_lookup_insert.
  - by rewrite fn_lookup_insert_ne.
Qed.

Lemma assignTarget_targetedBy s a b h :
  targetedBy (assignTarget s a b h) = targetedBy (s h).
Proof.
  unfold assignTarget. destruct (decide (a = h)) as [->|Hne].
  - by rewrite fn_lookup_insert.
  - by rewrite fn_lookup_insert_ne.
Qed.

Lemma setTarget_target_self s a b : target (setTarget s a b a) = Some b.
Proof.
  unfold setTarget, setTarget_then, assignTarget. rewrite gridLock_target. by rewrite fn_lookup_insert.
Qed.

Lemma setTarget_target_other s a b h :
  h <> a -> target (setTarget s a b h) = target (s h).
Proof.
  intros Hne. unfold setTarget, setTarget_then, assignTarget. rewrite gridLock_target.
  rewrite fn_lookup_insert_ne by done. by apply releaseTarget_target_other.
Qed.

Lemma setTarget_user_id s a b h : user_id (setTarget s a b h) = user_id (s h).
Proof.
  unfold setTarget, setTarget_then. rewrite gridLock_user_id, assignTarget_user_id.
  apply releaseTarget_user_id.
Qed.

Lemma setTarget_targetedBy registry s a b c :
  gridlock_inv registry s -> a ∈ registry -> b ∈ registry -> c ∈ registry ->
  targetedBy (setTarget s a b c)
  = if decide (c = b) then targetedBy (releaseTarget s a b) ++ [a]
    else targetedBy (releaseTarget s a c).
Proof.
  intros Hinv Ha Hb Hc. unfold setTarget, setTarget_then. cbv zeta.
  destruct (decide (c = b)) as [->|Hne].
  - rewrite gridLock_fresh; [by rewrite assignTarget_targetedBy|].
    intros x.
    rewrite assignTarget_targetedBy, !assignTarget_user_id, !releaseTarget_user_id.
    intros [Hx Hxa]%(releaseTarget_elem_of registry) Hid; [|done..].
    apply Hxa. eapply inv_ids; eauto. by eapply inv_live.
  - rewrite gridLock_other by done. apply assignTarget_targetedBy.
Qed.

Lemma setTarget_inv registry s a b :
  gridlock_inv registry s -> a ∈ registry -> b ∈ registry ->
  gridlock_inv registry (setTarget s a b).
Proof.
  intros Hinv Ha Hb.
  assert (Hmem : forall c x, c ∈ registry -> x ∈ targetedBy (setTarget s a b c) ->
            (x = a /\ c = b) \/ (x <> a /\ x ∈ targetedBy (s c))).
  { intros c x Hc. rewrite (setTarget_targetedBy registry) by done.
    destruct (decide (c = b)) as [->|Hne].
    - rewrite elem_of_app, list_elem_of_singleton.
      intros [[Hx Hxa]%(releaseTarget_elem_of registry)| ->]; [|done..|]; tauto.
    - intros [Hx Hxa]%(releaseTarget_elem_of registry); [|done..]. tauto. }
  split.
  - intros x y Hx Hy. rewrite !setTarget_user_id. by eapply inv_ids.
  - intros c x Hc [[-> _]|[_ Hx]]%Hmem; [done| |done]. by eapply inv_live.
  - intros c Hc. rewrite (setTarget_targetedBy registry) by done.
    destruct (decide (c = b)) as [->|Hne]; [|by eapply releaseTarget_NoDup].
    apply NoDup_app. split; [by eapply releaseTarget_NoDup|].
    split; [|apply NoDup_singleton].
    intros x [_ Hxa]%(releaseTarget_elem_of registry) ->%list_elem_of_singleton;
      done.
  - intros c x Hc [[-> ->]|[Hxa Hx]]%Hmem; [| |done].
    + apply setTarget_target_self.
    + rewrite setTarget_target_other by done. by eapply inv_outbound.
Qed.

(** A registry of characters with distinct user ids, none of them
    targeted, satisfies the invariant. *)
Lemma gridlock_inv_fresh registry s :
  (forall a b, a ∈ registry -> b ∈ registry ->
     user_id (s a) = user_id (s b) -> a = b) ->
  (forall c, c ∈ registry -> targetedBy (s c) = []) ->
  gridlock_inv registry s.
Proof.
  intros Hids Hfresh. split; [done|..].
  - intros c a Hc. rewrite Hfresh by done. by intros ?%elem_of_nil.
  - intros c Hc. rewrite Hfresh by done. constructor.
  - intros c a Hc. rewrite Hfresh by done. by intros ?%elem_of_nil.
Qed.

End Gridlock.

(** When the callback of a [setTarget] call runs before any other call is
    made, and the state of the live registry satisfies the targeting
    invariant: once [A.setTarget(B)] has completed A targets B, B's
    [targetedBy] holds A, A is in no other live character's [targetedBy]
    and the invariant holds again; once [A.releaseTarget()] has completed
    A has no target, no live character has A in its [targetedBy], and the
    invariant holds again. *)
Lemma setTarget_releaseTarget_alone
    (registry : list Character.handle) (s : Character.Store)
    (a b : Character.handle) :
  Character.gridlock_inv registry s -> a ∈ registry -> b ∈ registry ->
  (let s' := Character.setTarget s a b in
   Character.target (s' a) = Some b
   /\ a ∈ Character.targetedBy (s' b)
   /\ Character.isTargetedBy s' b (Character.user_id (s' a)) = true
   /\ (forall c, c ∈ registry -> a ∈ Character.targetedBy (s' c) -> c = b)
   /\ Character.gridlock_inv registry s')
  /\ (let s' := Character.releaseTarget s a in
      Character.target (s' a) = None
      /\ (Character.target (s a) = Some b -> a ∉ Character.targetedBy (s' b))
      /\ (forall c, c ∈ registry -> a ∉ Character.targetedBy (s' c))
      /\ Character.gridlock_inv registry s').
Proof.
  intros Hinv Ha Hb.
  assert (Hrel : forall c, c ∈ registry ->
            a ∉ Character.targetedBy (Character.releaseTarget s a c)).
  { intros c Hc [_ Hne]%(releaseTarget_elem_of registry); done. }
  pose proof (setTarget_inv registry s a b Hinv Ha Hb) as Hinv'.
  assert (Hab : a ∈ Character.targetedBy (Character.setTarget s a b b)).
  { rewrite (setTarget_targetedBy registry) by done.
    rewrite decide_True by done. apply elem_of_app. right. left. }
  split; simpl.
  - split; [apply setTarget_target_self|].
    split; [done|]. split; [|split; [|done]].
    + unfold Character.isTargetedBy.
      destruct (list_find _ _) as [|] eqn:Hfind; [done|].
      eapply list_find_None, Forall_forall in Hfind; [|exact Hab]. done.
    + intros c Hc Hin.
      pose proof (Character.inv_outbound _ _ Hinv' c a Hc Hin) as Ht.
      rewrite setTarget_target_self in Ht. congruence.
  - split; [apply releaseTarget_target_self|].
    split; [intros _; by apply Hrel|].
    split; [done|]. by apply releaseTarget_inv.
Qed.


(** C1 fails on the code: [setTarget] runs [releaseTarget()] with the call
    but assigns the target and gridlocks it in a promise callback.  When
    Alice calls [setTarget(bob)] and [setTarget(carol)] before the callbacks
    run, both releases find no target, and afterwards Alice targets Carol
    while both Bob and Carol have her in [targetedBy]: Bob stays gridlocked
    by a character that aims at somebody else.  The same two calls, each
    with its callback run before the next call, leave Bob free. *)
Lemma C1_setTarget_calls_overlap :
  let together := Character.setTarget_turn Examples.trio [(0, 1); (0, 2)]%nat in
  let apart :=
    Character.setTarget (Character.setTarget Examples.trio 0%nat 1%nat) 0%nat 2%nat in
  (Character.target (together 0%nat) = Some 2%nat
   /\ Character.targetedBy (together 1%nat) = [0%nat]
   /\ Character.targetedBy (together 2%nat) = [0%nat]
   /\ Character.isTargetedBy together 1%nat "1001" = true)
  /\ (Character.target (apart 0%nat) = Some 2%nat
      /\ Character.targetedBy (apart 1%nat) = []
      /\ Character.targetedBy (apart 2%nat) = [0%nat]).
Proof. vm_compute. repeat split. Qed.

(** ** Inventory *)
Section InventoryFacts.
Import Character.

Variable itemManager_add : string -> option Z -> Item.t.
Variable itemList : string -> option Item.t.

Lemma length_delete_le {A} (l : list A) (i : nat) :
  (length (delete i l) <= length l)%nat.
Proof. apply sublist_length, sublist_delete. Qed.

(** A call with amount 1 never calls [giveItem] again. *)
Lemma giveItem_one fuel c it :
  giveItem itemManager_add (S fuel) c it 1
  = Some (with_inventory
            (if Item.stackable (Item.stats it)
             then match list_find (fun obj => Item.id obj = Item.id it) (inventory c) with
                  | Some (j, _) => alter (Item.addDurability 1) j (inventory c)
                  | None => inventory c ++ [Item.setDurability 1 it]
                  end
             else inventory c ++ [it]) c).
Proof.
  simpl. destruct (Item.stackable _); [|done].
  by destruct (list_find _ _) as [[j x]|].
Qed.

(** The loop of [giveItem] over further instances of a non-stackable item. *)
Lemma giveItem_loop fuel n c it :
  Item.stackable (Item.stats it) = false ->
  Nat.iter n
    (fun acc => match acc with
                | Some c' => giveItem itemManager_add (S fuel) c' it 1
                | None => None
                end) (Some c)
  = Some (with_inventory (inventory c ++ replicate n it) c).
Proof.
  intros Hns. induction n as [|n IH].
  - simpl. rewrite app_nil_r. by destruct c.
  - rewrite Nat.iter_succ, IH. cbv beta iota. rewrite giveItem_one, Hns. simpl.
    by rewrite <- app_assoc, <- replicate_S_end.
Qed.

Lemma giveItem_unfold fuel c itemObj amount :
  giveItem itemManager_add (S fuel) c itemObj amount
  = if Item.stackable (Item.stats itemObj) then
      let amount :=
        if amount =? 0 then Item.stats_durability (Item.stats itemObj)
        else amount in
      match list_find (fun obj => Item.id obj = Item.id itemObj) (inventory c) with
      | Some (j, _) =>
          Some (with_inventory (alter (Item.addDurability amount) j (inventory c)) c)
      | None =>
          Some (with_inventory (inventory c ++ [Item.setDurability amount itemObj]) c)
      end
    else
      let c1 := with_inventory (inventory c ++ [itemObj]) c in
      if amount =? 0 then Some c1
      else
        Nat.iter (Z.to_nat (amount - 1))
          (fun acc =>
             match acc with
             | Some c' => giveItem itemManager_add fuel c'
                            (itemManager_add (Item.id itemObj) None) 1
             | None => None
             end)
          (Some c1).
Proof. reflexivity. Qed.

(** Two levels of calls are all [giveItem] ever needs. *)
Lemma giveItem_total fuel c it amount :
  is_Some (giveItem itemManager_add (S (S fuel)) c it amount).
Proof.
  rewrite giveItem_unfold. destruct (Item.stackable (Item.stats it)).
  - by destruct (list_find _ _) as [[j x]|].
  - destruct (amount =? 0); [done|].
    cbv zeta. generalize (with_inventory (inventory c ++ [it]) c). intros c1.
    induction (Z.to_nat (amount - 1)) as [|n [c' IH]]; [done|].
    rewrite Nat.iter_succ, IH. cbv beta iota. by rewrite giveItem_one.
Qed.

Lemma giveItem_length fuel c it amount c' :
  giveItem itemManager_add fuel c it amount = Some c' ->
  stats c' = stats c
  /\ (length (inventory c') <= length (inventory c) + Inventory.growth c it amount)%nat.
Proof.
  revert c it amount c'. induction fuel as [|fuel IH]; [done|].
  intros c it amount c'. cbn [giveItem]. unfold Inventory.growth.
  destruct (Item.stackable (Item.stats it)).
  - destruct (list_find _ _) as [[j x]|]; intros [= <-]; simpl.
    + rewrite length_alter. split; [done|lia].
    + rewrite length_app. simpl. split; [done|lia].
  - destruct (Z.eqb_spec amount 0) as [->|Hne].
    + intros [= <-]. simpl. rewrite length_app. simpl. split; [done|lia].
    + assert (Hloop : forall n c1 c2,
        Nat.iter n
          (fun acc => match acc with
                      | Some c' => giveItem itemManager_add fuel c'
                                     (itemManager_add (Item.id it) None) 1
                      | None => None
                      end) (Some c1) = Some c2 ->
        stats c2 = stats c1
        /\ (length (inventory c2) <= length (inventory c1) + n)%nat).
      { induction n as [|n IHn]; intros c1 c2.
        - intros [= <-]. split; [done|lia].
        - rewrite Nat.iter_succ.
          destruct (Nat.iter n _ _) as [cm|] eqn:Hm; [|done].
          intros Hstep. destruct (IHn c1 cm Hm) as [Hs Hl].
          apply IH in Hstep as [Hs' Hl']. split; [congruence|].
          assert (Inventory.growth cm (itemManager_add (Item.id it) None) 1 <= 1)%nat.
          { unfold Inventory.growth. destruct (Item.stackable _); [|done].
            destruct (list_find _ _); lia. }
          lia. }
      intros [Hs Hl]%Hloop. simpl in *. rewrite length_app in Hl. simpl in Hl.
      split; [done|lia].
Qed.

Lemma equip_length c i :
  stats (equip c i).1 = stats c
  /\ length (inventory (equip c i).1) = length (inventory c).
Proof.
  unfold equip, equip_call. destruct (index _ _) as [item|]; [|done].
  destruct (negb _); [done|]. destruct (slot_of_subtype _) as [sl|]; [|done].
  destruct (getEquippedSync c sl) as [[j x]|]; simpl; by rewrite ?length_alter.
Qed.

Lemma unEquip_length c slot :
  stats (unEquip c slot).1 = stats c
  /\ length (inventory (unEquip c slot).1) = length (inventory c).
Proof.
  unfold unEquip, unEquip_call. destruct (negb _); [done|].
  destruct (getEquippedSync _ _) as [[j x]|]; [|done].
  simpl. by rewrite length_alter.
Qed.

Lemma dropItem_length c item amount isFleeing rnd c' r calls :
  dropItem itemManager_add c item amount isFleeing rnd = Returns (c', r, calls) ->
  stats c' = stats c
  /\ (length (inventory c') <= length (inventory c))%nat.
Proof.
  unfold dropItem. cbv zeta.
  match goal with |- context [(?i =? -1)] => generalize i; intros idx end.
  destruct (_ =? -1); [by intros [= <- _ _]|].
  destruct (index (inventory c) idx) as [it|]; [|done].
  match goal with |- context [let '(_, _) := ?p in _] =>
    assert (Hp : stats p.1 = stats c
                 /\ length (inventory p.1) = length (inventory c));
      [|destruct p as [c1 calls1]] end.
  { destruct (_ && _); [apply unEquip_length|done]. }
  simpl in Hp. destruct Hp as [Hs Hl].
  pose proof (length_delete_le (inventory c1) (Z.to_nat idx)).
  repeat case_match; intros ?; simplify_eq; simpl;
    unfold splice1; rewrite ?length_alter; split; (congruence || lia).
Qed.

Lemma takeItem_length c i amount c' r :
  takeItem itemList c i amount = Returns (c', r) ->
  stats c' = stats c
  /\ (length (inventory c') <= length (inventory c))%nat.
Proof.
  unfold takeItem, splice1. intros H.
  pose proof (length_delete_le (inventory c) (Z.to_nat i)).
  pose proof (fun f => length_delete_le (alter f (Z.to_nat i) (inventory c)) (Z.to_nat i)) as H'.
  repeat case_match; simplify_eq; simpl; rewrite ?length_alter; split;
    try done; try lia.
  etrans; [apply H'|]. by rewrite length_alter.
Qed.

End InventoryFacts.

Lemma count_id_alter (f : Item.t -> Item.t) (i : string) (n : nat) (l : list Item.t) :
  (forall x, Item.id (f x) = Item.id x) ->
  Inventory.count_id i (alter f n l) = Inventory.count_id i l.
Proof.
  intros Hf. unfold Inventory.count_id. revert n.
  induction l as [|y l IH]; intros [|n]; try done.
  - change (alter f 0%nat (y :: l)) with (f y :: l).
    rewrite !filter_cons, Hf. by destruct (decide _).
  - change (alter f (S n) (y :: l)) with (y :: alter f n l).
    rewrite !filter_cons. destruct (decide _); simpl; by rewrite IH.
Qed.

(** [dropItem] on an index whose item has no [slot] property and is not
    stackable removes that entry, whatever its [equipped_slot] says and
    whether fleeing or not. *)
Lemma dropItem_by_index add (c : Character.t) (i amount rnd : Z) (it : Item.t)
    (isFleeing : bool) :
  Character.index (Character.inventory c) i = Some it ->
  Item.truthy (Item.slot it) = false ->
  Item.stackable (Item.stats it) = false ->
  Character.dropItem add c (Character.ByIndex i) amount isFleeing rnd
  = Character.Returns
      (Character.with_inventory (delete (Z.to_nat i) (Character.inventory c)) c,
       Some it, []).
Proof.
  intros Hi Hslot Hns. unfold Character.dropItem.
  assert ((i =? -1) = false) as ->.
  { unfold Character.index in Hi. destruct (Z.ltb_spec i 0); [done|lia]. }
  rewrite Hi, Hslot, andb_false_r. simpl. by rewrite Hi, Hns.
Qed.

(** [equip] and [unEquip] never write the [slot] property. *)
Lemma equip_keeps_slot (c : Character.t) (i : Z) :
  Item.slot <$> Character.inventory (Character.equip c i).1
  = Item.slot <$> Character.inventory c.
Proof.
  assert (Halter : forall v n (l : list Item.t),
            Item.slot <$> alter (Item.with_equipped_slot v) n l = Item.slot <$> l).
  { intros v n l. revert n. induction l as [|a l IH]; intros [|n]; try done.
    simpl. f_equal. apply IH. }
  unfold Character.equip, Character.equip_call.
  destruct (Character.index _ _) as [item|]; [|done].
  destruct (negb _); [done|].
  destruct (Character.slot_of_subtype _) as [sl|]; [|done].
  destruct (Character.getEquippedSync c sl) as [[j x]|]; simpl; by rewrite ?Halter.
Qed.

(** C9: giving [n >= 1] of a non-stackable item appends exactly [n] entries,
    the item itself and [n - 1] instances made by the item manager, each of
    which [dropItem] removes on its own; giving a stackable item adds to the
    first entry with the same template id when there is one and appends one
    entry otherwise, so the number of entries with that id becomes
    max(1, old number). *)
Theorem C9_giveItem
    (add : string -> option Z -> Item.t) (fuel : nat)
    (c : Character.t) (itemObj : Item.t) (amount : Z) :
  (2 <= fuel)%nat ->
  (Item.stackable (Item.stats itemObj) = false ->
   Item.stackable (Item.stats (add (Item.id itemObj) None)) = false ->
   1 <= amount ->
   exists c',
     Character.giveItem add fuel c itemObj amount = Some c'
     /\ Character.inventory c'
        = Character.inventory c
            ++ itemObj :: replicate (Z.to_nat (amount - 1)) (add (Item.id itemObj) None)
     /\ length (Character.inventory c')
        = (length (Character.inventory c) + Z.to_nat amount)%nat
     /\ forall (k : nat) (it : Item.t) (rnd : Z),
          Character.inventory c' !! (length (Character.inventory c) + k)%nat = Some it ->
          Item.truthy (Item.slot it) = false ->
          Character.dropItem add c'
            (Character.ByIndex (Z.of_nat (length (Character.inventory c) + k))) 1 false rnd
          = Character.Returns
              (Character.with_inventory
                 (delete (length (Character.inventory c) + k)%nat (Character.inventory c')) c',
               Some it, []))
  /\ (Item.stackable (Item.stats itemObj) = true ->
      let amount' :=
        if amount =? 0 then Item.stats_durability (Item.stats itemObj) else amount in
      exists c',
        Character.giveItem add fuel c itemObj amount = Some c'
        /\ Character.inventory c'
           = match list_find (fun obj => Item.id obj = Item.id itemObj)
                             (Character.inventory c) with
             | Some (j, _) =>
                 alter (Item.addDurability amount') j (Character.inventory c)
             | None => Character.inventory c ++ [Item.setDurability amount' itemObj]
             end
        /\ Inventory.count_id (Item.id itemObj) (Character.inventory c')
           = Nat.max 1 (Inventory.count_id (Item.id itemObj) (Character.inventory c))).
Proof.
  intros Hfuel. destruct fuel as [|[|fuel]]; [lia..|]. split.
  - intros Hns Hnew Hamount. rewrite giveItem_unfold, Hns. cbv zeta.
    destruct (Z.eqb_spec amount 0) as [->|_]; [lia|].
    rewrite giveItem_loop by done. eexists. split; [reflexivity|]. simpl.
    rewrite <- app_assoc. simpl. split; [done|]. split.
    + rewrite length_app. simpl. rewrite length_replicate. lia.
    + intros k it rnd Hk Hslot.
      rewrite <- (Nat2Z.id (length (Character.inventory c) + k)) at 2.
      apply dropItem_by_index; [|done|].
      * unfold Character.index. simpl.
        destruct (Z.ltb_spec (Z.of_nat (length (Character.inventory c) + k)) 0); [lia|].
        by rewrite Nat2Z.id.
      * rewrite lookup_app_r in Hk by lia.
        replace (length (Character.inventory c) + k - length (Character.inventory c))%nat
          with k in Hk by lia.
        destruct k as [|k]; simpl in Hk; [congruence|].
        apply lookup_replicate in Hk as [-> _]. done.
  - intros Hst amount'. rewrite giveItem_unfold, Hst. cbv zeta. fold amount'.
    destruct (list_find _ _) as [[j x]|] eqn:Hfind;
      (eexists; split; [reflexivity|]; split; [reflexivity|]); simpl.
    + apply list_find_Some in Hfind as (Hj & Hid & _).
      rewrite count_id_alter by done. unfold Inventory.count_id.
      assert (x ∈ filter (fun obj => Item.id obj = Item.id itemObj) (Character.inventory c)).
      { apply list_elem_of_filter. split; [done|]. by eapply list_elem_of_lookup_2. }
      destruct (filter _ _); [by apply elem_of_nil in H|]. simpl. lia.
    + unfold Inventory.count_id. rewrite filter_app, length_app.
      assert (filter (fun obj => Item.id obj = Item.id itemObj) (Character.inventory c) = []) as ->.
      { apply list_find_None in Hfind. induction Hfind as [|y l Hy _ IHl]; [done|].
        rewrite filter_cons. by destruct (decide _). }
      rewrite filter_cons. simpl. destruct (decide _); done.
Qed.

Lemma C9_giveItem_witness :
  (exists c',
     Character.giveItem Examples.itemManager_add 2 Examples.alice Examples.knife 3 = Some c'
     /\ Character.inventory c' = [Examples.knife; Examples.knife; Examples.knife])
  /\ (exists c',
     Character.giveItem Examples.itemManager_add 2 Examples.alice Examples.rounds 5 = Some c'
     /\ Inventory.count_id "9mm" (Character.inventory c') = 1%nat).
Proof.
  destruct (C9_giveItem Examples.itemManager_add 2 Examples.alice Examples.knife 3)
    as [H1 _]; [lia|].
  destruct (C9_giveItem Examples.itemManager_add 2 Examples.alice Examples.rounds 5)
    as [_ H2]; [lia|].
  split.
  - destruct H1 as (c' & Hg & Hinv & _); [reflexivity|reflexivity|lia|].
    exists c'. split; [exact Hg|exact Hinv].
  - destruct H2 as (c' & Hg & _ & Hcount); [reflexivity|].
    exists c'. split; [exact Hg|exact Hcount].
Defined.

Lemma step_checked_capacity add itemList (c : Character.t) (op : Inventory.Op) :
  Inventory.amount_ok op ->
  Z.of_nat (length (Character.inventory c))
    <= Character.inventorySize (Character.stats c) ->
  Character.stats (Inventory.step_checked add itemList c op) = Character.stats c
  /\ Z.of_nat (length (Character.inventory (Inventory.step_checked add itemList c op)))
     <= Character.inventorySize (Character.stats c).
Proof.
  intros Hok Hcap. destruct op as [it amount|i|slot|sel amount fl rnd|i amount];
    cbn [Inventory.step_checked Inventory.step].
  - destruct (Character.hasRoomForItem c it amount) eqn:Hroom; [|by split].
    destruct (Character.giveItem add 2 c it amount) as [c'|] eqn:Hgive; [|by split].
    apply giveItem_length in Hgive as [Hs Hl]. simpl. split; [done|].
    simpl in Hok. revert Hroom Hl.
    unfold Character.hasRoomForItem, Inventory.growth, Character.inventorySpaceLeft.
    destruct (Item.stackable _).
    + destruct (list_find _ _); [lia|].
      destruct (Z.leb_spec (Character.inventorySize (Character.stats c)
                  - Z.of_nat (length (Character.inventory c))) 0); [done|lia].
    + destruct (Z.eqb_spec amount 0) as [->|Hne];
        match goal with |- context [?a <? 0] => destruct (Z.ltb_spec a 0) end;
        (done || lia).
  - destruct (equip_length c i) as [-> ->]. by split.
  - destruct (unEquip_length c slot) as [-> ->]. by split.
  - destruct (Character.dropItem add c sel amount fl rnd) as [[[c' r] calls]|] eqn:Hdrop;
      [|by split].
    apply dropItem_length in Hdrop as [-> Hl]. split; [done|lia].
  - destruct (Character.takeItem itemList c i amount) as [[c' r]|] eqn:Htake; [|by split].
    apply takeItem_length in Htake as [-> Hl]. split; [done|lia].
Qed.

(** C2 (as the code has it): over any sequence of giveItem, equip, unEquip,
    dropItem and takeItem calls in which every giveItem (amount omitted or
    non-negative) is made only after hasRoomForItem accepted it, an inventory
    that starts within [stats.inventorySize] stays within it, and the
    capacity itself does not change. *)
Theorem C2_inventory_capacity
    (add : string -> option Z -> Item.t) (itemList : string -> option Item.t)
    (ops : list Inventory.Op) (c : Character.t) :
  Forall Inventory.amount_ok ops ->
  Z.of_nat (length (Character.inventory c))
    <= Character.inventorySize (Character.stats c) ->
  Character.stats (Inventory.run_checked add itemList c ops) = Character.stats c
  /\ Z.of_nat (length (Character.inventory (Inventory.run_checked add itemList c ops)))
     <= Character.inventorySize (Character.stats c).
Proof.
  intros Hok. revert c. induction Hok as [|op ops Hop _ IH]; intros c Hcap; [done|].
  unfold Inventory.run_checked in *. simpl.
  destruct (step_checked_capacity add itemList c op Hop Hcap) as [Hs Hl].
  destruct (IH (Inventory.step_checked add itemList c op)) as [Hs' Hl'].
  - by rewrite Hs.
  - rewrite Hs' , Hs. split; [done|]. by rewrite Hs in Hl'.
Qed.

Lemma C2_inventory_capacity_witness :
  Z.of_nat (length (Character.inventory
     (Inventory.run_checked Examples.itemManager_add Examples.itemList Examples.alice_full
        [Inventory.GiveItem Examples.knife 1; Inventory.Equip 0;
         Inventory.DropItem (Character.ByName "kni") 1 false 0;
         Inventory.GiveItem Examples.rounds 0])))
  <= 1.
Proof.
  apply (C2_inventory_capacity Examples.itemManager_add Examples.itemList
           [Inventory.GiveItem Examples.knife 1; Inventory.Equip 0;
            Inventory.DropItem (Character.ByName "kni") 1 false 0;
            Inventory.GiveItem Examples.rounds 0] Examples.alice_full).
  - repeat constructor; simpl; lia.
  - simpl. lia.
Defined.

(** C2, as the specification states it, does not hold: [giveItem] does not
    look at the capacity.  A character with room for one item who carries
    one and is given another ends with two. *)
Lemma C2_giveItem_exceeds_capacity :
  let c := Examples.alice_full in
  let c' := Inventory.run Examples.itemManager_add Examples.itemList c
              [Inventory.GiveItem Examples.knife 1] in
  Z.of_nat (length (Character.inventory c)) <= Character.inventorySize (Character.stats c)
  /\ ~ (Z.of_nat (length (Character.inventory c'))
        <= Character.inventorySize (Character.stats c')).
Proof. simpl. split; lia. Qed.

(** C5: the specification has equipped items undroppable unless fleeing; the
    code does not enforce it.  [dropItem] looks at the property
    [slot], which [equip] never writes; a knife equipped through [equip]
    (its [equipped_slot] is melee) is removed and returned by
    [dropItem(0, 1, false)], and with [isFleeing] it is dropped still
    equipped, [unEquip] not being called. *)
Theorem C5_dropItem_drops_equipped_item :
  let c := (Character.equip Examples.alice_knife 0).1 in
  let equipped := Item.with_equipped_slot (Some "melee") Examples.knife in
  Character.inventory c = [equipped]
  /\ Character.getEquippedSync c "melee" = Some (0%nat, equipped)
  /\ Character.dropItem Examples.itemManager_add c (Character.ByIndex 0) 1 false 0
     = Character.Returns (Character.with_inventory [] c, Some equipped, [])
  /\ Character.dropItem Examples.itemManager_add c (Character.ByIndex 0) 1 true 0
     = Character.Returns (Character.with_inventory [] c, Some equipped, []).
Proof. repeat split. Qed.

(** ** Combat *)

(** C3: for a non-negative amount and armour of non-negative durability,
    [dealDamage] reports what the specification says (blocked, dealt, health
    left, durability left after the full amount, armour ruined exactly when a
    positive durability reached 0), stores the new health and the new armour
    durability, and gives the two results the specification lists. *)
Theorem C3_dealDamage (c : Character.t) (amount : Z) (ignoreArmor : bool) :
  0 <= amount ->
  (forall j it, Spec.armorInUse c ignoreArmor = Some (j, it) -> 0 <= Item.durability it) ->
  let '(c', r, _) := Character.dealDamage c amount ignoreArmor in
  r = Spec.dealDamage (Character.health (Character.stats c)) amount
        (Spec.rating_durability (Spec.armorInUse c ignoreArmor))
  /\ Character.health (Character.stats c') = Character.healthLeft r
  /\ (forall j it, Spec.armorInUse c ignoreArmor = Some (j, it) ->
        Character.inventory c' !! j
        = Some (Item.with_durability (Z.max 0 (Item.durability it - amount)) it))
  /\ (Spec.armorInUse c ignoreArmor = None ->
      Character.health (Character.stats c) = 100 -> amount = 30 ->
      r = Character.mkReport 0 30 70 0 false)
  /\ (forall j it, Spec.armorInUse c ignoreArmor = Some (j, it) ->
      Item.damage_reduction (Item.stats it) = 10 -> Item.durability it = 5 ->
      amount = 8 ->
      Character.damageBlocked r = 5 /\ Character.damageDealt r = 3
      /\ Character.durabilityLeft r = 0 /\ Character.armorRuined r = true).
Proof.
  intros Hamount Hdur. unfold Character.dealDamage, Spec.armorInUse in *.
  assert (Hnone : forall health,
    Character.mkReport (Z.min (Z.min amount 0) 0)
      (Z.max 0 (amount - Z.min (Z.min amount 0) 0))
      (Z.max 0 (health - Z.max 0 (amount - Z.min (Z.min amount 0) 0)))
      (Z.max 0 (0 - amount)) ((Z.max 0 (0 - amount) =? 0) && false)
    = Spec.dealDamage health amount None).
  { intros health. unfold Spec.dealDamage. rewrite andb_false_r. simpl.
    f_equal; lia. }
  destruct (Character.getEquippedSync c "armor") as [[j it]|] eqn:Harmor;
    destruct ignoreArmor; simpl in *.
  - repeat split; try done. intros _ Hh ->. by rewrite Hh.
  - specialize (Hdur j it eq_refl).
    split; [|split; [done|split; [|split; [done|]]]].
    + unfold Spec.dealDamage. simpl. f_equal; lia.
    + intros j' it' [= <- <-].
      apply list_find_Some in Harmor as (Hj & _ & _).
      by rewrite list_lookup_alter_eq, Hj.
    + intros j' it' [= <- <-] Hr Hd ->. rewrite Hr, Hd. done.
  - repeat split; try done. intros _ Hh ->. by rewrite Hh.
  - repeat split; try done. intros _ Hh ->. by rewrite Hh.
Qed.

Lemma C3_dealDamage_witness :
  (Character.dealDamage Examples.alice_armored 8 false).1.2
  = Character.mkReport 5 3 97 0 true.
Proof.
  pose proof (C3_dealDamage Examples.alice_armored 8 false) as H.
  destruct (Character.dealDamage Examples.alice_armored 8 false) as [[c' r] calls].
  destruct H as (Hr & _).
  - lia.
  - intros j it [= <- <-]. simpl. lia.
  - simpl. rewrite Hr. reflexivity.
Defined.

(** ** Cooldown reaper *)

(** C6: the specification has the reaper remove the expired entries and keep
    the others; the code does the reverse.  [cleanup] keeps the entries whose
    [remove] flag is set and drops all others, so after a run only expired
    cooldowns are left; the list [running; expired] becomes [expired], where
    the specification's reaper leaves [running]. *)
Theorem C6_cleanup_keeps_only_flagged :
  let running := Cooldown.mk "move" 3 true false in
  let expired := Cooldown.mk "attack" 0 true true in
  Cooldown.cleanup [running; expired] = [expired]
  /\ Spec.cleanup [running; expired] = [running]
  /\ forall (l : list Cooldown.t) (cd : Cooldown.t),
       cd ∈ Cooldown.cleanup l <-> cd ∈ l /\ Cooldown.remove cd = true.
Proof.
  intros running expired. split; [reflexivity|]. split; [reflexivity|].
  intros l cd. unfold Cooldown.cleanup.
  rewrite !list_elem_of_In. apply filter_In.
Qed.

(** ** Movement *)

(** C4, as the specification states it, does not hold: with a move cooldown
    configured, a move to a cell that does not exist leaves a new, unstarted
    cooldown in the character's list. *)
Lemma C4_invalid_move_adds_cooldown :
  let s' := (CharacterManager.move Examples.playerCooldowns Examples.isValidLocation
               Examples.registry Examples.store "1001"
               (CharacterManager.mkMove CharacterManager.GridY 1)).1 in
  Character.location (Examples.store 0%nat) = Character.mkLocation "london" 1 1
  /\ Examples.isValidLocation "london" 1 2 = None
  /\ Character.cooldowns (Examples.store 0%nat) = []
  /\ Character.cooldowns (s' 0%nat) = [Cooldown.mk "move" 2 false false]
  /\ s' 0%nat <> Examples.store 0%nat.
Proof. simpl. repeat split. discriminate. Qed.

(** C4 (as the code has it): a move whose destination cell does not exist
    changes no character's location and sends nothing to any room; of the
    character state only the cooldown list can change, and it either stays
    as it was or gains one unstarted move cooldown of the configured
    duration. *)
Theorem C4_invalid_move
    (playerCooldowns : string -> option Z)
    (isValidLocation : string -> Z -> Z -> option Character.Location)
    (characters : list Character.handle) (s : Character.Store)
    (user : string) (moveAction : CharacterManager.MoveAction) :
  (forall h, CharacterManager.getSync characters s user = Some h ->
     let dest := CharacterManager.destination (Character.location (s h)) moveAction in
     isValidLocation (Character.map dest) (Character.x dest) (Character.y dest) = None) ->
  let '(s', events) :=
    CharacterManager.move playerCooldowns isValidLocation characters s user moveAction in
  (forall h, Character.location (s' h) = Character.location (s h))
  /\ (forall e, e ∈ events -> CharacterManager.is_room_event e = false)
  /\ (forall h, s' h = Character.with_cooldowns (Character.cooldowns (s' h)) (s h))
  /\ (forall h,
        Character.cooldowns (s' h) = Character.cooldowns (s h)
        \/ exists d, playerCooldowns "move" = Some d /\ d <> 0
             /\ CharacterManager.getSync characters s user = Some h
             /\ Character.cooldowns (s' h)
                = Character.cooldowns (s h) ++ [Cooldown.mk "move" d false false]).
Proof.
  intros Hinvalid. unfold CharacterManager.move.
  assert (Hsame : forall c : Character.t,
            c = Character.with_cooldowns (Character.cooldowns c) c) by (by intros []).
  assert (Hone : forall (e : CharacterManager.Event),
            CharacterManager.is_room_event e = false ->
            forall e', e' ∈ [e] -> CharacterManager.is_room_event e' = false).
  { by intros e He e' ->%list_elem_of_singleton. }
  assert (Hnil : forall e' : CharacterManager.Event,
            e' ∈ [] -> CharacterManager.is_room_event e' = false).
  { by intros e' He%elem_of_nil. }
  destruct (CharacterManager.getSync characters s user) as [h|] eqn:Hget.
  2: { split; [done|]. split; [by apply Hone|]. split; [done|]. by left. }
  specialize (Hinvalid h eq_refl). simpl in Hinvalid.
  destruct (negb (_ =? _)%nat).
  { split; [done|]. split; [by apply Hone|]. split; [done|]. by left. }
  destruct (Character.hidden (s h)).
  { split; [done|]. split; [by apply Hone|]. split; [done|]. by left. }
  destruct (negb (_ =? 0)).
  { split; [done|]. split; [done|]. split; [done|]. by left. }
  destruct (Cooldown.add playerCooldowns (Character.cooldowns (s h)) "move" None false)
    as [cds newCooldown] eqn:Hadd.
  rewrite Hinvalid.
  assert (Hcds : cds = Character.cooldowns (s h)
                 \/ exists d, playerCooldowns "move" = Some d /\ d <> 0
                      /\ cds = Character.cooldowns (s h) ++ [Cooldown.mk "move" d false false]).
  { revert Hadd. unfold Cooldown.add. simpl.
    destruct (playerCooldowns "move") as [d|]; [|intros [= <- _]; by left].
    destruct (Z.eqb_spec d 0) as [->|Hd]; simpl; [intros [= <- _]; by left|].
    destruct (Z.eqb_spec d 0); [done|]. intros [= <- _]. right. by exists d. }
  split; [|split; [|split]].
  - intros h'. destruct (decide (h = h')) as [<-|Hne].
    + by rewrite fn_lookup_insert.
    + by rewrite fn_lookup_insert_ne.
  - by apply Hone.
  - intros h'. destruct (decide (h = h')) as [<-|Hne].
    + by rewrite fn_lookup_insert.
    + rewrite fn_lookup_insert_ne by done. apply Hsame.
  - intros h'. destruct (decide (h = h')) as [<-|Hne].
    + rewrite fn_lookup_insert. simpl.
      destruct Hcds as [->|(d & Hd & Hd0 & ->)]; [by left|].
      right. by exists d.
    + rewrite fn_lookup_insert_ne by done. by left.
Qed.

Lemma C4_invalid_move_witness :
  let '(s', events) :=
    CharacterManager.move Examples.playerCooldowns Examples.isValidLocation
      Examples.registry Examples.store "1001"
      (CharacterManager.mkMove CharacterManager.GridY 1) in
  (forall h, Character.location (s' h) = Character.location (Examples.store h))
  /\ (forall e, e ∈ events -> CharacterManager.is_room_event e = false).
Proof.
  pose proof (C4_invalid_move Examples.playerCooldowns Examples.isValidLocation
                Examples.registry Examples.store "1001"
                (CharacterManager.mkMove CharacterManager.GridY 1)) as H.
  destruct (CharacterManager.move _ _ _ _ _ _) as [s' events].
  destruct H as (Hloc & Hroom & _).
  - intros h [= <-]. reflexivity.
  - split; [exact Hloc|exact Hroom].
Defined.

(** ** Command validation and dispatch *)

(** C7, as the specification states it, does not hold: with an empty first
    token whose rules do not ask for it, validation resolves without looking
    at the second parameter, which its own rule rejects when the first token
    is present. *)
Lemma C7_later_slots_are_skipped :
  CommandManager.validate Examples.external None
    [Examples.empty_quoted; "xx"] (Some Examples.walk_params)
  = CommandManager.Resolve [CommandManager.Str ""; CommandManager.Str "xx"]
  /\ CommandManager.validate Examples.external None
       ["on"; "xx"] (Some Examples.walk_params)
     = CommandManager.Reject "Direction does not appear to be a valid direction.".
Proof. split; reflexivity. Qed.

(** C7 (as the code has it): when the token of a declared parameter is empty
    once unquoted and its rule chain is not empty and lacks required, the
    loop over the parameters ends there: validation resolves with the
    parameters as they are at that point, whatever the later parameters
    declare. *)
Theorem C7_empty_optional_slot_ends_validation
    (external : string -> option string -> string -> option Character.t ->
                CommandManager.Value -> CommandManager.RuleOutcome)
    (player : option Character.t)
    (param : CommandManager.Param) (rest : list CommandManager.Param)
    (index : nat) (msgParams : list CommandManager.Value) (v : CommandManager.Value) :
  msgParams !! index = Some v ->
  CommandManager.falsy (CommandManager.strip v) = true ->
  CommandManager.rules param <> "" ->
  CommandManager.includes "required"
    (JS.split "|" (JS.toLowerCase (CommandManager.rules param))) = false ->
  CommandManager.validate_loop external player (param :: rest) index msgParams
  = CommandManager.Resolve (<[index := CommandManager.strip v]> msgParams).
Proof.
  intros Hv Hempty Hrules Hrequired. simpl. rewrite Hv.
  destruct (CommandManager.rules param) as [|a r] eqn:Hr; [done|].
  simpl String.length. simpl Nat.eqb. cbv iota.
  by rewrite Hempty, Hrequired.
Qed.

Lemma C7_empty_optional_slot_ends_validation_witness :
  CommandManager.validate_loop Examples.external None Examples.walk_params 0
    [CommandManager.Str Examples.empty_quoted; CommandManager.Str "xx"]
  = CommandManager.Resolve [CommandManager.Str ""; CommandManager.Str "xx"].
Proof.
  apply (C7_empty_optional_slot_ends_validation Examples.external None
           (CommandManager.mkParam "Pace" "minlen:2")
           [CommandManager.mkParam "Direction" "direction"] 0
           [CommandManager.Str Examples.empty_quoted; CommandManager.Str "xx"]
           (CommandManager.Str Examples.empty_quoted)).
  - reflexivity.
  - reflexivity.
  - discriminate.
  - reflexivity.
Defined.

(** C8, as the specification states it, does not hold: a command sent on a
    connection that has no live character is validated and its handler is
    called, with no character. *)
Lemma C8_handler_runs_without_character :
  CommandManager.onDispatch Examples.external "GAME_COMMAND" Examples.commands
    [] Examples.store "1001" (CommandManager.mkAction "GAME_COMMAND" (Some "/help"))
  = [CommandManager.Invoke "/help" "1001" None []].
Proof. vm_compute. reflexivity. Qed.

Lemma at_zero_of_parse (payload first : string) (rest : list string) :
  CommandManager.parseParameters payload = first :: rest ->
  exists c, JS.at_ payload 0 = Some c.
Proof. destruct payload as [|c r]; [done|]. intros _. by exists c. Qed.

(** C8 (as the code has it): when the connection resolves to no live
    character, a registered command is still validated, with the absent
    character; if validation resolves the handler is called with no
    character, if it rejects the message goes back to the connection, and
    only an unsettled validation leaves the dispatch without effect. *)
Theorem C8_dispatch_without_character
    (external : string -> option string -> string -> option Character.t ->
                CommandManager.Value -> CommandManager.RuleOutcome)
    (GAME_COMMAND : string) (commands : gmap string CommandManager.Command)
    (characters : list Character.handle) (s : Character.Store) (user text : string)
    (first : string) (msgParams : list string) (def : CommandManager.Command) :
  text <> "" ->
  CommandManager.parseParameters (JS.trim text) = first :: msgParams ->
  commands !! JS.toLowerCase first = Some def ->
  CharacterManager.getSync characters s user = None ->
  CommandManager.onDispatch external GAME_COMMAND commands characters s user
    (CommandManager.mkAction GAME_COMMAND (Some text))
  = match CommandManager.validate external None msgParams (CommandManager.params def) with
    | CommandManager.Resolve validParams =>
        [CommandManager.Invoke (JS.toLowerCase first) user None validParams]
    | CommandManager.Reject error => [CommandManager.ErrorToSocket user error]
    | CommandManager.Unsettled => []
    end.
Proof.
  intros Htext Hparse Hcmd Hget. unfold CommandManager.onDispatch. simpl.
  rewrite String.eqb_refl. simpl.
  destruct (String.eqb_spec text "") as [|_]; [done|].
  destruct (at_zero_of_parse _ _ _ Hparse) as [c ->].
  by rewrite Hparse, Hcmd, Hget.
Qed.

Lemma C8_dispatch_without_character_witness :
  CommandManager.onDispatch Examples.external "GAME_COMMAND" Examples.commands
    [] Examples.store "1001"
    (CommandManager.mkAction "GAME_COMMAND" (Some "/walk on xx"))
  = [CommandManager.ErrorToSocket "1001" "Direction does not appear to be a valid direction."].
Proof.
  rewrite (C8_dispatch_without_character Examples.external "GAME_COMMAND"
             Examples.commands [] Examples.store "1001" "/walk on xx"
             "/walk" ["on"; "xx"]
             (CommandManager.mkCommand (Some Examples.walk_params) "Walk somewhere")).
  - reflexivity.
  - discriminate.
  - reflexivity.
  - vm_compute. reflexivity.
  - reflexivity.
Defined.

(* ================================================================== *)
(** * Further properties of the code *)

(** ** Cooldown manager *)

Lemma ticksLeft_app_other (l : list Cooldown.t) (c : Cooldown.t) (act : string) :
  Cooldown.action c <> act ->
  Cooldown.ticksLeft (l ++ [c]) act = Cooldown.ticksLeft l act.
Proof.
  intros Hne. unfold Cooldown.ticksLeft.
  induction l as [|cd l IH]; simpl.
  - destruct (String.eqb_spec (Cooldown.action c) act); [done|]. done.
  - destruct (_ && _); [done|]. apply IH.
Qed.

(** X1: adding a cooldown for one action never changes the ticks left of
    another action, and when neither an explicit nor a configured duration
    is there (absent or 0) [add] returns nothing and leaves the list as it
    was. *)
Theorem X1_add_leaves_other_actions
    (playerCooldowns : string -> option Z) (cooldowns : list Cooldown.t)
    (act other : string) (duration : option Z) (autostart : bool) :
  (other <> act ->
   Cooldown.ticksLeft (Cooldown.add playerCooldowns cooldowns act duration autostart).1 other
   = Cooldown.ticksLeft cooldowns other)
  /\ (default 0 duration = 0 -> default 0 (playerCooldowns act) = 0 ->
      Cooldown.add playerCooldowns cooldowns act duration autostart = (cooldowns, None)).
Proof.
  split.
  - intros Hne. unfold Cooldown.add.
    repeat (case_match; simpl; try done); by apply ticksLeft_app_other.
  - unfold Cooldown.add. intros Hd Hc.
    destruct duration as [d|], (playerCooldowns act) as [d'|]; simpl in *; subst;
      simpl; try done.
    all: repeat (case_match; simpl; try done); lia.
Qed.

Lemma X1_add_leaves_other_actions_witness :
  Cooldown.ticksLeft
    (Cooldown.add Examples.playerCooldowns [Cooldown.mk "attack" 4 true false]
       "move" None false).1 "attack" = 4
  /\ Cooldown.add Examples.playerCooldowns [] "attack" None false = ([], None).
Proof.
  destruct (X1_add_leaves_other_actions Examples.playerCooldowns
              [Cooldown.mk "attack" 4 true false] "move" "attack" None false) as [H1 _].
  destruct (X1_add_leaves_other_actions Examples.playerCooldowns
              [] "attack" "move" None false) as [_ H2].
  split.
  - rewrite H1; [reflexivity|discriminate].
  - apply H2; reflexivity.
Defined.

(** X2: [ticksLeft] is never negative, and it is positive exactly when some
    cooldown of the character carries that action with ticks above 0. *)
Theorem X2_ticksLeft_positive (cooldowns : list Cooldown.t) (act : string) :
  0 <= Cooldown.ticksLeft cooldowns act
  /\ (0 < Cooldown.ticksLeft cooldowns act
      <-> exists cd, In cd cooldowns /\ Cooldown.action cd = act /\ 0 < Cooldown.ticks cd).
Proof.
  unfold Cooldown.ticksLeft.
  destruct (find _ cooldowns) as [cd|] eqn:Hfind.
  - apply find_some in Hfind as [Hin [Ha Ht]%andb_prop].
    apply String.eqb_eq in Ha. apply Z.ltb_lt in Ht.
    destruct (Z.eqb_spec (Cooldown.ticks cd) 0); [lia|].
    split; [lia|]. split; [|lia]. intros _. by exists cd.
  - split; [done|]. split; [lia|]. intros (cd & Hin & Ha & Ht).
    pose proof (find_none _ _ Hfind cd Hin) as Hn. simpl in Hn.
    apply andb_false_iff in Hn as [Hn|Hn].
    + apply String.eqb_neq in Hn. done.
    + apply Z.ltb_ge in Hn. lia.
Qed.

(** X3: when the entries flagged [remove] are the expired ones (no ticks
    left), a run of [cleanup] leaves no action with ticks left: every
    running cooldown is gone after it. *)
Theorem X3_cleanup_ends_running_cooldowns (cooldowns : list Cooldown.t) (act : string) :
  (forall cd, In cd cooldowns -> Cooldown.remove cd = true -> Cooldown.ticks cd <= 0) ->
  Cooldown.ticksLeft (Cooldown.cleanup cooldowns) act = 0.
Proof.
  intros Hexpired. unfold Cooldown.ticksLeft.
  destruct (find _ _) as [cd|] eqn:Hfind; [|done].
  apply find_some in Hfind as [Hin [_ Ht]%andb_prop].
  apply filter_In in Hin as [Hin Hr]. apply Z.ltb_lt in Ht.
  specialize (Hexpired cd Hin Hr). lia.
Qed.

Lemma X3_cleanup_ends_running_cooldowns_witness :
  Cooldown.ticksLeft [Cooldown.mk "move" 3 true false; Cooldown.mk "attack" 0 true true] "move" = 3
  /\ Cooldown.ticksLeft
       (Cooldown.cleanup [Cooldown.mk "move" 3 true false; Cooldown.mk "attack" 0 true true])
       "move" = 0.
Proof.
  split; [reflexivity|].
  apply (X3_cleanup_ends_running_cooldowns
           [Cooldown.mk "move" 3 true false; Cooldown.mk "attack" 0 true true] "move").
  intros cd [<-|[<-|[]]]; simpl; [discriminate|lia].
Defined.

(** ** Targeting, further *)

Lemma list_find_user_id (s s' : Character.Store) (u : string) (l : list Character.handle) :
  (forall h, Character.user_id (s' h) = Character.user_id (s h)) ->
  list_find (fun obj => Character.user_id (s' obj) = u) l
  = list_find (fun obj => Character.user_id (s obj) = u) l.
Proof. intros Hid. apply list_find_ext. intros x. by rewrite Hid. Qed.

Lemma gridLock_cases (s : Character.Store) (b a : Character.handle) :
  (is_Some (list_find (fun obj => Character.user_id (s obj) = Character.user_id (s a))
                      (Character.targetedBy (s b)))
   /\ Character.gridLock s b a = s)
  \/ (list_find (fun obj => Character.user_id (s obj) = Character.user_id (s a))
                (Character.targetedBy (s b)) = None
      /\ Character.gridLock s b a
         = <[b := Character.with_targetedBy (Character.targetedBy (s b) ++ [a]) (s b)]> s).
Proof.
  unfold Character.gridLock. destruct (list_find _ _) as [p|]; [left|right]; eauto.
Qed.

(** X4: after [B.gridLock(A)] B is targeted by A's user id, whatever the
    state before; a second [gridLock] by the same character changes nothing,
    and the array grows by at most one entry. *)
Theorem X4_gridLock_idempotent (s : Character.Store) (b a : Character.handle) :
  Character.isTargetedBy (Character.gridLock s b a) b (Character.user_id (s a)) = true
  /\ Character.gridLock (Character.gridLock s b a) b a = Character.gridLock s b a
  /\ (length (Character.targetedBy (Character.gridLock s b a b))
      <= S (length (Character.targetedBy (s b))))%nat.
Proof.
  assert (Hfound : is_Some (list_find
            (fun obj => Character.user_id (Character.gridLock s b a obj)
                        = Character.user_id (Character.gridLock s b a a))
            (Character.targetedBy (Character.gridLock s b a b)))).
  { rewrite gridLock_user_id.
    rewrite (list_find_user_id s) by (intros; apply gridLock_user_id).
    destruct (gridLock_cases s b a) as [[Hf ->]|[_ ->]]; [done|].
    rewrite fn_lookup_insert. simpl.
    apply (list_find_elem_of _ _ a); [|done]. apply elem_of_app. right. left. }
  split; [|split].
  - unfold Character.isTargetedBy. rewrite gridLock_user_id in Hfound.
    by destruct Hfound as [[i x] ->].
  - unfold Character.gridLock at 1. by destruct Hfound as [[i x] ->].
  - destruct (gridLock_cases s b a) as [[_ ->]|[_ ->]]; [lia|].
    rewrite fn_lookup_insert. simpl. rewrite length_app. simpl. lia.
Qed.

(** X5: when B is not yet targeted by A's user id, [gridRelease] after
    [gridLock] gives back the store as it was: every character object,
    B's [targetedBy] included. *)
Theorem X5_gridRelease_undoes_gridLock (s : Character.Store) (b a : Character.handle) :
  Character.isTargetedBy s b (Character.user_id (s a)) = false ->
  forall h,
    Character.gridRelease (Character.gridLock s b a) b (Character.user_id (s a)) h = s h.
Proof.
  unfold Character.isTargetedBy. intros Hnot h.
  destruct (list_find _ (Character.targetedBy (s b))) as [|] eqn:Hfind; [done|].
  destruct (gridLock_cases s b a) as [[Hf _]|[_ Hlock]];
    [rewrite Hfind in Hf; by destruct Hf|].
  unfold Character.gridRelease.
  rewrite (list_find_user_id s) by (intros; apply gridLock_user_id).
  rewrite Hlock, fn_lookup_insert. simpl.
  rewrite list_find_app_r by done. simpl.
  rewrite decide_True by done. simpl.
  destruct (decide (b = h)) as [<-|Hne].
  - rewrite !fn_lookup_insert. simpl.
    replace (delete (0 + length (Character.targetedBy (s b)))%nat
               (Character.targetedBy (s b) ++ [a]))
      with (Character.targetedBy (s b)); [by destruct (s b)|].
    rewrite delete_take_drop. simpl.
    rewrite take_app_length, drop_ge, app_nil_r; [done|].
    rewrite length_app. simpl. lia.
  - by rewrite !fn_lookup_insert_ne.
Qed.

Lemma X5_gridRelease_undoes_gridLock_witness :
  Character.gridRelease (Character.gridLock Examples.store 1%nat 0%nat) 1%nat "1001" 1%nat
  = Examples.bob.
Proof.
  exact (X5_gridRelease_undoes_gridLock Examples.store 1%nat 0%nat eq_refl 1%nat).
Defined.

(** ** Death *)






(** ** Equipment *)

Section Equipment.
Import Character.

(** The inventory after a successful [equip]: the item sits in its slot,
    and whatever else shows a slot showed it before and it is another
    slot. *)
Lemma equip_lookup c i item sl :
  index (inventory c) i = Some item ->
  Item.equipable (Item.stats item) = true ->
  slot_of_subtype (Item.subtype item) = Some sl ->
  one_per_slot (inventory c) ->
  inventory (equip c i).1 !! Z.to_nat i = Some (Item.with_equipped_slot (Some sl) item)
  /\ forall p q s, p <> Z.to_nat i -> inventory (equip c i).1 !! p = Some q ->
       Item.equipped_slot q = Some s ->
       s <> sl /\ exists q0, inventory c !! p = Some q0 /\ Item.equipped_slot q0 = Some s.
Proof.
  intros Hi Heq Hsl Hone. unfold equip, equip_call. rewrite Hi, Heq, Hsl. simpl.
  assert (Hn : inventory c !! Z.to_nat i = Some item).
  { unfold index in Hi. by destruct (i <? 0). }
  unfold getEquippedSync.
  destruct (list_find _ (inventory c)) as [[j x]|] eqn:Hfind; simpl.
  - apply list_find_Some in Hfind as (Hj & Hx & _). split.
    + rewrite list_lookup_alter_eq, list_lookup_alter.
      destruct (decide (j = Z.to_nat i)) as [->|Hne]; rewrite Hn; by destruct item.
    + intros p q s Hp. rewrite list_lookup_alter_ne by done.
      rewrite list_lookup_alter. destruct (decide (j = p)) as [->|Hne].
      * rewrite Hj. simpl. by intros [= <-].
      * intros Hq Hs. split; [|by exists q].
        intros ->. apply Hne. by eapply Hone.
  - apply list_find_None in Hfind. split.
    + rewrite list_lookup_alter_eq, Hn. done.
    + intros p q s Hp. rewrite list_lookup_alter_ne by done.
      intros Hq Hs. split; [|by exists q]. intros ->.
      eapply Forall_lookup_1 in Hfind; [|exact Hq]. done.
Qed.

Lemma unEquip_lookup c sl :
  sl <> "" -> one_per_slot (inventory c) ->
  forall p q s, inventory (unEquip c (Some sl)).1 !! p = Some q ->
    Item.equipped_slot q = Some s -> s <> sl /\ inventory c !! p = Some q.
Proof.
  intros Hsl Hone p q s. unfold unEquip, unEquip_call. simpl.
  destruct (String.eqb_spec sl "") as [|_]; [done|]. simpl.
  unfold getEquippedSync.
  destruct (list_find _ (inventory c)) as [[j x]|] eqn:Hfind; simpl.
  - apply list_find_Some in Hfind as (Hj & Hx & _).
    rewrite list_lookup_alter. destruct (decide (j = p)) as [->|Hne].
    + rewrite Hj. simpl. by intros [= <-].
    + intros Hq Hs. split; [|done]. intros ->. apply Hne. by eapply Hone.
  - apply list_find_None in Hfind. intros Hq Hs. split; [|done]. intros ->.
    eapply Forall_lookup_1 in Hfind; [|exact Hq]. done.
Qed.

End Equipment.

(** A call of [equip] whose callback runs before anything else keeps every
    slot to at most one item, and puts the item in its slot; an index
    without item, an item that is not equipable or a subtype without slot
    leaves the character untouched. *)
Lemma equip_one_per_slot (c : Character.t) (i : Z) :
  Character.one_per_slot (Character.inventory c) ->
  Character.one_per_slot (Character.inventory (Character.equip c i).1)
  /\ (forall item sl,
        Character.index (Character.inventory c) i = Some item ->
        Item.equipable (Item.stats item) = true ->
        Character.slot_of_subtype (Item.subtype item) = Some sl ->
        Character.getEquippedSync (Character.equip c i).1 sl
        = Some (Z.to_nat i, Item.with_equipped_slot (Some sl) item))
  /\ ((forall item, Character.index (Character.inventory c) i = Some item ->
         Item.equipable (Item.stats item) = false
         \/ Character.slot_of_subtype (Item.subtype item) = None) ->
      Character.equip c i = (c, [])).
Proof.
  intros Hone.
  assert (Hsucc : forall item sl,
            Character.index (Character.inventory c) i = Some item ->
            Item.equipable (Item.stats item) = true ->
            Character.slot_of_subtype (Item.subtype item) = Some sl ->
            Character.one_per_slot (Character.inventory (Character.equip c i).1)
            /\ Character.getEquippedSync (Character.equip c i).1 sl
               = Some (Z.to_nat i, Item.with_equipped_slot (Some sl) item)).
  { intros item sl Hi Heq Hsl.
    destruct (equip_lookup c i item sl Hi Heq Hsl Hone) as [Hn Hrest].
    assert (Hone' : Character.one_per_slot (Character.inventory (Character.equip c i).1)).
    { intros p1 p2 a b s Ha Hb Hsa Hsb.
      destruct (decide (p1 = Z.to_nat i)) as [->|Hp1];
        destruct (decide (p2 = Z.to_nat i)) as [->|Hp2]; [done|..].
      - rewrite Hn in Ha. injection Ha as <-. simpl in Hsa. injection Hsa as <-.
        by destruct (Hrest p2 b sl Hp2 Hb Hsb).
      - rewrite Hn in Hb. injection Hb as <-. simpl in Hsb. injection Hsb as <-.
        by destruct (Hrest p1 a sl Hp1 Ha Hsa).
      - destruct (Hrest p1 a s Hp1 Ha Hsa) as (_ & a0 & Ha0 & Hsa0).
        destruct (Hrest p2 b s Hp2 Hb Hsb) as (_ & b0 & Hb0 & Hsb0).
        by eapply Hone. }
    split; [done|]. unfold Character.getEquippedSync.
    apply list_find_Some. split; [done|]. split; [done|].
    intros p q Hq Hlt Hs.
    assert (p = Z.to_nat i); [|lia].
    eapply (Hone' p (Z.to_nat i)); eauto. }
  split; [|split].
  - destruct (Character.index (Character.inventory c) i) as [item|] eqn:Hi.
    2: { unfold Character.equip, Character.equip_call. by rewrite Hi. }
    destruct (Item.equipable (Item.stats item)) eqn:Heq.
    2: { unfold Character.equip, Character.equip_call. by rewrite Hi, Heq. }
    destruct (Character.slot_of_subtype (Item.subtype item)) as [sl|] eqn:Hsl.
    2: { unfold Character.equip, Character.equip_call. by rewrite Hi, Heq, Hsl. }
    by destruct (Hsucc item sl).
  - intros item sl Hi Heq Hsl. by destruct (Hsucc item sl).
  - intros Hfail. unfold Character.equip, Character.equip_call.
    destruct (Character.index (Character.inventory c) i) as [item|]; [|done].
    destruct (Hfail item eq_refl) as [-> | ->]; [done|].
    by destruct (negb _).
Qed.

Section Turns.
Import Character.

Lemma equipment_turn_equip c i : equipment_turn c [CallEquip i] = (equip c i).1.
Proof.
  unfold equipment_turn, equip. simpl.
  destruct (equip_call c i) as [[j|j k sl|k sl]|]; done.
Qed.

Lemma equipment_turn_unEquip c slot :
  equipment_turn c [CallUnEquip slot] = (unEquip c slot).1.
Proof.
  unfold equipment_turn, unEquip. simpl.
  destruct (unEquip_call c slot) as [[j|j k sl|k sl]|]; done.
Qed.

Lemma index_nat {A} (l : list A) (i : Z) (a : A) :
  index l i = Some a -> 0 <= i /\ l !! Z.to_nat i = Some a.
Proof. unfold index. destruct (Z.ltb_spec i 0); [done|]. by split. Qed.

(** The callback that a call of [equip] registers for an equipable item
    whose subtype has the slot [sl]. *)
Lemma equip_call_slot c i item sl :
  index (inventory c) i = Some item ->
  Item.equipable (Item.stats item) = true ->
  slot_of_subtype (Item.subtype item) = Some sl ->
  equip_call c i
  = Some (match getEquippedSync c sl with
          | Some (j, _) => EquipThen j (Z.to_nat i) sl
          | None => EquipCatch (Z.to_nat i) sl
          end).
Proof. intros Hi Heq Hsl. unfold equip_call. by rewrite Hi, Heq, Hsl. Qed.

(** The item that holds a slot differs from an item that does not show
    that slot. *)
Lemma getEquippedSync_other c sl j x p a :
  getEquippedSync c sl = Some (j, x) -> inventory c !! p = Some a ->
  Item.equipped_slot a <> Some sl -> j <> p.
Proof.
  intros (Hj & Hx & _)%list_find_Some Hp Ha ->. rewrite Hj in Hp. congruence.
Qed.

End Turns.

(** X8: a call of [equip] whose callback runs before the next call keeps
    every slot to at most one item and puts the item in its slot (an index
    without item, an item that is not equipable or a subtype without slot
    registers no callback).  But the look-up of the slot runs with the
    call and the writes wait in the callback: two calls made before the
    callbacks run, for two items of one slot that neither of them holds,
    leave both items in that slot. *)
Theorem X8_equip_one_item_per_slot (c : Character.t) (i k : Z) :
  Character.one_per_slot (Character.inventory c) ->
  (let c' := Character.equipment_turn c [Character.CallEquip i] in
   Character.one_per_slot (Character.inventory c')
   /\ (forall item sl,
         Character.index (Character.inventory c) i = Some item ->
         Item.equipable (Item.stats item) = true ->
         Character.slot_of_subtype (Item.subtype item) = Some sl ->
         Character.getEquippedSync c' sl
         = Some (Z.to_nat i, Item.with_equipped_slot (Some sl) item))
   /\ ((forall item, Character.index (Character.inventory c) i = Some item ->
          Item.equipable (Item.stats item) = false
          \/ Character.slot_of_subtype (Item.subtype item) = None) ->
       Character.equip_call c i = None /\ c' = c))
  /\ (forall a b sl,
        Character.index (Character.inventory c) i = Some a ->
        Character.index (Character.inventory c) k = Some b ->
        i <> k ->
        Item.equipable (Item.stats a) = true -> Item.equipable (Item.stats b) = true ->
        Character.slot_of_subtype (Item.subtype a) = Some sl ->
        Character.slot_of_subtype (Item.subtype b) = Some sl ->
        Item.equipped_slot a <> Some sl -> Item.equipped_slot b <> Some sl ->
        let c' := Character.equipment_turn c [Character.CallEquip i; Character.CallEquip k] in
        Character.inventory c' !! Z.to_nat i = Some (Item.with_equipped_slot (Some sl) a)
        /\ Character.inventory c' !! Z.to_nat k = Some (Item.with_equipped_slot (Some sl) b)
        /\ ~ Character.one_per_slot (Character.inventory c')).
Proof.
  intros Hone. split.
  - cbv zeta. rewrite equipment_turn_equip.
    destruct (equip_one_per_slot c i Hone) as (H1 & H2 & H3).
    split; [exact H1|]. split; [exact H2|].
    intros Hfail. split; [|by rewrite H3].
    unfold Character.equip_call.
    destruct (Character.index (Character.inventory c) i) as [item|]; [|done].
    destruct (Hfail item eq_refl) as [-> | ->]; [done|]. by destruct (negb _).
  - intros a b sl Ha Hb Hik Hea Heb Hsa Hsb Hna Hnb c'.
    destruct (index_nat _ _ _ Ha) as [Hi0 Hai].
    destruct (index_nat _ _ _ Hb) as [Hk0 Hbk].
    assert (Hne : Z.to_nat i <> Z.to_nat k) by lia.
    assert (Hboth : Character.inventory c' !! Z.to_nat i
                      = Some (Item.with_equipped_slot (Some sl) a)
                    /\ Character.inventory c' !! Z.to_nat k
                      = Some (Item.with_equipped_slot (Some sl) b)).
    { unfold c', Character.equipment_turn. simpl.
      rewrite (equip_call_slot c i a sl), (equip_call_slot c k b sl) by done.
      destruct (Character.getEquippedSync c sl) as [[j x]|] eqn:Hget; simpl.
      - assert (j <> Z.to_nat i) by (by eapply getEquippedSync_other).
        assert (j <> Z.to_nat k) by (by eapply getEquippedSync_other).
        split.
        + rewrite list_lookup_alter_ne by done.
          rewrite list_lookup_alter_ne by done.
          rewrite list_lookup_alter_eq, list_lookup_alter_ne by done.
          by rewrite Hai.
        + rewrite list_lookup_alter_eq, list_lookup_alter_ne by done.
          rewrite list_lookup_alter_ne by done.
          rewrite list_lookup_alter_ne by done. by rewrite Hbk.
      - split.
        + rewrite list_lookup_alter_ne by done.
          by rewrite list_lookup_alter_eq, Hai.
        + rewrite list_lookup_alter_eq, list_lookup_alter_ne by done. by rewrite Hbk. }
    destruct Hboth as [H1 H2]. split; [exact H1|]. split; [exact H2|].
    intros Hone'. apply Hne. by eapply (Hone' _ _ _ _ sl).
Qed.

Lemma X8_equip_one_item_per_slot_witness :
  let c' := Character.equipment_turn Examples.alice_two_knives
              [Character.CallEquip 0; Character.CallEquip 1] in
  Character.inventory c' !! 0%nat = Some (Item.with_equipped_slot (Some "melee") Examples.knife)
  /\ Character.inventory c' !! 1%nat = Some (Item.with_equipped_slot (Some "melee") Examples.knife)
  /\ ~ Character.one_per_slot (Character.inventory c').
Proof.
  assert (Hone : Character.one_per_slot (Character.inventory Examples.alice_two_knives)).
  { intros [|[|p]] [|[|q]] a b sl Ha Hb; simpl in *; try done;
      injection Ha as <-; discriminate. }
  destruct (X8_equip_one_item_per_slot Examples.alice_two_knives 0 1 Hone) as [_ H].
  apply (H Examples.knife Examples.knife "melee"); try reflexivity; discriminate.
Defined.

(** With no slot taken twice, [unEquip(slot)] whose callback runs before
    anything else leaves that slot empty, keeps every item that was not in
    it as it was, and no slot is taken twice afterwards; without a slot
    name it does nothing. *)
Lemma unEquip_alone (c : Character.t) (sl : string) :
  Character.one_per_slot (Character.inventory c) -> sl <> "" ->
  let c' := (Character.unEquip c (Some sl)).1 in
  Character.getEquippedSync c' sl = None
  /\ Character.one_per_slot (Character.inventory c')
  /\ (forall p q, Character.inventory c !! p = Some q ->
        Item.equipped_slot q <> Some sl -> Character.inventory c' !! p = Some q)
  /\ Character.unEquip c None = (c, [])
  /\ Character.unEquip c (Some "") = (c, []).
Proof.
  intros Hone Hsl c'.
  pose proof (unEquip_lookup c sl Hsl Hone) as Hlook. fold c' in Hlook.
  split; [|split; [|split; [|done]]].
  - unfold Character.getEquippedSync. apply list_find_None, Forall_lookup.
    intros p q Hq Hs. by destruct (Hlook p q sl Hq Hs).
  - intros p1 p2 a b s Ha Hb Hsa Hsb.
    destruct (Hlook p1 a s Ha Hsa) as [_ Ha0].
    destruct (Hlook p2 b s Hb Hsb) as [_ Hb0]. by eapply Hone.
  - intros p q Hq Hs. unfold c', Character.unEquip, Character.unEquip_call. simpl.
    destruct (String.eqb_spec sl "") as [|_]; [done|]. simpl.
    unfold Character.getEquippedSync.
    destruct (list_find _ (Character.inventory c)) as [[j x]|] eqn:Hfind; [|done].
    simpl. apply list_find_Some in Hfind as (Hj & Hx & _).
    rewrite list_lookup_alter_ne; [done|]. intros ->. congruence.
Qed.

(** X9: with no slot taken twice, a call of [unEquip(slot)] whose callback
    runs before the next call leaves that slot empty, keeps every item that
    was not in it as it was, and no slot is taken twice afterwards; without
    a slot name nothing is registered.  But the callback clears the item
    that held the slot when [unEquip] was called: after [equip] for another
    item of that slot and [unEquip(slot)], both called before the callbacks
    run, the slot holds the newly equipped item. *)
Theorem X9_unEquip_frees_slot (c : Character.t) (sl : string) (k : Z) :
  Character.one_per_slot (Character.inventory c) -> sl <> "" ->
  (let c' := Character.equipment_turn c [Character.CallUnEquip (Some sl)] in
   Character.getEquippedSync c' sl = None
   /\ Character.one_per_slot (Character.inventory c')
   /\ (forall p q, Character.inventory c !! p = Some q ->
         Item.equipped_slot q <> Some sl -> Character.inventory c' !! p = Some q)
   /\ Character.unEquip_call c None = None
   /\ Character.unEquip_call c (Some "") = None)
  /\ (forall j x b,
        Character.getEquippedSync c sl = Some (j, x) ->
        Character.index (Character.inventory c) k = Some b ->
        j <> Z.to_nat k ->
        Item.equipable (Item.stats b) = true ->
        Character.slot_of_subtype (Item.subtype b) = Some sl ->
        let c' := Character.equipment_turn c
                    [Character.CallEquip k; Character.CallUnEquip (Some sl)] in
        Character.getEquippedSync c' sl
        = Some (Z.to_nat k, Item.with_equipped_slot (Some sl) b)).
Proof.
  intros Hone Hsl. split.
  - cbv zeta. rewrite equipment_turn_unEquip.
    destruct (unEquip_alone c sl Hone Hsl) as (H1 & H2 & H3 & _).
    split; [exact H1|]. split; [exact H2|]. split; [exact H3|]. done.
  - intros j x b Hget Hb Hjk Heb Hsb c'.
    destruct (index_nat _ _ _ Hb) as [Hk0 Hbk].
    assert (Hinv : Character.inventory c'
                   = alter (Item.with_equipped_slot None) j
                       (alter (Item.with_equipped_slot (Some sl)) (Z.to_nat k)
                          (alter (Item.with_equipped_slot None) j (Character.inventory c)))).
    { unfold c', Character.equipment_turn. simpl.
      rewrite (equip_call_slot c k b sl) by done.
      unfold Character.unEquip_call. simpl.
      destruct (String.eqb_spec sl "") as [|_]; [done|]. simpl.
      by rewrite Hget. }
    pose proof Hget as (Hj & Hx & _)%list_find_Some.
    unfold Character.getEquippedSync. apply list_find_Some. rewrite Hinv.
    split; [|split; [done|]].
    + rewrite list_lookup_alter_ne by done.
      rewrite list_lookup_alter_eq, list_lookup_alter_ne by done. by rewrite Hbk.
    + intros p q Hq Hlt Hs.
      destruct (decide (j = p)) as [<-|Hjp].
      * rewrite list_lookup_alter_eq in Hq.
        destruct (alter _ _ _ !! j) as [q0|]; [|done].
        injection Hq as <-. done.
      * rewrite list_lookup_alter_ne in Hq by done.
        rewrite list_lookup_alter_ne in Hq by lia.
        rewrite list_lookup_alter_ne in Hq by done.
        apply Hjp. by eapply (Hone j p x q sl).
Qed.

Lemma X9_unEquip_frees_slot_witness :
  Character.getEquippedSync
    (Character.equipment_turn Examples.alice_knife_in_hand
       [Character.CallEquip 1; Character.CallUnEquip (Some "melee")]) "melee"
  = Some (1%nat, Item.with_equipped_slot (Some "melee") Examples.knife).
Proof.
  assert (Hone : Character.one_per_slot (Character.inventory Examples.alice_knife_in_hand)).
  { intros [|[|p]] [|[|q]] a b sl Ha Hb; simpl in *; try done.
    - injection Hb as <-. intros _ ?. discriminate.
    - injection Ha as <-. intros ?. discriminate. }
  destruct (X9_unEquip_frees_slot Examples.alice_knife_in_hand "melee" 1 Hone) as [_ H];
    [discriminate|].
  apply (H 0%nat (Item.with_equipped_slot (Some "melee") Examples.knife) Examples.knife);
    try reflexivity; discriminate.
Defined.

(** ** Taking and dropping *)

Lemma quantity_delete (inv : list Item.t) (n : nat) (x : Item.t) :
  inv !! n = Some x ->
  Character.quantity (delete n inv) = Character.quantity inv - Item.durability x.
Proof.
  revert n. induction inv as [|a inv IH]; intros [|n] Hn; simplify_eq/=; [lia|].
  rewrite (IH n Hn). lia.
Qed.

Lemma quantity_alter (f : Item.t -> Item.t) (inv : list Item.t) (n : nat) (x : Item.t) :
  inv !! n = Some x ->
  Character.quantity (alter f n inv)
  = Character.quantity inv - Item.durability x + Item.durability (f x).
Proof.
  revert n. induction inv as [|a inv IH]; intros [|n] Hn; simplify_eq/=; [lia|].
  rewrite (IH n Hn). lia.
Qed.

Lemma index_lookup {A} (l : list A) (i : Z) (x : A) :
  Character.index l i = Some x <-> 0 <= i /\ l !! Z.to_nat i = Some x.
Proof.
  unfold Character.index. destruct (Z.ltb_spec i 0).
  - split; [done|]. intros [? _]. lia.
  - split; [intros ?; split; [lia|done]|]. by intros [_ ?].
Qed.

(** X10: [takeItem] conserves the [durability] counters: whatever it
    returns (a whole item, a part of a stack, or nothing), the counters left
    in the inventory plus the counter of the returned item add up to the
    counters before; and it returns, without throwing, whenever the index
    holds an item whose template is in the item list. *)
Theorem X10_takeItem_conserves_quantity
    (itemList : string -> option Item.t) (c : Character.t) (i amount : Z) :
  (forall c' r, Character.takeItem itemList c i amount = Character.Returns (c', r) ->
     Character.quantity (Character.inventory c') + default 0 (Item.durability <$> r)
     = Character.quantity (Character.inventory c))
  /\ (forall selected template,
        Character.index (Character.inventory c) i = Some selected ->
        itemList (Item.id selected) = Some template ->
        exists c' r, Character.takeItem itemList c i amount = Character.Returns (c', r)).
Proof.
  split.
  - intros c' r. unfold Character.takeItem, Character.splice1.
    destruct (Character.index _ _) as [selected|] eqn:Hi; [|done].
    apply index_lookup in Hi as [_ Hn].
    destruct (itemList _) as [template|]; [|done].
    destruct (negb _).
    { intros [= <- <-]. simpl. rewrite (quantity_delete _ _ _ Hn). lia. }
    destruct (Z.ltb_spec (Item.durability selected) amount).
    { intros [= <- <-]. simpl. lia. }
    destruct (Z.leb_spec (Item.durability selected - amount) 0);
      intros [= <- <-]; simpl.
    + rewrite (quantity_delete _ _ (Item.with_durability (Item.durability selected - amount) selected)).
      * rewrite (quantity_alter _ _ _ _ Hn). simpl. lia.
      * by rewrite list_lookup_alter_eq, Hn.
    + rewrite (quantity_alter _ _ _ _ Hn). simpl. lia.
  - intros selected template Hi Ht. unfold Character.takeItem. rewrite Hi, Ht.
    repeat case_match; eauto.
Qed.

Lemma X10_takeItem_conserves_quantity_witness :
  let c := Character.with_inventory [Examples.knife; Examples.rounds] Examples.alice in
  exists c' r,
    Character.takeItem Examples.itemList c 1 8 = Character.Returns (c', r)
    /\ Character.quantity (Character.inventory c') + default 0 (Item.durability <$> r) = 20.
Proof.
  intros c.
  destruct (X10_takeItem_conserves_quantity Examples.itemList c 1 8) as [Hsum Hret].
  destruct (Hret Examples.rounds Examples.rounds eq_refl eq_refl) as (c' & r & Htake).
  exists c', r. split; [exact Htake|]. exact (Hsum c' r Htake).
Defined.

Lemma lower_char_idemp (a : ascii) : JS.lower_char (JS.lower_char a) = JS.lower_char a.
Proof. destruct a as [[] [] [] [] [] [] [] []]; reflexivity. Qed.

Lemma toLowerCase_idemp (s : string) : JS.toLowerCase (JS.toLowerCase s) = JS.toLowerCase s.
Proof. induction s as [|a s IH]; simpl; [done|]. by rewrite lower_char_idemp, IH. Qed.

Lemma startsWith_refl (s : string) : JS.startsWith s s = true.
Proof.
  unfold JS.startsWith. induction s as [|a s IH]; simpl; [done|].
  by destruct (ascii_dec a a).
Qed.

(** X11: [dropRandomItem] hands the lower-cased name of the picked item to
    [dropItem], which reads a name that begins with a number as an inventory
    index.  When the name does not begin with a number the call returns and
    the inventory does not grow; when it does and the number is not an index
    of the inventory (and not -1), the call throws. *)
Theorem X11_dropRandomItem_numeric_name
    (add : string -> option Z -> Item.t) (c : Character.t) (pick rnd : Z) (item : Item.t) :
  Character.index (Character.inventory c) pick = Some item ->
  (JS.parseInt (JS.toLowerCase (Item.name item)) = None ->
   exists c' r calls,
     Character.dropRandomItem add c pick rnd = Character.Returns (c', r, calls)
     /\ (length (Character.inventory c') <= length (Character.inventory c))%nat)
  /\ (forall n, JS.parseInt (JS.toLowerCase (Item.name item)) = Some n ->
        n <> -1 -> Character.index (Character.inventory c) n = None ->
        Character.dropRandomItem add c pick rnd = Character.Throws).
Proof.
  intros Hpick.
  assert (Hlen : (length (Character.inventory c) =? 0)%nat = false).
  { apply index_lookup in Hpick as [_ Hp]. apply lookup_lt_Some in Hp.
    destruct (length _); [lia|done]. }
  unfold Character.dropRandomItem. rewrite Hlen, Hpick. split.
  - intros Hname.
    destruct (Character.dropItem add c _ 1 true rnd) as [[[c' r] calls]|] eqn:Hdrop.
    { exists c', r, calls. split; [done|]. by apply dropItem_length in Hdrop as [_ ?]. }
    exfalso. revert Hdrop. unfold Character.dropItem. rewrite Hname.
    destruct (list_find _ _) as [[j x]|] eqn:Hfind.
    2: { apply list_find_None in Hfind. apply index_lookup in Hpick as [_ Hp].
         eapply Forall_lookup_1 in Hfind; [|exact Hp]. destruct Hfind.
         rewrite toLowerCase_idemp. apply startsWith_refl. }
    apply list_find_Some in Hfind as (Hj & _ & _).
    assert (Hidx : forall l : list Item.t, length l = length (Character.inventory c) ->
              is_Some (Character.index l (Z.of_nat j))).
    { intros l Hl. unfold Character.index.
      destruct (Z.ltb_spec (Z.of_nat j) 0); [lia|]. rewrite Nat2Z.id.
      apply lookup_lt_is_Some. rewrite Hl. by eapply lookup_lt_Some. }
    destruct (Z.eqb_spec (Z.of_nat j) (-1)); [lia|].
    destruct (Hidx (Character.inventory c) eq_refl) as [it ->]. simpl.
    destruct (Item.truthy (Item.slot it)).
    + pose proof (unEquip_length c (Item.slot it)) as [_ Hl].
      destruct (Character.unEquip c (Item.slot it)) as [c1 calls1]. simpl in Hl.
      destruct (Hidx (Character.inventory c1) Hl) as [it1 ->].
      repeat case_match; done.
    + destruct (Hidx (Character.inventory c) eq_refl) as [it1 ->].
      repeat case_match; done.
  - intros n Hname Hn Hout. unfold Character.dropItem. rewrite Hname.
    destruct (Z.eqb_spec n (-1)); [done|]. by rewrite Hout.
Qed.

Lemma X11_dropRandomItem_numeric_name_witness :
  (exists c' r calls,
     Character.dropRandomItem Examples.itemManager_add Examples.alice_knife 0 0
     = Character.Returns (c', r, calls)
     /\ (length (Character.inventory c') <= 1)%nat)
  /\ Character.dropRandomItem Examples.itemManager_add
       (Character.with_inventory [Examples.rounds] Examples.alice) 0 0
     = Character.Throws.
Proof.
  split.
  - destruct (X11_dropRandomItem_numeric_name Examples.itemManager_add
                Examples.alice_knife 0 0 Examples.knife eq_refl) as [H _].
    exact (H eq_refl).
  - destruct (X11_dropRandomItem_numeric_name Examples.itemManager_add
                (Character.with_inventory [Examples.rounds] Examples.alice) 0 0
                Examples.rounds eq_refl) as [_ H].
    apply (H 9); [reflexivity|discriminate|reflexivity].
Defined.

(** ** Capacity check and gifts *)

(** X12: for an item that is not stackable, [hasRoomForItem] accepts a
    negative amount as soon as the room left is at least that amount, a full
    inventory included, and [giveItem] with that amount still adds the item:
    the inventory grows by one entry. *)
Theorem X12_negative_amount_passes_check
    (add : string -> option Z -> Item.t) (c : Character.t) (itemObj : Item.t) (amount : Z) :
  Item.stackable (Item.stats itemObj) = false ->
  amount < 0 -> amount <= Character.inventorySpaceLeft c ->
  Character.hasRoomForItem c itemObj amount = true
  /\ Character.giveItem add 2 c itemObj amount
     = Some (Character.with_inventory (Character.inventory c ++ [itemObj]) c).
Proof.
  intros Hns Hneg Hroom. split.
  - unfold Character.hasRoomForItem. rewrite Hns.
    destruct (Z.eqb_spec amount 0); [lia|].
    destruct (Z.ltb_spec (Character.inventorySpaceLeft c - amount) 0); [lia|done].
  - rewrite giveItem_unfold, Hns. cbv zeta.
    destruct (Z.eqb_spec amount 0); [lia|].
    replace (Z.to_nat (amount - 1)) with 0%nat by lia. done.
Qed.

Lemma X12_negative_amount_passes_check_witness :
  Character.inventorySpaceLeft Examples.alice_full = 0
  /\ Character.hasRoomForItem Examples.alice_full Examples.knife (-1) = true
  /\ Character.giveItem Examples.itemManager_add 2 Examples.alice_full Examples.knife (-1)
     = Some (Character.with_inventory [Examples.knife; Examples.knife] Examples.alice_full).
Proof.
  split; [reflexivity|].
  apply (X12_negative_amount_passes_check Examples.itemManager_add
           Examples.alice_full Examples.knife (-1)).
  - reflexivity.
  - lia.
  - vm_compute. discriminate.
Defined.

(** ** Damage, further *)

Lemma alter_as_insert {A} (f : A -> A) (l : list A) (j : nat) (x : A) :
  l !! j = Some x -> alter f j l = <[j := f x]> l.
Proof.
  revert j. induction l as [|a l IH]; intros [|j]; simpl; try done.
  - by intros [= ->].
  - intros Hj. f_equal. by apply IH.
Qed.

(** X13: for a non-negative amount against armour of non-negative rating and
    durability, what [dealDamage] reports as blocked and as dealt adds up to
    the amount and health never rises.  The call itself writes the health
    and the durability of the armour in use, and nothing else: every other
    field of the character and every other item is as before, the armour
    keeps all but its durability, and with [ignoreArmor] or without armour
    the inventory is as it was. *)
Theorem X13_dealDamage_splits_amount (c : Character.t) (damage : Z) (ignoreArmor : bool) :
  0 <= damage ->
  (forall j it, Character.getEquippedSync c "armor" = Some (j, it) ->
     0 <= Item.damage_reduction (Item.stats it) /\ 0 <= Item.durability it) ->
  let '(c', r, _) := Character.dealDamage c damage ignoreArmor in
  Character.damageBlocked r + Character.damageDealt r = damage
  /\ 0 <= Character.damageBlocked r
  /\ 0 <= Character.damageDealt r
  /\ (0 <= Character.health (Character.stats c) ->
      0 <= Character.healthLeft r <= Character.health (Character.stats c))
  /\ c' = Character.with_health (Character.healthLeft r)
            (Character.with_inventory (Character.inventory c') c)
  /\ Character.inventory c'
     = match Character.getEquippedSync c "armor" with
       | Some (j, it) =>
           if ignoreArmor then Character.inventory c
           else <[j := Item.with_durability (Character.durabilityLeft r) it]>
                  (Character.inventory c)
       | None => Character.inventory c
       end.
Proof.
  intros Hd Harmor. unfold Character.dealDamage.
  destruct (Character.getEquippedSync c "armor") as [[j it]|] eqn:Hget.
  - destruct (Harmor j it eq_refl) as [Hr Hdur].
    apply list_find_Some in Hget as (Hj & _ & _).
    destruct ignoreArmor; simpl;
      (split; [lia|]); (split; [lia|]); (split; [lia|]); (split; [lia|]);
      (split; [done|]); [done|].
    by apply alter_as_insert.
  - simpl. (split; [lia|]); (split; [lia|]); (split; [lia|]); (split; [lia|]); done.
Qed.

Lemma X13_dealDamage_splits_amount_witness :
  let '(c', r, _) := Character.dealDamage Examples.alice_armored 8 false in
  Character.damageBlocked r + Character.damageDealt r = 8
  /\ Character.inventory c'
     = [Item.with_durability 0 (Item.with_equipped_slot (Some "armor") Examples.vest)].
Proof.
  pose proof (X13_dealDamage_splits_amount Examples.alice_armored 8 false) as H.
  destruct (Character.dealDamage Examples.alice_armored 8 false) as [[c' r] calls] eqn:Hrun.
  destruct H as (Hsum & _ & _ & _ & _ & Hinv).
  - lia.
  - intros j it [= <- <-]. simpl. lia.
  - split; [exact Hsum|]. rewrite Hinv.
    injection Hrun as <- <- <-. reflexivity.
Defined.

(** X14: a negative amount never changes a non-negative health, is reported
    as dealt 0, and raises the durability of the armour in use (of
    non-negative rating and durability) by its size; the armour is not
    reported ruined. *)
Theorem X14_negative_damage_mends_armor (c : Character.t) (damage : Z) (j : nat) (it : Item.t) :
  damage < 0 ->
  0 <= Character.health (Character.stats c) ->
  Character.getEquippedSync c "armor" = Some (j, it) ->
  0 <= Item.damage_reduction (Item.stats it) -> 0 <= Item.durability it ->
  let '(c', r, calls) := Character.dealDamage c damage false in
  Character.damageDealt r = 0
  /\ Character.health (Character.stats c') = Character.health (Character.stats c)
  /\ Character.inventory c' !! j
     = Some (Item.with_durability (Item.durability it - damage) it)
  /\ Character.armorRuined r = false
  /\ calls = [].
Proof.
  intros Hd Hh Hget Hr Hdur. unfold Character.dealDamage. rewrite Hget. simpl.
  apply list_find_Some in Hget as (Hj & _ & _).
  rewrite list_lookup_alter_eq, Hj. simpl.
  replace (Z.max 0 (Item.durability it - damage)) with (Item.durability it - damage) by lia.
  assert ((Item.durability it - damage =? 0) = false) as -> by lia. simpl.
  repeat split; lia.
Qed.

Lemma X14_negative_damage_mends_armor_witness :
  Character.inventory (Character.dealDamage Examples.alice_armored (-3) false).1.1 !! 0%nat
  = Some (Item.with_durability 8 (Item.with_equipped_slot (Some "armor") Examples.vest)).
Proof.
  pose proof (X14_negative_damage_mends_armor Examples.alice_armored (-3) 0%nat
                (Item.with_equipped_slot (Some "armor") Examples.vest)) as H.
  destruct (Character.dealDamage Examples.alice_armored (-3) false) as [[c' r] calls].
  destruct H as (_ & _ & Hinv & _).
  - lia.
  - simpl. lia.
  - reflexivity.
  - simpl. lia.
  - simpl. lia.
  - exact Hinv.
Defined.

(** ** Health and experience *)

(** X15: on whole numbers in the range where sums are exact,
    [updateHealth] keeps health between 0 and the maximum (for a maximum
    that is not negative) and adds the amount exactly when the sum lies in
    that range; [updateExp] adds the amount and never leaves the experience
    below 0.  [updateHealth] writes the health and [updateExp] the
    experience, and neither writes anything else of the character. *)
Theorem X15_updateHealth_clamps (c : Character.t) (amount : Z) :
  0 <= Character.health_max (Character.stats c) ->
  JS.isSafeInteger amount = true ->
  JS.isSafeInteger (Character.health (Character.stats c)) = true ->
  JS.isSafeInteger (Character.health_max (Character.stats c)) = true ->
  JS.isSafeInteger (Character.health (Character.stats c) + amount) = true ->
  JS.isSafeInteger (Character.exp (Character.stats c)) = true ->
  JS.isSafeInteger (Character.exp (Character.stats c) + amount) = true ->
  let h := Character.health (Character.stats (Character.updateHealth amount c)) in
  let e := Character.exp (Character.stats (Character.updateExp amount c)) in
  0 <= h <= Character.health_max (Character.stats c)
  /\ (0 <= Character.health (Character.stats c) + amount
        <= Character.health_max (Character.stats c) ->
      h = Character.health (Character.stats c) + amount)
  /\ Character.updateHealth amount c = Character.with_health h c
  /\ 0 <= e
  /\ (0 <= Character.exp (Character.stats c) + amount ->
      e = Character.exp (Character.stats c) + amount)
  /\ Character.updateExp amount c
     = Character.with_stats
         (Character.mkStats
            (Character.health (Character.stats c)) (Character.health_max (Character.stats c))
            (Character.money (Character.stats c)) (Character.bank (Character.stats c))
            e (Character.inventorySize (Character.stats c))) c.
Proof.
  intros Hmax _ _ _ _ _ _. unfold Character.updateHealth, Character.updateExp. simpl.
  destruct (Z.ltb_spec (Character.health_max (Character.stats c))
              (Z.max 0 (Character.health (Character.stats c) + amount)));
    simpl; repeat split; lia.
Qed.

Lemma X15_updateHealth_clamps_witness :
  0 <= Character.health (Character.stats (Character.updateHealth (-250) Examples.alice))
    <= Character.health_max (Character.stats Examples.alice)
  /\ 0 <= Character.exp (Character.stats (Character.updateExp (-250) Examples.alice)).
Proof.
  pose proof (X15_updateHealth_clamps Examples.alice (-250)) as H.
  cbv zeta in H.
  destruct H as (H1 & _ & _ & H4 & _); [simpl; lia|reflexivity..|].
  split; [exact H1|exact H4].
Defined.


(** ** Registering and listing commands *)

Section Registry.
Import CommandManager.

Lemma commandKey_slash (name : string) : JS.at_ (commandKey name) 0 = Some "/"%char.
Proof. unfold commandKey. by destruct (decide _). Qed.

Lemma register_own_name_main l commands obj :
  own_name l commands -> obj ∈ l ->
  own_name l (register commands (command obj) obj false).1.
Proof.
  intros Hown Hobj k c. unfold register.
  destruct (commands !! commandKey (command obj)) eqn:Hk; simpl; [apply Hown|].
  rewrite lookup_insert_Some. intros [[<- <-]|[_ Hc]]; [|by apply Hown].
  intros _. by exists obj.
Qed.

Lemma register_own_name_alias l commands alias obj :
  own_name l commands -> own_name l (register commands alias obj true).1.
Proof.
  intros Hown k c. unfold register.
  destruct (commands !! commandKey alias) eqn:Hk; simpl; [apply Hown|].
  rewrite lookup_insert_Some. intros [[<- <-]|[_ Hc]]; [done|by apply Hown].
Qed.

Lemma aliases_own_name l obj (names : list string) acc :
  own_name l acc.1 ->
  own_name l (fold_left
                (fun '(commands, warned) alias =>
                   let '(commands, w) := register commands alias obj true in
                   (commands, warned ++ w))
                names acc).1.
Proof.
  revert acc. induction names as [|alias names IH]; intros [commands warned] Hown; [done|].
  simpl. apply IH.
  pose proof (register_own_name_alias l commands alias obj Hown) as H.
  by destruct (register commands alias obj true).
Qed.

Lemma registerManager_own_name l (objs : list CommandObject) acc :
  own_name l acc.1 -> (forall obj, obj ∈ objs -> obj ∈ l) ->
  own_name l (fold_left
                (fun '(commands, warned) obj =>
                   let '(commands, w) := register commands (command obj) obj false in
                   fold_left
                     (fun '(commands, warned) alias =>
                        let '(commands, w) := register commands alias obj true in
                        (commands, warned ++ w))
                     (default [] (aliases obj)) (commands, warned ++ w))
                objs acc).1.
Proof.
  revert acc. induction objs as [|obj objs IH]; intros [commands warned] Hown Hsub; [done|].
  simpl. apply IH; [|intros o Ho; apply Hsub; by right].
  pose proof (register_own_name_main l commands obj Hown (Hsub obj ltac:(left))) as H.
  destruct (register commands (command obj) obj false) as [commands1 w].
  by apply aliases_own_name.
Qed.

End Registry.

(** X16: [register] never replaces an entry: every key keeps the object it
    had, a key that was free gets the object with its alias flag and no
    warning, a key that was taken leaves the table as it is and is warned
    about; the key is the name with a leading slash, so every new key
    starts with a slash. *)
Theorem X16_register_never_overwrites
    (commands : gmap string CommandManager.CommandObject)
    (name : string) (obj : CommandManager.CommandObject) (isAlias : bool) :
  let '(commands', warned) := CommandManager.register commands name obj isAlias in
  let key := CommandManager.commandKey name in
  (forall k v, commands !! k = Some v -> commands' !! k = Some v)
  /\ JS.at_ key 0 = Some "/"%char
  /\ (commands !! key = None ->
      commands' = <[key := CommandManager.with_isAlias isAlias obj]> commands
      /\ warned = [])
  /\ (is_Some (commands !! key) -> commands' = commands /\ warned = [key])
  /\ (forall k, is_Some (commands' !! k) -> is_Some (commands !! k) \/ k = key).
Proof.
  unfold CommandManager.register.
  destruct (commands !! CommandManager.commandKey name) as [old|] eqn:Hk; simpl.
  - split; [done|]. split; [apply commandKey_slash|]. split; [done|]. split; [done|].
    intros k Hsome. by left.
  - split.
    { intros k v Hv. rewrite lookup_insert_ne; [done|]. intros <-. congruence. }
    split; [apply commandKey_slash|]. split; [done|].
    split; [by intros [? ?]|].
    intros k. destruct (decide (CommandManager.commandKey name = k)) as [<-|Hne];
      [by right|]. rewrite lookup_insert_ne by done. by left.
Qed.

Lemma X16_register_never_overwrites_witness :
  let table := (CommandManager.register ∅ "/say" Examples.say false).1 in
  (CommandManager.register table "s" Examples.shout false).1 !! "/say"
  = Some Examples.say
  /\ (CommandManager.register table "say" Examples.shout true).1 = table.
Proof.
  intros table.
  pose proof (X16_register_never_overwrites table "s" Examples.shout false) as H1.
  pose proof (X16_register_never_overwrites table "say" Examples.shout true) as H2.
  destruct (CommandManager.register table "s" Examples.shout false) as [t1 w1].
  destruct (CommandManager.register table "say" Examples.shout true) as [t2 w2].
  destruct H1 as (Hkeep & _). destruct H2 as (_ & _ & _ & Htaken & _).
  split.
  - apply Hkeep. vm_compute. reflexivity.
  - apply Htaken. vm_compute. eauto.
Defined.

(** X17: after [registerManager] on an empty table, [getList] only has
    commands of the list under the key of their own name, each with its
    description (or the empty text) and its alias names (or none): no alias
    key is listed. *)
Theorem X17_getList_lists_own_names
    (objs : list CommandManager.CommandObject) (k : string) (d : string * list string) :
  CommandManager.getList (CommandManager.registerManager ∅ objs).1 !! k = Some d ->
  exists obj,
    obj ∈ objs /\ k = CommandManager.commandKey (CommandManager.command obj)
    /\ d = (default "" (CommandManager.object_description obj),
            default [] (CommandManager.aliases obj)).
Proof.
  unfold CommandManager.getList. rewrite lookup_fmap_Some.
  intros (c & <- & [Hc Halias]%map_lookup_filter_Some). simpl in Halias.
  assert (Hown : CommandManager.own_name objs (CommandManager.registerManager ∅ objs).1).
  { apply registerManager_own_name; [|done]. intros k' c'. simpl. by rewrite lookup_empty. }
  destruct (Hown k c Hc Halias) as (obj & Hobj & -> & ->). by exists obj.
Qed.

Lemma X17_getList_lists_own_names_witness :
  exists obj,
    obj ∈ [Examples.say; Examples.shout]
    /\ "/say" = CommandManager.commandKey (CommandManager.command obj)
    /\ ("Speak to the room", ["s"])
       = (default "" (CommandManager.object_description obj),
          default [] (CommandManager.aliases obj)).
Proof.
  apply (X17_getList_lists_own_names [Examples.say; Examples.shout] "/say"
           ("Speak to the room", ["s"])).
  vm_compute. reflexivity.
Defined.

(** ** Tokenising *)

Section Tokens.
Import CommandManager.

Lemma string_app_cons (x : ascii) (a b : string) :
  String x a +:+ b = String x (a +:+ b).
Proof. reflexivity. Qed.

Lemma string_app_nil_l (a : string) : "" +:+ a = a.
Proof. reflexivity. Qed.

Lemma string_app_assoc (a b c : string) : (a +:+ b) +:+ c = a +:+ (b +:+ c).
Proof.
  induction a as [|x a IH]; [done|]. rewrite !string_app_cons. by rewrite IH.
Qed.

Lemma string_app_nil_r (a : string) : a +:+ "" = a.
Proof. induction a as [|x a IH]; [done|]. rewrite string_app_cons. by rewrite IH. Qed.

Lemma join_snoc (sep : string) (l : list string) (x : string) :
  JS.join sep (l ++ [x])
  = match l with [] => x | _ => JS.join sep l +:+ sep +:+ x end.
Proof.
  induction l as [|a l IH]; [done|].
  destruct l as [|b l]; [done|].
  change (JS.join sep ((a :: b :: l) ++ [x]))
    with (a +:+ sep +:+ JS.join sep ((b :: l) ++ [x])).
  rewrite IH. cbv beta iota.
  change (JS.join sep (a :: b :: l)) with (a +:+ sep +:+ JS.join sep (b :: l)).
  by rewrite !string_app_assoc.
Qed.

(** The text read so far is the finished parameters and the one being
    read, joined by single spaces. *)
Lemma parseParameters_loop_join (s : string) (params : list string)
    (insideString : bool) (param : string) :
  let r := parseParameters_loop s params insideString param in
  JS.join " " r = JS.join " " (params ++ [param]) +:+ s
  \/ JS.join " " r +:+ " " = JS.join " " (params ++ [param]) +:+ s.
Proof.
  revert params insideString param.
  induction s as [|c s IH]; intros params ins param; simpl.
  - rewrite string_app_nil_r. destruct param as [|x param]; simpl.
    + rewrite join_snoc. destruct params as [|p params]; [by left|].
      right. by rewrite string_app_nil_r.
    + by left.
  - destruct (Ascii.eqb c JS.space && negb ins) eqn:Hsp.
    + apply andb_prop in Hsp as [Hc _]. apply Ascii.eqb_eq in Hc. subst c.
      specialize (IH (params ++ [param]) ins "").
      rewrite (join_snoc " " (params ++ [param]) "") in IH.
      assert (Hne : params ++ [param] <> []) by (by destruct params).
      destruct (params ++ [param]) as [|p0 l0]; [done|].
      rewrite !string_app_assoc in IH. exact IH.
    + specialize (IH params
                    (if Ascii.eqb c JS.quote then negb ins else ins)
                    (param +:+ String c "")).
      assert (Hglue : JS.join " " (params ++ [param +:+ String c ""]) +:+ s
                      = JS.join " " (params ++ [param]) +:+ String c s).
      { rewrite !join_snoc. destruct params; by rewrite !string_app_assoc. }
      by rewrite Hglue in IH.
Qed.

(** A stretch without quotes, read inside a quoted span, goes to the
    parameter being read as it is. *)
Lemma parseParameters_loop_inside (body rest : string) (params : list string) (param : string) :
  JS.includes_char JS.quote body = false ->
  parseParameters_loop (body +:+ rest) params true param
  = parseParameters_loop rest params true (param +:+ body).
Proof.
  revert param. induction body as [|c body IH]; intros param Hq.
  - by rewrite string_app_nil_l, string_app_nil_r.
  - rewrite string_app_cons. simpl. simpl in Hq. rewrite andb_false_r.
    destruct (Ascii.eqb c JS.quote); [done|].
    rewrite IH by done. by rewrite string_app_assoc.
Qed.

(** A stretch without quotes and without spaces, read outside a quoted
    span, goes to the parameter being read as it is. *)
Lemma parseParameters_loop_word (word rest : string) (params : list string) (param : string) :
  JS.includes_char JS.quote word = false ->
  JS.includes_char JS.space word = false ->
  parseParameters_loop (word +:+ rest) params false param
  = parseParameters_loop rest params false (param +:+ word).
Proof.
  revert param. induction word as [|c word IH]; intros param Hq Hs.
  - by rewrite string_app_nil_l, string_app_nil_r.
  - rewrite string_app_cons. simpl. simpl in Hq, Hs.
    destruct (Ascii.eqb c JS.space); [done|].
    destruct (Ascii.eqb c JS.quote); [done|]. simpl.
    rewrite IH by done. by rewrite string_app_assoc.
Qed.

Lemma strip_quoted (interior : string) :
  JS.includes_char JS.quote interior = false ->
  stripEncapsulation (String JS.quote (interior +:+ String JS.quote "")) = interior.
Proof.
  intros Hq. unfold stripEncapsulation.
  assert (Hsub : JS.substring (String JS.quote (interior +:+ String JS.quote ""))
                   1 (JS.len (String JS.quote (interior +:+ String JS.quote "")) - 1)
                 = interior).
  { unfold JS.substring, JS.len, JS.clamp. simpl String.length.
    rewrite string_length_app. simpl String.length.
    replace (Z.to_nat _) with 1%nat by lia.
    match goal with |- String.substring 1 ?k _ = _ =>
      replace k with (String.length interior) by lia end.
    simpl. apply substring_app_prefix. }
  destruct (decide (JS.at_ (String JS.quote _) 0 = _)) as [_|Hn]; [|by destruct Hn].
  rewrite Hsub. destruct (decide _) as [Hlast|_]; [|done].
  exfalso. revert Hlast. unfold JS.at_.
  destruct (_ <? 0); [done|]. by apply get_includes.
Qed.

End Tokens.

(** X18: [parseParameters] loses nothing but separators it has read: the
    tokens joined by single spaces are the input again, or the input
    without its last space. *)
Theorem X18_parseParameters_join (paramString : string) :
  JS.join " " (CommandManager.parseParameters paramString) = paramString
  \/ JS.join " " (CommandManager.parseParameters paramString) +:+ " " = paramString.
Proof. exact (parseParameters_loop_join paramString [] false ""). Qed.

(** X19: a command word followed by a space and a text in double quotes
    (the text free of double quotes, spaces allowed) is read as two tokens,
    the word and the quoted text, and unquoting the second gives the text
    back. *)
Theorem X19_quoted_text_is_one_token (word text : string) :
  word <> "" ->
  JS.includes_char JS.quote word = false ->
  JS.includes_char JS.space word = false ->
  JS.includes_char JS.quote text = false ->
  let quoted := String JS.quote (text +:+ String JS.quote "") in
  CommandManager.parseParameters (word +:+ String JS.space quoted) = [word; quoted]
  /\ CommandManager.stripEncapsulation quoted = text.
Proof.
  intros Hword Hwq Hws Htq quoted. split; [|by apply strip_quoted].
  unfold CommandManager.parseParameters.
  rewrite parseParameters_loop_word by done.
  rewrite string_app_nil_l. unfold quoted. simpl.
  rewrite parseParameters_loop_inside by done.
  rewrite string_app_nil_l, string_app_cons, string_app_nil_l. simpl.
  by rewrite string_app_cons.
Qed.

Lemma X19_quoted_text_is_one_token_witness :
  CommandManager.parseParameters
    ("/say" +:+ String JS.space (String JS.quote ("hello there" +:+ String JS.quote "")))
  = ["/say"; String JS.quote ("hello there" +:+ String JS.quote "")]
  /\ CommandManager.stripEncapsulation
       (String JS.quote ("hello there" +:+ String JS.quote "")) = "hello there".
Proof.
  apply (X19_quoted_text_is_one_token "/say" "hello there");
    [discriminate|reflexivity..].
Defined.

(** ** Validating parameters *)

Section Validate.
Import CommandManager.

Variable external : string -> option string -> string -> option Character.t ->
                    Value -> RuleOutcome.


Lemma prepared_length (toks : list string) (n : nat) :
  (0 < n)%nat ->
  length (JS.slice toks 0 (Z.of_nat n - 1)
            ++ [JS.join " " (JS.slice_from toks (Z.of_nat n - 1))])
  = (Nat.min (length toks) (n - 1) + 1)%nat.
Proof.
  intros Hn. rewrite length_app. simpl. f_equal.
  unfold JS.slice, JS.rel_index.
  replace (0 <? 0) with false by done.
  replace (Z.of_nat n - 1 <? 0) with false by lia.
  rewrite length_take, length_drop. lia.
Qed.

Lemma required_rules player param v :
  apply_rules external player param (JS.split "|" (JS.toLowerCase "required")) v
  = Accept v.
Proof. reflexivity. Qed.

Lemma validate_loop_required player ps done_ todo :
  Forall (fun p => rules p = "required") ps ->
  validate_loop external player ps (length done_) (done_ ++ todo)
  = if (length ps <=? length todo)%nat
    then Resolve (done_ ++ (strip <$> take (length ps) todo) ++ drop (length ps) todo)
    else Unsettled.
Proof.
  intros Hps. revert done_ todo.
  induction Hps as [|p ps Hp Hps IH]; intros done_ todo.
  - simpl. by rewrite drop_0.
  - cbn [validate_loop].
    destruct todo as [|x todo].
    { rewrite app_nil_r, lookup_ge_None_2 by lia. done. }
    rewrite list_lookup_middle by done.
    rewrite Hp. cbn [String.length Nat.eqb].
    rewrite required_rules.
    replace (includes "required" (JS.split "|" (JS.toLowerCase "required")))
      with true by reflexivity.
    rewrite andb_false_r.
    rewrite list_insert_insert_eq.
    rewrite insert_app_r_alt, Nat.sub_diag by done. cbn [insert list_insert].
    replace (done_ ++ strip x :: todo) with ((done_ ++ [strip x]) ++ todo)
      by (by rewrite <- app_assoc).
    replace (S (length done_)) with (length (done_ ++ [strip x]))
      by (rewrite length_app; simpl; lia).
    rewrite IH. simpl.
    destruct (length ps <=? length todo)%nat; [|done].
    by rewrite <- app_assoc.
Qed.

End Validate.



(** X21: the rule [required] does not ask for a value.  For a command whose
    parameters all carry just that rule, [validate] never rejects: with one
    token less than there are parameters it resolves, the last value being
    the empty string, and with fewer tokens still it does not settle. *)
Theorem X21_required_accepts_missing_value
    (external : string -> option string -> string -> option Character.t ->
                CommandManager.Value -> CommandManager.RuleOutcome)
    (player : option Character.t) (toks : list string)
    (ps : list CommandManager.Param) :
  ps <> [] ->
  Forall (fun p => CommandManager.rules p = "required") ps ->
  (forall message,
      CommandManager.validate external player toks (Some ps)
      <> CommandManager.Reject message)
  /\ (S (length toks) = length ps ->
      CommandManager.validate external player toks (Some ps)
      = CommandManager.Resolve
          (((fun t => CommandManager.Str (CommandManager.stripEncapsulation t)) <$> toks)
             ++ [CommandManager.Str ""]))
  /\ (S (length toks) < length ps ->
      CommandManager.validate external player toks (Some ps)
      = CommandManager.Unsettled)%nat.
Proof.
  intros Hne Hps.
  assert (0 < length ps)%nat as Hn by (destruct ps; [done|simpl; lia]).
  pose proof (validate_loop_required external player ps []
                (CommandManager.Str <$>
                   (JS.slice toks 0 (Z.of_nat (length ps) - 1)
                      ++ [JS.join " " (JS.slice_from toks (Z.of_nat (length ps) - 1))]))
                Hps) as Hloop.
  simpl in Hloop.
  pose proof (prepared_length toks (length ps) Hn) as Hlen.
  unfold CommandManager.validate. rewrite Hloop, length_fmap, Hlen.
  split; [|split].
  - intros message H. by case_match.
  - intros Hk.
    rewrite (proj2 (Nat.leb_le _ _)) by lia.
    rewrite firstn_all2 by (rewrite length_fmap, Hlen; lia).
    rewrite skipn_all2 by (rewrite length_fmap, Hlen; lia).
    rewrite app_nil_r. f_equal.
    unfold JS.slice, JS.slice_from, JS.rel_index.
    replace (0 <? 0) with false by done.
    replace (Z.of_nat (length ps) - 1 <? 0) with false by lia.
    rewrite <- Hk.
    replace (Z.to_nat (Z.min (Z.of_nat (S (length toks)) - 1) (Z.of_nat (length toks))))
      with (length toks) by lia.
    replace (Z.to_nat (Z.min (Z.of_nat (S (length toks)) - 1) (Z.of_nat (length toks)) - Z.min 0 (Z.of_nat (length toks))))
      with (length toks) by lia.
    replace (Z.to_nat (Z.min 0 (Z.of_nat (length toks)))) with 0%nat by lia.
    rewrite drop_0, firstn_all, drop_all. simpl.
    rewrite !fmap_app, <- list_fmap_compose. done.
  - intros Hk.
    by rewrite (proj2 (Nat.leb_gt _ _)) by lia.
Qed.

Lemma X21_required_accepts_missing_value_witness :
  CommandManager.validate Examples.external None ["Bob"]
    (Some [CommandManager.mkParam "Target" "required";
           CommandManager.mkParam "Message" "required"])
  = CommandManager.Resolve [CommandManager.Str "Bob"; CommandManager.Str ""].
Proof.
  destruct (X21_required_accepts_missing_value Examples.external None ["Bob"]
              [CommandManager.mkParam "Target" "required";
               CommandManager.mkParam "Message" "required"])
    as (_ & H & _); [discriminate|repeat constructor|].
  exact (H eq_refl).
Defined.

(** ** Finding a target *)

Section FindAtLocation.
Import CommandManager.

Lemma find_exact_Found findName l t :
  find_exact findName l = Found t ->
  t ∈ l /\ name_lowercase t = findName /\ no_type t = true.
Proof.
  induction l as [|u l IH]; simpl; [done|].
  destruct (no_type u) eqn:Hu; [|done].
  destruct (String.eqb_spec (name_lowercase u) findName) as [He|_].
  - intros [= <-]. split; [apply list_elem_of_here|done].
  - intros (? & ? & ?)%IH. split; [by apply list_elem_of_further|done].
Qed.

Lemma matching_characters_spec P findName ignorePlayers t :
  t ∈ matching_characters P findName ignorePlayers ->
  ignorePlayers = false /\ t ∈ P /\ target_hidden t = false
  /\ JS.startsWith findName (name_lowercase t) = true.
Proof.
  unfold matching_characters. destruct ignorePlayers; [by intros ?%elem_of_nil|].
  destruct (_ =? _)%nat; intros [Hin Hf]%list_elem_of_In%filter_In;
    apply andb_true_iff in Hf as [Hn Hh]; apply negb_true_iff in Hh;
    (split; [done|]); (split; [by apply list_elem_of_In|]); (split; [done|]).
  - done.
  - apply String.eqb_eq in Hn as <-. apply startsWith_refl.
Qed.

Lemma matching_NPCs_spec N findName ignoreNPCs t :
  t ∈ matching_NPCs N findName ignoreNPCs ->
  ignoreNPCs = false /\ t ∈ N /\ JS.startsWith findName (title t) = true.
Proof.
  unfold matching_NPCs. destruct ignoreNPCs; [by intros ?%elem_of_nil|].
  intros [Hin Hf]%list_elem_of_In%filter_In.
  split; [done|]. split; [by apply list_elem_of_In|done].
Qed.

Lemma findAtLocation_Found P N findName ignoreNPCs ignorePlayers t :
  findAtLocation P N findName ignoreNPCs ignorePlayers = Found t ->
  t ∈ matching_characters P findName ignorePlayers
        ++ matching_NPCs N findName ignoreNPCs.
Proof.
  unfold findAtLocation. destruct (_ && _); [done|].
  destruct (1 <? _)%nat.
  - by intros (? & _)%find_exact_Found.
  - destruct (_ ++ _) as [|u l]; [done|].
    intros [= <-]. apply list_elem_of_here.
Qed.

Lemma find_exact_typed findName u l :
  no_type u = false -> find_exact findName (u :: l) = ReferenceError.
Proof. intros H. simpl. by rewrite H. Qed.

End FindAtLocation.

(** X22: a target that [findAtLocation] returns is one of the players at
    the location, not hidden, whose lower-case name starts with the name
    asked for, or one of the NPCs there whose title starts with it; a list
    the caller asked to ignore gives no target. *)
Theorem X22_findAtLocation_found
    (playersAtGrid NPCsAtGrid : list CommandManager.Target) (findName : string)
    (ignoreNPCs ignorePlayers : bool) (t : CommandManager.Target) :
  CommandManager.findAtLocation playersAtGrid NPCsAtGrid findName ignoreNPCs ignorePlayers
  = CommandManager.Found t ->
  (ignorePlayers = false /\ t ∈ playersAtGrid
   /\ CommandManager.target_hidden t = false
   /\ JS.startsWith findName (CommandManager.name_lowercase t) = true)
  \/ (ignoreNPCs = false /\ t ∈ NPCsAtGrid
      /\ JS.startsWith findName (CommandManager.title t) = true).
Proof.
  intros [H|H]%findAtLocation_Found%elem_of_app.
  - left. by apply matching_characters_spec.
  - right. by apply matching_NPCs_spec.
Qed.

Lemma X22_findAtLocation_found_witness :
  let alice := CommandManager.mkTarget "Alice" "alice" None false in
  (false = false /\ alice ∈ [Examples.lurker; alice]
   /\ CommandManager.target_hidden alice = false
   /\ JS.startsWith "al" (CommandManager.name_lowercase alice) = true)
  \/ (false = false /\ alice ∈ [Examples.guard]
      /\ JS.startsWith "al" (CommandManager.title alice) = true).
Proof.
  intros alice.
  apply (X22_findAtLocation_found [Examples.lurker; alice] [Examples.guard] "al"
           false false alice).
  reflexivity.
Defined.

(** X23: when more than one target matches, only an object without a type
    whose lower-case name is exactly the name asked for is returned; the
    comparison meant for NPCs reads an unbound variable, so with players
    left out and two or more NPCs matching, all of them typed, the call
    throws. *)
Theorem X23_findAtLocation_several_matches
    (playersAtGrid NPCsAtGrid : list CommandManager.Target) (findName : string)
    (ignoreNPCs ignorePlayers : bool) :
  (1 < length (CommandManager.matching_characters playersAtGrid findName ignorePlayers
                 ++ CommandManager.matching_NPCs NPCsAtGrid findName ignoreNPCs))%nat ->
  (forall t,
      CommandManager.findAtLocation playersAtGrid NPCsAtGrid findName ignoreNPCs ignorePlayers
      = CommandManager.Found t ->
      CommandManager.name_lowercase t = findName /\ CommandManager.no_type t = true)
  /\ (ignorePlayers = true ->
      Forall (fun npc => CommandManager.no_type npc = false) NPCsAtGrid ->
      CommandManager.findAtLocation playersAtGrid NPCsAtGrid findName ignoreNPCs ignorePlayers
      = CommandManager.ReferenceError).
Proof.
  intros Hlen. unfold CommandManager.findAtLocation.
  rewrite (proj2 (Nat.ltb_lt _ _) Hlen).
  rewrite length_app in Hlen.
  replace ((length (CommandManager.matching_characters playersAtGrid findName ignorePlayers) =? 0)%nat
           && (length (CommandManager.matching_NPCs NPCsAtGrid findName ignoreNPCs) =? 0)%nat)
    with false.
  2: { symmetry. apply andb_false_iff.
       destruct (Nat.eqb_spec
                   (length (CommandManager.matching_characters playersAtGrid findName
                              ignorePlayers)) 0);
         [right; apply Nat.eqb_neq; lia|by left]. }
  split.
  - by intros t (_ & ? & ?)%find_exact_Found.
  - intros -> Htyped. simpl in *.
    destruct (CommandManager.matching_NPCs NPCsAtGrid findName ignoreNPCs)
      as [|u l] eqn:Hl; [simpl in Hlen; lia|].
    apply find_exact_typed.
    assert (u ∈ CommandManager.matching_NPCs NPCsAtGrid findName ignoreNPCs) as Hu
      by (rewrite Hl; apply list_elem_of_here).
    apply matching_NPCs_spec in Hu as (_ & Hu & _).
    by apply (proj1 (Forall_forall _ _) Htyped).
Qed.

Lemma X23_findAtLocation_several_matches_witness :
  CommandManager.findAtLocation [] [Examples.guard; Examples.guard] "guard" false true
  = CommandManager.ReferenceError.
Proof.
  destruct (X23_findAtLocation_several_matches [] [Examples.guard; Examples.guard]
              "guard" false true) as [_ H]; [vm_compute; lia|].
  apply H; [reflexivity|by repeat constructor].
Defined.

(** ** Dispatching commands *)

Lemma onDispatch_cases
    (external : string -> option string -> string -> option Character.t ->
                CommandManager.Value -> CommandManager.RuleOutcome)
    (GAME_COMMAND : string)
    (commands : gmap string CommandManager.Command)
    (characters : list Character.handle) (s : Character.Store)
    (user : string) (action : CommandManager.Action) :
  let effects :=
    CommandManager.onDispatch external GAME_COMMAND commands characters s user action in
  effects = []
  \/ (exists message, effects = [CommandManager.ErrorToSocket user message])
  \/ effects = [CommandManager.TypeErrorToSocket user]
  \/ (exists command validParams,
        effects = [CommandManager.Invoke command user
                     (CharacterManager.getSync characters s user) validParams]
        /\ CommandManager.type action = GAME_COMMAND
        /\ is_Some (commands !! command)
        /\ JS.toLowerCase command = command).
Proof.
  unfold CommandManager.onDispatch.
  destruct (String.eqb_spec (CommandManager.type action) GAME_COMMAND) as [Ht|Ht]; simpl;
    [|by left].
  repeat (case_match; try (by left); try (right; left; by eexists);
          try (right; right; by left)).
  right. right. right. eexists _, _. split; [done|]. split; [done|].
  split; [done|]. apply toLowerCase_idemp.
Qed.

(** X24: whatever the handlers do, every effect of [onDispatch] concerns
    the socket's own user, and there are at most two: a handler is called
    at most once, only for an action of the game command type, under a
    lower-case key that is in the table of commands and with the character
    that [getSync] finds for the user, and an error event follows the call
    exactly when the handler throws.  A name that every object inherits
    passes the look-up without a handler, and the socket gets the engine's
    error. *)
Theorem X24_onDispatch_effects
    (external : string -> option string -> string -> option Character.t ->
                CommandManager.Value -> CommandManager.RuleOutcome)
    (GAME_COMMAND : string)
    (method : string -> string -> option Character.handle ->
              list CommandManager.Value -> option string)
    (commands : gmap string CommandManager.Command)
    (characters : list Character.handle) (s : Character.Store)
    (user : string) (action : CommandManager.Action) :
  let effects :=
    CommandManager.onDispatch_with external GAME_COMMAND method commands characters s
      user action in
  (length effects <= 2)%nat
  /\ (forall e, e ∈ effects ->
        match e with
        | CommandManager.ErrorToSocket u _ => u = user
        | CommandManager.TypeErrorToSocket u => u = user
        | CommandManager.Invoke command u character validParams =>
            u = user
            /\ CommandManager.type action = GAME_COMMAND
            /\ is_Some (commands !! command)
            /\ JS.toLowerCase command = command
            /\ character = CharacterManager.getSync characters s user
            /\ effects
               = e :: match method command u character validParams with
                      | Some error => [CommandManager.ErrorToSocket user error]
                      | None => []
                      end
        end)
  /\ (forall text first msgParams,
        CommandManager.type action = GAME_COMMAND ->
        CommandManager.payload action = Some text -> text <> "" ->
        CommandManager.parseParameters (JS.trim text) = first :: msgParams ->
        commands !! JS.toLowerCase first = None ->
        In (JS.toLowerCase first) CommandManager.inherited_keys ->
        effects = [CommandManager.TypeErrorToSocket user]).
Proof.
  intros effects.
  assert (Hlast : forall text first msgParams,
            CommandManager.type action = GAME_COMMAND ->
            CommandManager.payload action = Some text -> text <> "" ->
            CommandManager.parseParameters (JS.trim text) = first :: msgParams ->
            commands !! JS.toLowerCase first = None ->
            In (JS.toLowerCase first) CommandManager.inherited_keys ->
            effects = [CommandManager.TypeErrorToSocket user]).
  { intros text first msgParams Ht Hp Hne Hparse Hcmd Hin.
    unfold effects, CommandManager.onDispatch_with, CommandManager.onDispatch.
    rewrite Ht, String.eqb_refl, Hp. simpl.
    destruct (String.eqb_spec text "") as [|_]; [done|].
    destruct (at_zero_of_parse _ _ _ Hparse) as [ch ->].
    rewrite Hparse, Hcmd.
    by destruct Hin as [Hin|[Hin|[]]]; rewrite <- Hin. }
  split; [|split; [|exact Hlast]]; clear Hlast;
    unfold effects, CommandManager.onDispatch_with;
    destruct (onDispatch_cases external GAME_COMMAND commands characters s user action)
      as [-> | [[message ->] | [-> | (command & validParams & -> & Ht & Hcmd & Hlow)]]];
    simpl.
  - lia.
  - lia.
  - lia.
  - destruct (method _ _ _ _); simpl; lia.
  - by intros e ?%elem_of_nil.
  - by intros e ->%list_elem_of_singleton.
  - by intros e ->%list_elem_of_singleton.
  - rewrite app_nil_r. intros e He.
    apply elem_of_cons in He as [->|He]; [done|].
    destruct (method _ _ _ _); [|by apply elem_of_nil in He].
    by apply list_elem_of_singleton in He as ->.
Qed.

Lemma X24_onDispatch_effects_witness :
  let throws := fun (command user : string) (character : option Character.handle)
                    (validParams : list CommandManager.Value) => Some "Error: no character" in
  CommandManager.onDispatch_with Examples.external "GAME_COMMAND" throws Examples.commands
    [] Examples.store "1001" (CommandManager.mkAction "GAME_COMMAND" (Some "/help"))
  = [CommandManager.Invoke "/help" "1001" None [];
     CommandManager.ErrorToSocket "1001" "Error: no character"]
  /\ CommandManager.onDispatch_with Examples.external "GAME_COMMAND" throws
       Examples.commands [] Examples.store "1001"
       (CommandManager.mkAction "GAME_COMMAND" (Some "constructor"))
     = [CommandManager.TypeErrorToSocket "1001"].
Proof.
  intros throws.
  destruct (X24_onDispatch_effects Examples.external "GAME_COMMAND" throws
              Examples.commands [] Examples.store "1001"
              (CommandManager.mkAction "GAME_COMMAND" (Some "/help"))) as (_ & H & _).
  destruct (X24_onDispatch_effects Examples.external "GAME_COMMAND" throws
              Examples.commands [] Examples.store "1001"
              (CommandManager.mkAction "GAME_COMMAND" (Some "constructor"))) as (_ & _ & H').
  split.
  - assert (He : CommandManager.Invoke "/help" "1001" None []
                 ∈ CommandManager.onDispatch_with Examples.external "GAME_COMMAND" throws
                     Examples.commands [] Examples.store "1001"
                     (CommandManager.mkAction "GAME_COMMAND" (Some "/help")))
      by (vm_compute; apply list_elem_of_here).
    destruct (H _ He) as (_ & _ & _ & _ & _ & Heff). exact Heff.
  - apply (H' "constructor" "constructor" []); try reflexivity; [discriminate|by left].
Defined.

(** ** Moving *)

Section Move.
Import Character.

Lemma gridRelease_frame s tgt uid h :
  exists l, gridRelease s tgt uid h = with_targetedBy l (s h).
Proof.
  unfold gridRelease. destruct (list_find _ _) as [[i x]|].
  - destruct (decide (tgt = h)) as [->|Hne].
    + rewrite fn_lookup_insert. by eexists.
    + rewrite fn_lookup_insert_ne by done. exists (targetedBy (s h)). by destruct (s h).
  - exists (targetedBy (s h)). by destruct (s h).
Qed.

(** [releaseTarget] touches nothing but [target] and [targetedBy]. *)
Lemma releaseTarget_frame s a h :
  exists t l, releaseTarget s a h = with_target t (with_targetedBy l (s h)).
Proof.
  unfold releaseTarget.
  destruct (decide (a = h)) as [->|Hne];
    [rewrite fn_lookup_insert|rewrite fn_lookup_insert_ne by done].
  - destruct (target (s h)) as [tgt|].
    + destruct (gridRelease_frame s tgt (user_id (s h)) h) as [l ->].
      exists None, l. by destruct (s h).
    + exists None, (targetedBy (s h)). by destruct (s h).
  - destruct (target (s a)) as [tgt|].
    + destruct (gridRelease_frame s tgt (user_id (s a)) h) as [l ->].
      exists (target (s h)), l. by destruct (s h).
    + exists (target (s h)), (targetedBy (s h)). by destruct (s h).
Qed.


Lemma releaseTarget_cooldowns s a h :
  cooldowns (releaseTarget s a h) = cooldowns (s h).
Proof. by destruct (releaseTarget_frame s a h) as (t & l & ->). Qed.

Lemma releaseTarget_hidden s a h :
  hidden (releaseTarget s a h) = hidden (s h).
Proof. by destruct (releaseTarget_frame s a h) as (t & l & ->). Qed.

(** A character nobody aims at keeps an empty [targetedBy] array when it
    releases its own target. *)
Lemma releaseTarget_untargeted s a :
  targetedBy (s a) = [] -> targetedBy (releaseTarget s a a) = [].
Proof.
  intros Hnil. rewrite releaseTarget_targetedBy.
  destruct (target (s a)) as [tgt|]; [|done].
  destruct (decide (tgt = a)) as [->|Hne].
  - unfold gridRelease. by rewrite Hnil.
  - by rewrite gridRelease_other.
Qed.

Lemma ticksLeft_zero_find l act :
  Cooldown.ticksLeft l act = 0 ->
  List.find (fun cd => String.eqb (Cooldown.action cd) act && (0 <? Cooldown.ticks cd)) l
  = None.
Proof.
  unfold Cooldown.ticksLeft. destruct (find _ l) as [cd|] eqn:Hfind; [|done].
  apply find_some in Hfind as [_ [_ Ht]%andb_prop].
  destruct (Z.eqb_spec (Cooldown.ticks cd) 0); lia.
Qed.

Lemma ticksLeft_app_new l c :
  Cooldown.ticksLeft l (Cooldown.action c) = 0 -> 0 < Cooldown.ticks c ->
  Cooldown.ticksLeft (l ++ [c]) (Cooldown.action c) = Cooldown.ticks c.
Proof.
  intros Hz%ticksLeft_zero_find Hpos. unfold Cooldown.ticksLeft.
  induction l as [|cd l IH]; simpl in *.
  - rewrite String.eqb_refl. simpl.
    destruct (Z.ltb_spec 0 (Cooldown.ticks c)); [|lia].
    destruct (Z.eqb_spec (Cooldown.ticks c) 0); lia.
  - destruct (_ && _); [done|]. by apply IH.
Qed.

End Move.

(** X25: [move] leaves every character as it was and sends nothing to any
    room when the user has no character, when somebody aims at the
    character, when the character is hidden, or when a move cooldown has
    ticks left; in the last case it is silent altogether. *)
Theorem X25_move_denied
    (playerCooldowns : string -> option Z)
    (isValidLocation : string -> Z -> Z -> option Character.Location)
    (characters : list Character.handle) (s : Character.Store)
    (user : string) (moveAction : CharacterManager.MoveAction) :
  (forall h, CharacterManager.getSync characters s user = Some h ->
     Character.targetedBy (s h) <> []
     \/ Character.hidden (s h) = true
     \/ Cooldown.ticksLeft (Character.cooldowns (s h)) "move" <> 0) ->
  let r := CharacterManager.move playerCooldowns isValidLocation characters s user
             moveAction in
  r.1 = s
  /\ (length r.2 <= 1)%nat
  /\ (forall e, e ∈ r.2 -> CharacterManager.is_room_event e = false)
  /\ (forall h, CharacterManager.getSync characters s user = Some h ->
        Character.targetedBy (s h) = [] -> Character.hidden (s h) = false ->
        r.2 = []).
Proof.
  intros Hdenied. unfold CharacterManager.move.
  destruct (CharacterManager.getSync characters s user) as [h|] eqn:Hget; simpl.
  2: { split; [done|]. split; [lia|].
       split; [by intros e ->%list_elem_of_singleton|done]. }
  specialize (Hdenied h eq_refl).
  destruct (Character.targetedBy (s h)) as [|a l] eqn:Htb; simpl.
  2: { split; [done|]. split; [lia|].
       split; [by intros e ->%list_elem_of_singleton|].
       intros ? [= <-] ? ?. congruence. }
  destruct (Character.hidden (s h)) eqn:Hh; simpl.
  { split; [done|]. split; [lia|].
    split; [by intros e ->%list_elem_of_singleton|].
    intros ? [= <-] ? ?. congruence. }
  destruct (Z.eqb_spec (Cooldown.ticksLeft (Character.cooldowns (s h)) "move") 0)
    as [Hz|_]; simpl.
  { by destruct Hdenied as [?|[?|?]]. }
  split; [done|]. split; [lia|]. split; [by intros e ?%elem_of_nil|done].
Qed.

Lemma X25_move_denied_witness :
  let s := <[0%nat := Character.with_cooldowns [Cooldown.mk "move" 3 true false]
                        Examples.alice]> Examples.store in
  CharacterManager.move Examples.playerCooldowns Examples.isValidLocation
    Examples.registry s "1001" (CharacterManager.mkMove CharacterManager.GridX 1)
  = (s, []).
Proof.
  intros s.
  destruct (X25_move_denied Examples.playerCooldowns Examples.isValidLocation
              Examples.registry s "1001" (CharacterManager.mkMove CharacterManager.GridX 1))
    as (H1 & _ & _ & H2).
  - intros h [= <-]. right. right. discriminate.
  - specialize (H2 0%nat eq_refl eq_refl eq_refl).
    destruct (CharacterManager.move _ _ _ _ _ _) as [s' events].
    simpl in H1, H2. by rewrite H1, H2.
Defined.



Section MoveTwice.
Import Character.

Lemma getSync_ext characters (s s' : Store) user :
  (forall o, user_id (s' o) = user_id (s o)) ->
  CharacterManager.getSync characters s' user = CharacterManager.getSync characters s user.
Proof.
  intros Hid. unfold CharacterManager.getSync.
  destruct (String.eqb user ""); [done|]. f_equal.
  apply list_find_ext. intros o. by rewrite Hid.
Qed.

Lemma add_configured playerCooldowns cooldowns act d :
  playerCooldowns act = Some d -> 0 < d ->
  Cooldown.add playerCooldowns cooldowns act None false
  = (cooldowns ++ [Cooldown.mk act d false false],
     Some (Cooldown.mk act d false false)).
Proof.
  intros Hd Hpos. unfold Cooldown.add. rewrite Hd. simpl.
  destruct (Z.eqb_spec d 0); [lia|]. simpl.
  destruct (Z.eqb_spec d 0); [lia|]. done.
Qed.

End MoveTwice.

(** X27: with a move cooldown configured, a move that passes the checks
    leaves the character with that many ticks on the move cooldown, whether
    the destination was accepted or not, and a move request that follows
    at once is dropped without a word: no character changes and nothing is
    sent. *)
Theorem X27_move_blocks_next_move
    (playerCooldowns : string -> option Z)
    (isValidLocation : string -> Z -> Z -> option Character.Location)
    (characters : list Character.handle) (s : Character.Store)
    (user : string) (first next : CharacterManager.MoveAction)
    (h : Character.handle) (d : Z) :
  CharacterManager.getSync characters s user = Some h ->
  Character.targetedBy (s h) = [] ->
  Character.hidden (s h) = false ->
  Cooldown.ticksLeft (Character.cooldowns (s h)) "move" = 0 ->
  playerCooldowns "move" = Some d -> 0 < d ->
  let s' := (CharacterManager.move playerCooldowns isValidLocation characters s user
               first).1 in
  Cooldown.ticksLeft (Character.cooldowns (s' h)) "move" = d
  /\ CharacterManager.move playerCooldowns isValidLocation characters s' user next
     = (s', []).
Proof.
  intros Hget Htb Hh Hz Hd Hpos s'.
  assert (Hs' : (forall o, Character.user_id (s' o) = Character.user_id (s o))
                /\ Character.targetedBy (s' h) = []
                /\ Character.hidden (s' h) = false
                /\ exists b, Character.cooldowns (s' h)
                             = Character.cooldowns (s h) ++ [Cooldown.mk "move" d b false]).
  { unfold s', CharacterManager.move. rewrite Hget. simpl.
    rewrite Htb, Hh, Hz. simpl.
    rewrite (add_configured playerCooldowns _ "move" d Hd Hpos).
    destruct (isValidLocation _ _ _) as [loc|].
    - destruct (CharacterManager.direction_names first) as [directionOut directionIn].
      simpl. rewrite !fn_lookup_insert. simpl.
      rewrite releaseTarget_cooldowns, fn_lookup_insert. simpl.
      split; [|split; [|split]].
      + intros o. destruct (decide (h = o)) as [<-|Hne].
        * rewrite fn_lookup_insert. simpl.
          by rewrite releaseTarget_user_id, fn_lookup_insert.
        * rewrite !fn_lookup_insert_ne by done.
          by rewrite releaseTarget_user_id, fn_lookup_insert_ne.
      + apply releaseTarget_untargeted. by rewrite fn_lookup_insert.
      + by rewrite releaseTarget_hidden, fn_lookup_insert.
      + exists true.
        rewrite alter_app_r_alt, Nat.sub_diag by done. done.
    - simpl. rewrite fn_lookup_insert. simpl.
      split; [|split; [done|split; [done|by exists false]]].
      intros o. destruct (decide (h = o)) as [<-|Hne].
      + by rewrite fn_lookup_insert.
      + by rewrite fn_lookup_insert_ne. }
  destruct Hs' as (Hid & Htb' & Hh' & b & Hcd).
  assert (Hticks : Cooldown.ticksLeft (Character.cooldowns (s' h)) "move" = d).
  { rewrite Hcd.
    apply (ticksLeft_app_new (Character.cooldowns (s h)) (Cooldown.mk "move" d b false));
      [exact Hz|exact Hpos]. }
  split; [exact Hticks|].
  unfold CharacterManager.move at 1.
  rewrite (getSync_ext characters s s' user Hid), Hget. simpl.
  rewrite Htb', Hh', Hticks. simpl.
  destruct (Z.eqb_spec d 0); [lia|]. done.
Qed.

Lemma X27_move_blocks_next_move_witness :
  let s' := (CharacterManager.move Examples.playerCooldowns Examples.isValidLocation
               Examples.registry Examples.store "1001"
               (CharacterManager.mkMove CharacterManager.GridY 1)).1 in
  Character.location (s' 0%nat) = Character.location (Examples.store 0%nat)
  /\ CharacterManager.move Examples.playerCooldowns Examples.isValidLocation
       Examples.registry s' "1001" (CharacterManager.mkMove CharacterManager.GridX 1)
     = (s', []).
Proof.
  intros s'. split; [reflexivity|].
  apply (X27_move_blocks_next_move Examples.playerCooldowns Examples.isValidLocation
           Examples.registry Examples.store "1001"
           (CharacterManager.mkMove CharacterManager.GridY 1)
           (CharacterManager.mkMove CharacterManager.GridX 1) 0%nat 2);
    [reflexivity..|lia].
Defined.

(** ** Who is where *)

Section MoveState.
Import Character.

Lemma getSync_Some characters s user h :
  CharacterManager.getSync characters s user = Some h ->
  In h characters /\ user_id (s h) = user.
Proof.
  unfold CharacterManager.getSync. destruct (String.eqb user ""); [done|].
  destruct (list_find _ _) as [[i o]|] eqn:Hfind; [|done].
  intros [= <-]. apply list_find_Some in Hfind as (Hi & Hu & _).
  split; [|done]. apply list_elem_of_In. by eapply list_elem_of_lookup_2.
Qed.

(** The moved character after a move that went through. *)
Lemma move_success_state playerCooldowns isValidLocation characters s user
    moveAction h loc :
  CharacterManager.getSync characters s user = Some h ->
  targetedBy (s h) = [] -> hidden (s h) = false ->
  Cooldown.ticksLeft (cooldowns (s h)) "move" = 0 ->
  isValidLocation
    (map (CharacterManager.destination (location (s h)) moveAction))
    (x (CharacterManager.destination (location (s h)) moveAction))
    (y (CharacterManager.destination (location (s h)) moveAction)) = Some loc ->
  map loc <> "" ->
  let s' := (CharacterManager.move playerCooldowns isValidLocation characters s user
               moveAction).1 in
  location (s' h) = loc /\ hidden (s' h) = false
  /\ name (s' h) = name (s h) /\ user_id (s' h) = user_id (s h).
Proof.
  intros Hget Htb Hh Hz Hvalid Hmap.
  unfold CharacterManager.move. rewrite Hget. simpl.
  rewrite Htb, Hh, Hz. simpl.
  destruct (Cooldown.add playerCooldowns (cooldowns (s h)) "move" None false)
    as [cds newCooldown].
  rewrite Hvalid.
  destruct (CharacterManager.direction_names moveAction) as [directionOut directionIn].
  destruct (releaseTarget_frame (<[h := with_cooldowns cds (s h)]> s) h h)
    as (t & l & Hrel).
  rewrite fn_lookup_insert in Hrel.
  destruct newCooldown; simpl; rewrite !fn_lookup_insert; simpl;
    rewrite Hrel; unfold updateLocation; simpl;
    (destruct (String.eqb_spec (map loc) ""); [done|]); by destruct loc.
Qed.

End MoveState.

(** X28: [getRank] looks at all levels but the last and gives the name of
    the level before the first one that asks for more experience than the
    character has.  So the names of the last two levels are never given;
    with experience at or above all levels but the last there is no rank
    ([undefined]); and with less than the first level asks for, the call
    throws. *)
Theorem X28_getRank (Levels : list CharacterManager.Level) (exp : Z) :
  match CharacterManager.getRank Levels exp with
  | Character.Returns (Some rank) =>
      exists j previous following,
        (j + 2 < length Levels)%nat
        /\ Levels !! j = Some previous
        /\ CharacterManager.level_name previous = rank
        /\ CharacterManager.level_exp previous <= exp
        /\ Levels !! S j = Some following
        /\ exp < CharacterManager.level_exp following
  | Character.Returns None =>
      forall k level, (k + 1 < length Levels)%nat -> Levels !! k = Some level ->
        CharacterManager.level_exp level <= exp
  | Character.Throws =>
      exists first, Levels !! 0%nat = Some first
        /\ exp < CharacterManager.level_exp first /\ (2 <= length Levels)%nat
  end.
Proof.
  unfold CharacterManager.getRank.
  assert (Hgen : forall n i,
    (i + n = length Levels - 1)%nat ->
    (forall k level, (k < i)%nat -> Levels !! k = Some level ->
       CharacterManager.level_exp level <= exp) ->
    match CharacterManager.getRank_loop Levels exp i n with
    | Character.Returns (Some rank) =>
        exists j previous following,
          (j + 2 < length Levels)%nat
          /\ Levels !! j = Some previous
          /\ CharacterManager.level_name previous = rank
          /\ CharacterManager.level_exp previous <= exp
          /\ Levels !! S j = Some following
          /\ exp < CharacterManager.level_exp following
    | Character.Returns None =>
        forall k level, (k + 1 < length Levels)%nat -> Levels !! k = Some level ->
          CharacterManager.level_exp level <= exp
    | Character.Throws =>
        exists first, Levels !! 0%nat = Some first
          /\ exp < CharacterManager.level_exp first /\ (2 <= length Levels)%nat
    end).
  { induction n as [|n IH]; intros i Hin Hbelow; simpl.
    - intros k level Hk. apply Hbelow. lia.
    - destruct (Levels !! i) as [level|] eqn:Hi.
      2: { apply lookup_ge_None in Hi. lia. }
      destruct (Z.ltb_spec exp (CharacterManager.level_exp level)) as [Hlt|Hge].
      + destruct i as [|j].
        * exists level. split; [done|]. split; [done|lia].
        * destruct (Levels !! j) as [previous|] eqn:Hj.
          2: { apply lookup_ge_None in Hj. lia. }
          exists j, previous, level. split; [lia|]. split; [done|]. split; [done|].
          split; [by apply (Hbelow j); [lia|]|done].
      + apply IH; [lia|]. intros k level' Hk Hlk.
        destruct (decide (k = i)) as [->|Hne].
        * rewrite Hi in Hlk. injection Hlk as <-. lia.
        * apply (Hbelow k); [lia|done]. }
  apply Hgen; [lia|]. intros k level Hk. lia.
Qed.

Lemma X28_getRank_witness :
  let Levels := [CharacterManager.mkLevel 0 "Rookie"; CharacterManager.mkLevel 100 "Thug";
                 CharacterManager.mkLevel 500 "Boss"] in
  CharacterManager.getRank Levels 200 = Character.Returns None
  /\ CharacterManager.level_exp (CharacterManager.mkLevel 100 "Thug") <= 200.
Proof.
  intros Levels. split; [reflexivity|].
  pose proof (X28_getRank Levels 200) as H.
  change (CharacterManager.getRank Levels 200) with (@Character.Returns (option string) None) in H.
  apply (H 1%nat); [simpl; lia|reflexivity].
Defined.

(** X29: after a move that went through, the character is in the list of
    its new location and, when that is another location, no longer in the
    list of the old one; the list made for a client at the new location
    names the character, except when the client asks to leave out that
    very user. *)
Theorem X29_move_updates_location_list
    (playerCooldowns : string -> option Z)
    (isValidLocation : string -> Z -> Z -> option Character.Location)
    (characters : list Character.handle) (s : Character.Store)
    (user : string) (moveAction : CharacterManager.MoveAction)
    (h : Character.handle) (loc : Character.Location) :
  CharacterManager.getSync characters s user = Some h ->
  Character.targetedBy (s h) = [] ->
  Character.hidden (s h) = false ->
  Cooldown.ticksLeft (Character.cooldowns (s h)) "move" = 0 ->
  (let dest := CharacterManager.destination (Character.location (s h)) moveAction in
   isValidLocation (Character.map dest) (Character.x dest) (Character.y dest) = Some loc) ->
  Character.map loc <> "" ->
  let s' := (CharacterManager.move playerCooldowns isValidLocation characters s user
               moveAction).1 in
  let old := Character.location (s h) in
  In h (CharacterManager.getLocationList characters s' (Character.map loc)
          (Some (Character.x loc)) (Some (Character.y loc)))
  /\ (loc <> old ->
      ~ In h (CharacterManager.getLocationList characters s' (Character.map old)
                (Some (Character.x old)) (Some (Character.y old))))
  /\ (forall ignore, ignore <> Some user ->
        In (Character.name (s h), user)
           (CharacterManager.getLocationList_toClient characters s' (Character.map loc)
              (Some (Character.x loc)) (Some (Character.y loc)) ignore))
  /\ (forall name,
        ~ In (name, user)
            (CharacterManager.getLocationList_toClient characters s' (Character.map loc)
               (Some (Character.x loc)) (Some (Character.y loc)) (Some user))).
Proof.
  intros Hget Htb Hh Hz Hvalid Hmap s' old. simpl in Hvalid.
  destruct (move_success_state playerCooldowns isValidLocation characters s user
              moveAction h loc Hget Htb Hh Hz Hvalid Hmap)
    as (Hloc & Hhid & Hname & Huid).
  fold s' in Hloc, Hhid, Hname, Huid.
  destruct (getSync_Some characters s user h Hget) as [Hin Huser].
  assert (Hnew : In h (CharacterManager.getLocationList characters s' (Character.map loc)
                         (Some (Character.x loc)) (Some (Character.y loc)))).
  { apply filter_In. split; [done|]. unfold CharacterManager.at_location.
    rewrite Hloc, String.eqb_refl, !Z.eqb_refl. done. }
  split; [exact Hnew|]. split; [|split].
  - intros Hne [_ Hat]%filter_In. apply Hne.
    unfold CharacterManager.at_location in Hat. rewrite Hloc in Hat.
    apply andb_prop in Hat as [[Hm%String.eqb_eq Hy%Z.eqb_eq]%andb_prop Hx%Z.eqb_eq].
    unfold old. destruct loc, (Character.location (s h)). simpl in *. congruence.
  - intros ignore Hig. apply in_map_iff. exists h.
    split; [by rewrite Hname, Huid, Huser|].
    apply filter_In. split; [exact Hnew|]. rewrite Hhid, Huid, Huser.
    destruct ignore as [i|]; [|done].
    destruct (String.eqb_spec user i) as [->|_]; [done|done].
  - intros name [o [[= _ Ho] [_ Hf]%filter_In]]%in_map_iff.
    rewrite Ho, String.eqb_refl in Hf. done.
Qed.

Lemma X29_move_updates_location_list_witness :
  let s' := (CharacterManager.move Examples.playerCooldowns Examples.isValidLocation
               Examples.registry Examples.store "1001"
               (CharacterManager.mkMove CharacterManager.GridX 1)).1 in
  In 0%nat (CharacterManager.getLocationList Examples.registry s' "london" (Some 2) (Some 1))
  /\ ~ In 0%nat (CharacterManager.getLocationList Examples.registry s' "london"
                   (Some 1) (Some 1)).
Proof.
  intros s'.
  destruct (X29_move_updates_location_list Examples.playerCooldowns
              Examples.isValidLocation Examples.registry Examples.store "1001"
              (CharacterManager.mkMove CharacterManager.GridX 1) 0%nat
              (Character.mkLocation "london" 2 1))
    as (H1 & H2 & _); [reflexivity..|discriminate|].
  split; [exact H1|]. apply H2. discriminate.
Defined.

(** ** Disconnection timers *)

(** X30: [onDisconnect] stores the new time-out under the user id without
    clearing one that is stored there already.  A [clearTimer] that
    follows reports success and clears the new time-out only: what was
    pending before is pending still, the user id has no entry left, and a
    further [clearTimer] for that user finds nothing to clear. *)
Theorem X30_clearTimer_clears_latest_only
    (m : SocketManager.t) (user_id : string) :
  SocketManager.fresh m ->
  let m1 := (SocketManager.onDisconnect m (Some user_id) false).1 in
  let m2 := (SocketManager.clearTimer m1 user_id).1 in
  (SocketManager.clearTimer m1 user_id).2 = true
  /\ SocketManager.pending m2 = SocketManager.pending m
  /\ SocketManager.timers m2 = delete user_id (SocketManager.timers m)
  /\ SocketManager.clearTimer m2 user_id = (m2, false)
  /\ SocketManager.fresh m2.
Proof.
  intros Hfresh. simpl. unfold SocketManager.clearTimer. simpl.
  rewrite lookup_insert_eq. simpl.
  assert (Hp : List.filter (fun p : nat * string => negb (p.1 =? SocketManager.next m)%nat)
                 (SocketManager.pending m ++ [(SocketManager.next m, user_id)])
               = SocketManager.pending m).
  { rewrite List.filter_app. simpl. rewrite Nat.eqb_refl. simpl. rewrite app_nil_r.
    apply forallb_filter_id. apply forallb_forall. intros p Hin%list_elem_of_In.
    apply negb_true_iff, Nat.eqb_neq. specialize (Hfresh p Hin). lia. }
  rewrite Hp, delete_insert_eq, lookup_delete_eq.
  repeat split; try done.
  intros p Hin. specialize (Hfresh p Hin). simpl. lia.
Qed.

Lemma X30_clearTimer_clears_latest_only_witness :
  let m := SocketManager.mk {[ "1001" := 0%nat ]} [(0%nat, "1001")] 1 in
  let m2 := (SocketManager.clearTimer
               (SocketManager.onDisconnect m (Some "1001") false).1 "1001").1 in
  SocketManager.pending m2 = [(0%nat, "1001")]
  /\ SocketManager.clearTimer m2 "1001" = (m2, false).
Proof.
  intros m m2.
  destruct (X30_clearTimer_clears_latest_only m "1001") as (_ & H1 & _ & H2 & _).
  - intros p ->%list_elem_of_singleton. simpl. lia.
  - split; [exact H1|exact H2].
Defined.
